(** * GitHubMonitor: the MarkdownV2 pipeline, the chunker and the retry logic

    A shallow embedding of [github_monitor.py].  Python strings are
    sequences of Unicode code points, and [len] counts code points, so a
    string is modelled as a list of code points ([N]).  Regular
    expressions are modelled by a small backtracking matcher whose
    combinators follow the operators of the patterns in the source. *)

From Stdlib Require Import List NArith ZArith Lia Bool String Ascii.
From stdpp Require Import base list gmap.
Import ListNotations.

Local Open Scope N_scope.
Local Open Scope nat_scope.

(** ** Strings as code-point sequences *)

(** ASCII literals of the source, turned into code points. *)
Fixpoint lit (s : string) : list N :=
  match s with
  | EmptyString => []
  | String a r => N_of_ascii a :: lit r
  end.

Definition nl : N := 10%N.          (* line feed *)
Definition bs : N := 92%N.          (* the escape marker, a backslash *)

Definition ch (s : string) : N :=
  match s with
  | String a _ => N_of_ascii a
  | EmptyString => 0%N
  end.

(** [c in s] for a one-character [c]. *)
Definition elem (c : N) (s : list N) : bool := existsb (N.eqb c) s.

(** [s.startswith(p)] *)
Fixpoint starts_with (p s : list N) : bool :=
  match p, s with
  | [], _ => true
  | a :: p', b :: s' => N.eqb a b && starts_with p' s'
  | _ :: _, [] => false
  end.

(** Decimal rendering of a non-negative integer, as an f-string does. *)
Fixpoint digits_of_uint (u : Decimal.uint) : list N :=
  match u with
  | Decimal.Nil => []
  | Decimal.D0 u => 48%N :: digits_of_uint u
  | Decimal.D1 u => 49%N :: digits_of_uint u
  | Decimal.D2 u => 50%N :: digits_of_uint u
  | Decimal.D3 u => 51%N :: digits_of_uint u
  | Decimal.D4 u => 52%N :: digits_of_uint u
  | Decimal.D5 u => 53%N :: digits_of_uint u
  | Decimal.D6 u => 54%N :: digits_of_uint u
  | Decimal.D7 u => 55%N :: digits_of_uint u
  | Decimal.D8 u => 56%N :: digits_of_uint u
  | Decimal.D9 u => 57%N :: digits_of_uint u
  end.

Definition str_of_nat (n : nat) : list N := digits_of_uint (Nat.to_uint n).

(** [s.replace(old, new)] for a non-empty [old]: every non-overlapping
    occurrence, leftmost first.  [skip] counts the characters of the
    current occurrence still to be passed over. *)
Fixpoint str_replace (old new s : list N) (skip : nat) : list N :=
  match s with
  | [] => []
  | c :: r =>
      match skip with
      | S k => str_replace old new r k
      | O =>
          if starts_with old s
          then new ++ str_replace old new r (length old - 1)
          else c :: str_replace old new r 0
      end
  end.

(** ** A backtracking matcher for the patterns of the source

    A matcher takes the text at the current position and returns what it
    captured together with the text left after the match. *)

Module Re.

Definition matcher (A : Type) : Type := list N -> option (A * list N).

Definition done : matcher unit := fun s => Some (tt, s).

(** A literal character, then [k]. *)
Definition chr {A} (c : N) (k : matcher A) : matcher A :=
  fun s =>
    match s with
    | x :: r => if N.eqb x c then k r else None
    | [] => None
    end.

(** [X*] greedy: take as many as possible, give back one at a time while
    the continuation fails. *)
Fixpoint star_greedy {A} (p : N -> bool) (k : matcher A) (s : list N)
  : option ((list N * A) * list N) :=
  match s with
  | c :: r =>
      if p c then
        match star_greedy p k r with
        | Some ((run, a), rest) => Some ((c :: run, a), rest)
        | None =>
            match k s with
            | Some (a, rest) => Some (([], a), rest)
            | None => None
            end
        end
      else
        match k s with
        | Some (a, rest) => Some (([], a), rest)
        | None => None
        end
  | [] =>
      match k [] with
      | Some (a, rest) => Some (([], a), rest)
      | None => None
      end
  end.

(** [X+] greedy. *)
Definition plus_greedy {A} (p : N -> bool) (k : matcher A)
  : matcher (list N * A) :=
  fun s =>
    match s with
    | c :: r =>
        if p c then
          match star_greedy p k r with
          | Some ((run, a), rest) => Some ((c :: run, a), rest)
          | None => None
          end
        else None
    | [] => None
    end.

(** [X*?] lazy: try the continuation first, take one more on failure. *)
Fixpoint star_lazy {A} (p : N -> bool) (k : matcher A) (s : list N)
  : option ((list N * A) * list N) :=
  match k s with
  | Some (a, rest) => Some (([], a), rest)
  | None =>
      match s with
      | c :: r =>
          if p c then
            match star_lazy p k r with
            | Some ((run, a), rest) => Some ((c :: run, a), rest)
            | None => None
            end
          else None
      | [] => None
      end
  end.

(** One character of a class, captured. *)
Definition one_of (p : N -> bool) : matcher N :=
  fun s =>
    match s with
    | c :: r => if p c then Some (c, r) else None
    | [] => None
    end.

(** What a match object gives the callbacks: [group(0)] and [group(1)]. *)
Record hit := Hit { group0 : list N; group1 : list N }.

Inductive piece :=
| Keep (c : N)          (* a character no match covers, copied *)
| Found (h : hit).      (* a match *)

(** Leftmost non-overlapping matches, as [re.sub] finds them.  None of
    the patterns here matches the empty string.  [m] returns [group(1)]
    and the text after the match; [skip] counts the characters of the
    current match still to be passed over. *)
Fixpoint scan (m : matcher (list N)) (s : list N) (skip : nat) : list piece :=
  match s with
  | [] => []
  | c :: r =>
      match skip with
      | S k => scan m r k
      | O =>
          match m s with
          | Some (g1, rest) =>
              let n := length s - length rest in
              Found (Hit (take n s) g1) :: scan m r (n - 1)
          | None => Keep c :: scan m r 0
          end
      end
  end.

(** [re.sub(pattern, callback, text)] with a callback that also updates
    a variable of its enclosing scope, here the state [St]. *)
Fixpoint sub_pieces {St} (f : St -> hit -> St * list N) (st : St)
    (ps : list piece) : St * list N :=
  match ps with
  | [] => (st, [])
  | Keep c :: r =>
      let res := sub_pieces f st r in (fst res, c :: snd res)
  | Found h :: r =>
      let st1 := f st h in
      let res := sub_pieces f (fst st1) r in
      (fst res, snd st1 ++ snd res)
  end.

Definition sub_with {St} (m : matcher (list N)) (f : St -> hit -> St * list N)
    (st : St) (text : list N) : St * list N :=
  sub_pieces f st (scan m text 0).

(** [re.sub(pattern, repl, text)] with a replacement computed from the
    match alone. *)
Definition sub (m : matcher (list N)) (repl : hit -> list N) (text : list N)
  : list N :=
  snd (sub_with m (fun (_ : unit) h => (tt, repl h)) tt text).

End Re.

(** ** The patterns *)

Definition is_not (c : N) : N -> bool := fun x => negb (N.eqb x c).

(** [\[([^\]]+)\]\(([^\)]+)\)] *)
Definition strict_link_re : Re.matcher (list N) :=
  fun s =>
    match
      Re.chr (ch "[") (Re.plus_greedy (is_not (ch "]"))
        (Re.chr (ch "]") (Re.chr (ch "(") (Re.plus_greedy (is_not (ch ")"))
          (Re.chr (ch ")") Re.done))))) s
    with
    | Some ((label, _), rest) => Some (label, rest)
    | None => None
    end.

(** [\*\*([^\*]+)\*\*] *)
Definition bold_re : Re.matcher (list N) :=
  fun s =>
    match
      Re.chr (ch "*") (Re.chr (ch "*") (Re.plus_greedy (is_not (ch "*"))
        (Re.chr (ch "*") (Re.chr (ch "*") Re.done)))) s
    with
    | Some ((content, _), rest) => Some (content, rest)
    | None => None
    end.

(** [`([^`]+)`] *)
Definition code_re : Re.matcher (list N) :=
  fun s =>
    match
      Re.chr (ch "`") (Re.plus_greedy (is_not (ch "`"))
        (Re.chr (ch "`") Re.done)) s
    with
    | Some ((content, _), rest) => Some (content, rest)
    | None => None
    end.

(** [\[(.*?)\]\((.*?)\)], where the dot matches anything but a line feed.
    [escape_markdown_v2] uses it without the groups. *)
Definition lazy_link_re : Re.matcher (list N) :=
  fun s =>
    match
      Re.chr (ch "[") (Re.star_lazy (is_not nl)
        (Re.chr (ch "]") (Re.chr (ch "(") (Re.star_lazy (is_not nl)
          (Re.chr (ch ")") Re.done))))) s
    with
    | Some ((label, _), rest) => Some (label, rest)
    | None => None
    end.

(** A character class as a pattern; [group(1)] is the character. *)
Definition class_re (cls : list N) : Re.matcher (list N) :=
  fun s =>
    match Re.one_of (fun c => elem c cls) s with
    | Some (c, rest) => Some ([c], rest)
    | None => None
    end.

(** ** The Dialect Converter: [convert_ai_markdown_to_telegram] *)

(** The reserved characters of the character loop. *)
Definition escape_chars : list N := lit "_*[]()~`>#+-=|{}.!".

(** Step 4, the character loop. *)
Definition escape_pass (text : list N) : list N :=
  fold_left
    (fun escaped_text c =>
       if elem c escape_chars
       then escaped_text ++ [bs; c]
       else escaped_text ++ [c])
    text [].

Definition LINK_PH : list N := lit "LINK_PH_".
Definition BOLD_PH : list N := lit "BOLD_PH_".
Definition CODE_PH : list N := lit "CODE_PH_".

(** [save_link] and [save_code]: append [group(0)] to the list and return
    the placeholder numbered with the length the list had. *)
Definition save_whole (prefix : list N) (saved : list (list N)) (h : Re.hit)
  : list (list N) * list N :=
  (saved ++ [Re.group0 h], prefix ++ str_of_nat (length saved)).

(** [save_bold]: the content between single markers. *)
Definition save_bold (bolds : list (list N)) (h : Re.hit)
  : list (list N) * list N :=
  (bolds ++ [ch "*" :: Re.group1 h ++ [ch "*"]],
   BOLD_PH ++ str_of_nat (length bolds)).

(** [for i, x in enumerate(saved): text = text.replace(f"{prefix}{i}", x)] *)
Definition restore (prefix : list N) (saved : list (list N)) (text : list N)
  : list N :=
  fold_left
    (fun t ix => str_replace (prefix ++ str_of_nat (fst ix)) (snd ix) t 0)
    (combine (seq 0 (length saved)) saved) text.

(** The text after the three extraction passes, with the saved spans. *)
Definition protect (text : list N)
  : list N * (list (list N) * list (list N) * list (list N)) :=
  let r1 := Re.sub_with strict_link_re (save_whole LINK_PH) [] text in
  let r2 := Re.sub_with bold_re save_bold [] (snd r1) in
  let r3 := Re.sub_with code_re (save_whole CODE_PH) [] (snd r2) in
  (snd r3, (fst r1, fst r2, fst r3)).

Definition convert_ai_markdown_to_telegram (text : list N) : list N :=
  match text with
  | [] => []
  | _ =>
      let p := protect text in
      let '(links, bolds, codes) := snd p in
      let text := escape_pass (fst p) in
      let text := restore CODE_PH codes text in
      let text := restore BOLD_PH bolds text in
      let text := restore LINK_PH links text in
      text
  end.


(** ** The Escaper: [escape_markdown_v2]

    [uuid4_hex i] is the value of the [i]-th [uuid.uuid4().hex] drawn
    during the call. *)

(** Its reserved characters: the backslash first, then the same set. *)
Definition escape_chars_v2 : list N := bs :: lit "_*[]()~`>#+-=|{}.!".

Definition link_replacer (uuid4_hex : nat -> list N)
    (links : list (list N * list N)) (h : Re.hit)
  : list (list N * list N) * list N :=
  let placeholder := lit "__LINK_" ++ uuid4_hex (length links) ++ lit "__" in
  (links ++ [(placeholder, Re.group0 h)], placeholder).

Definition escape_markdown_v2 (uuid4_hex : nat -> list N) (text : list N)
  : list N :=
  match text with
  | [] => []
  | _ =>
      let r := Re.sub_with lazy_link_re (link_replacer uuid4_hex) [] text in
      let text_without_links := snd r in
      let escaped_text :=
        Re.sub (class_re escape_chars_v2) (fun h => bs :: Re.group1 h)
          text_without_links in
      fold_left (fun t pl => str_replace (fst pl) (snd pl) t 0) (fst r)
        escaped_text
  end.

(** ** The Chunker: [split_message_markdown] *)

Definition TELEGRAM_MAX_MESSAGE_LENGTH : Z := 4096%Z.

Definition len (s : list N) : Z := Z.of_nat (length s).

(** [s.split(sep)] for a non-empty [sep]; [cur] is the piece being read. *)
Fixpoint split_on (sep s cur : list N) (skip : nat) : list (list N) :=
  match s with
  | [] => [cur]
  | c :: r =>
      match skip with
      | S k => split_on sep r cur k
      | O =>
          if starts_with sep s
          then cur :: split_on sep r [] (length sep - 1)
          else split_on sep r (cur ++ [c]) 0
      end
  end.

Definition is_empty (s : list N) : bool :=
  match s with [] => true | _ => false end.

(** The loop state: the finished chunks and [current_chunk]. *)
Definition pack_line (max_length : Z) (st : list (list N) * list N)
    (line : list N) : list (list N) * list N :=
  let chunks := fst st in
  let current_chunk := snd st in
  if (len current_chunk + len line + 1 <=? max_length)%Z then
    (chunks,
     (if is_empty current_chunk then current_chunk else current_chunk ++ [nl])
       ++ line)
  else
    ((if is_empty current_chunk then chunks else chunks ++ [current_chunk]),
     line).

Definition pack_paragraph (max_length : Z) (st : list (list N) * list N)
    (paragraph : list N) : list (list N) * list N :=
  let chunks := fst st in
  let current_chunk := snd st in
  if (len current_chunk + len paragraph + 2 <=? max_length)%Z then
    (chunks,
     (if is_empty current_chunk then current_chunk
      else current_chunk ++ [nl; nl]) ++ paragraph)
  else if is_empty current_chunk then
    fold_left (pack_line max_length) (split_on [nl] paragraph [] 0)
      (chunks, current_chunk)
  else (chunks ++ [current_chunk], paragraph).

(** The chunks before the part indicators are added. *)
Definition pack_chunks (text : list N) (max_length : Z) : list (list N) :=
  let st :=
    fold_left (pack_paragraph max_length) (split_on [nl; nl] text [] 0)
      ([], []) in
  if is_empty (snd st) then fst st else fst st ++ [snd st].

(** ['часть'] *)
Definition PART_WORD : list N := [1095; 1072; 1089; 1090; 1100]%N.

(** The text appended to chunk [i] of [n]. *)
Definition part_indicator (uuid4_hex : nat -> list N) (i n : nat) : list N :=
  [nl; nl; ch "_"]
    ++ escape_markdown_v2 uuid4_hex
         (lit "(" ++ PART_WORD ++ lit " " ++ str_of_nat i ++ lit "/"
            ++ str_of_nat n ++ lit ")")
    ++ [ch "_"].

(** [for i, chunk in enumerate(chunks, 1): chunks[i-1] = ...] *)
Definition add_indicators (uuid4_hex : nat -> list N)
    (chunks : list (list N)) : list (list N) :=
  fold_left
    (fun (chunks : list (list N)) i =>
       match chunks !! (i - 1) with
       | Some chunk =>
           <[i - 1 := chunk ++ part_indicator uuid4_hex i (length chunks)]>
             chunks
       | None => chunks
       end)
    (seq 1 (length chunks)) chunks.

Definition split_message_markdown (uuid4_hex : nat -> list N)
    (text : list N) (max_length : Z) : list (list N) :=
  if (len text <=? max_length)%Z then [text]
  else
    let chunks := pack_chunks text max_length in
    if 1 <? length chunks then add_indicators uuid4_hex chunks else chunks.

(** ** The Fallback Summarizer *)

(** [str.isspace], which is also what [\s] matches in a [str] pattern. *)
Definition is_space (c : N) : bool :=
  ((9 <=? c) && (c <=? 13) || (28 <=? c) && (c <=? 32)
   || (c =? 133) || (c =? 160) || (c =? 5760)
   || (8192 <=? c) && (c <=? 8202)
   || (c =? 8232) || (c =? 8233) || (c =? 8239) || (c =? 8287)
   || (c =? 12288))%N.

Fixpoint lstrip (s : list N) : list N :=
  match s with
  | c :: r => if is_space c then lstrip r else s
  | [] => []
  end.

Definition rstrip (s : list N) : list N := rev (lstrip (rev s)).

(** [s.strip()] *)
Definition strip (s : list N) : list N := rstrip (lstrip s).

(** The marker characters of the class [[*_`~#>]]. *)
Definition markup_markers : list N := lit "*_`~#>".

(** [\n\s*\n+]; the pattern has no group. *)
Definition blank_lines_re : Re.matcher (list N) :=
  fun s =>
    match
      Re.chr nl (Re.star_greedy is_space (Re.plus_greedy (N.eqb nl) Re.done)) s
    with
    | Some (_, rest) => Some ([], rest)
    | None => None
    end.

(** The text handed to the Escaper. *)
Definition fallback_plain_text (release_notes : list N) : list N :=
  let plain_text := Re.sub lazy_link_re Re.group1 release_notes in
  let plain_text := Re.sub (class_re markup_markers) (fun _ => []) plain_text in
  let plain_text := strip (Re.sub blank_lines_re (fun _ => [nl]) plain_text) in
  if 500 <? length plain_text then take 497 plain_text ++ lit "..."
  else plain_text.

(** ** The network and the effects of one repository task

    Each repository task talks to the release source, the summary source
    and the notification sink.  What those answer is not decided by the
    program: a [world] fixes the answer to every call, the [k]-th answer
    for the [k]-th call of a kind. *)

Record release := Release {
  rel_id : Z;
  tag_name : list N;
  html_url : list N;
  published_at : option (list N);      (* [None]: the key is absent *)
  prerelease : bool;                   (* absent counts as [False] *)
  body : option (list N)               (* [None]: null or absent *)
}.

(** What [response.json()] and the indexing of the required keys give:
    a release object, or an exception with its text. *)
Inductive json_body :=
| JRelease (r : release)
| JMalformed (err : list N).

Record response := Response { status_code : Z; json : json_body }.

Inductive exn :=
| HTTPStatusError (r : response)     (* httpx, from [raise_for_status] *)
| APIStatusError (status : Z)        (* the OpenAI client, on an error status *)
| OtherError (msg : list N).         (* anything else, with [str(e)] *)

Inductive http_outcome :=
| Responded (r : response)
| TransportFailed (msg : list N).

Inductive ai_outcome :=
| Completed (content : list N)
| AIFailed (e : exn).

Record world := World {
  w_get : nat -> http_outcome;       (* GET releases/latest *)
  w_head : nat -> http_outcome;      (* HEAD on the repository *)
  w_post : nat -> http_outcome;      (* POST sendMessage *)
  w_ai : nat -> ai_outcome;          (* chat.completions.create *)
  w_uuid : nat -> list N;            (* uuid.uuid4().hex *)
  w_now : list N;                    (* datetime.now().strftime(...) *)
  SUMMARY_LANGUAGE : list N          (* the configured language *)
}.

Inductive event :=
| EvGet
| EvHead
| EvPost (text : list N)
| EvSummary (language source_text : list N).

(** The kinds of calls, and how many of a kind a trace holds. *)
Definition is_get (e : event) : bool := match e with EvGet => true | _ => false end.
Definition is_head (e : event) : bool := match e with EvHead => true | _ => false end.
Definition is_post (e : event) : bool := match e with EvPost _ => true | _ => false end.
Definition is_summary (e : event) : bool :=
  match e with EvSummary _ _ => true | _ => false end.

Definition count_if (p : event -> bool) (tr : list event) : nat :=
  length (List.filter p tr).

(** The texts handed to the notification sink, in order. *)
Fixpoint posts (tr : list event) : list (list N) :=
  match tr with
  | [] => []
  | EvPost t :: r => t :: posts r
  | _ :: r => posts r
  end.

(** The calls made so far, and how many uuids were drawn. *)
Record run_state := RunState { trace : list event; drawn : nat }.

Definition start : run_state := RunState [] 0.

Inductive outcome (A : Type) :=
| Ok (a : A)
| Raise (e : exn).
Arguments Ok {A} a.
Arguments Raise {A} e.

(** Computations that make calls and may raise. *)
Definition M (A : Type) : Type := run_state -> outcome A * run_state.

Definition ret {A} (a : A) : M A := fun st => (Ok a, st).

Definition bind {A B} (m : M A) (f : A -> M B) : M B :=
  fun st =>
    match m st with
    | (Ok a, st') => f a st'
    | (Raise e, st') => (Raise e, st')
    end.

Definition raise {A} (e : exn) : M A := fun st => (Raise e, st).

(** [try: m  except Exception as e: h e] *)
Definition catch {A} (m : M A) (h : exn -> M A) : M A :=
  fun st =>
    match m st with
    | (Ok a, st') => (Ok a, st')
    | (Raise e, st') => h e st'
    end.

Notation "x <- m ;; k" := (bind m (fun x => k))
  (at level 100, m at next level, right associativity).
Notation "m ;;; k" := (bind m (fun _ => k))
  (at level 100, right associativity).

Definition http_get (w : world) : M http_outcome :=
  fun st => (Ok (w_get w (count_if is_get (trace st))),
             RunState (trace st ++ [EvGet]) (drawn st)).

Definition http_head (w : world) : M http_outcome :=
  fun st => (Ok (w_head w (count_if is_head (trace st))),
             RunState (trace st ++ [EvHead]) (drawn st)).

Definition http_post (w : world) (text : list N) : M http_outcome :=
  fun st => (Ok (w_post w (count_if is_post (trace st))),
             RunState (trace st ++ [EvPost text]) (drawn st)).

Definition completions_create (w : world) (language source_text : list N)
  : M ai_outcome :=
  fun st => (Ok (w_ai w (count_if is_summary (trace st))),
             RunState (trace st ++ [EvSummary language source_text]) (drawn st)).

(** The uuids the next call of [escape_markdown_v2] would draw. *)
Definition uuid_supply (w : world) (st : run_state) : nat -> list N :=
  fun i => w_uuid w (drawn st + i).

Definition is_found (p : Re.piece) : bool :=
  match p with Re.Found _ => true | Re.Keep _ => false end.

(** How many links [escape_markdown_v2] replaces in [text], one uuid each. *)
Definition link_count (text : list N) : nat :=
  match text with
  | [] => 0
  | _ => length (List.filter is_found (Re.scan lazy_link_re text 0))
  end.

Definition escape_markdown_v2_m (w : world) (text : list N) : M (list N) :=
  fun st => (Ok (escape_markdown_v2 (uuid_supply w st) text),
             RunState (trace st) (drawn st + link_count text)).

(** [response.raise_for_status()] of httpx: an exception unless the
    status is 2xx. *)
Definition is_success (status : Z) : bool :=
  ((200 <=? status) && (status <? 300))%Z.

Definition raise_for_status (r : response) : M unit :=
  if is_success (status_code r) then ret tt else raise (HTTPStatusError r).

(** tenacity with [stop_after_attempt(n + 1)], retrying on every
    exception, [reraise=True]: the last exception is the one raised. *)
Fixpoint retrying {A} (retries : nat) (attempt : M A) : M A :=
  match retries with
  | O => attempt
  | S k => catch attempt (fun _ => retrying k attempt)
  end.

(** ** The summary call *)

(** ['Нет описания.'] *)
Definition NO_DESCRIPTION : list N :=
  [1053; 1077; 1090; 32; 1086; 1087; 1080; 1089; 1072; 1085; 1080; 1103; 46]%N.

(** A blank line and ['... (текст обрезан)'] *)
Definition TRUNCATED_NOTE : list N :=
  [nl; nl] ++ [46; 46; 46; 32; 40; 1090; 1077; 1082; 1089; 1090; 32; 1086; 1073;
               1088; 1077; 1079; 1072; 1085; 41]%N.

(** ['Пустой ответ от OpenRouter'] *)
Definition EMPTY_ANSWER : list N :=
  [1055; 1091; 1089; 1090; 1086; 1081; 32; 1086; 1090; 1074; 1077; 1090; 32;
   1086; 1090; 32; 79; 112; 101; 110; 82; 111; 117; 116; 101; 114]%N.

Definition str_eqb (a b : list N) : bool := bool_decide (a = b).

(** The body of [get_openrouter_summary_with_retry], one attempt. *)
Definition summary_attempt (w : world) (release_notes language : list N)
  : M (list N) :=
  if is_empty release_notes || str_eqb release_notes NO_DESCRIPTION
  then ret NO_DESCRIPTION
  else
    let max_length := 4000 in
    let release_notes :=
      if max_length <? length release_notes
      then take max_length release_notes ++ TRUNCATED_NOTE
      else release_notes in
    r <- completions_create w language release_notes ;;
    match r with
    | AIFailed e => raise e
    | Completed content =>
        let summary := strip content in
        if negb (is_empty summary) && (10 <? length summary)
        then ret (convert_ai_markdown_to_telegram summary)
        else raise (OtherError EMPTY_ANSWER)
    end.

(** The decorator: [stop_after_attempt(3)], retry on [Exception]. *)
Definition get_openrouter_summary_with_retry (w : world)
    (release_notes language : list N) : M (list N) :=
  retrying 2 (summary_attempt w release_notes language).

Definition get_openrouter_summary (w : world) (release_notes language : list N)
  : M (list N) :=
  catch (get_openrouter_summary_with_retry w release_notes language)
    (fun _ => escape_markdown_v2_m w (fallback_plain_text release_notes)).

(** ** Sending *)

(** The loop of [send_telegram_message]: one POST per chunk, in order;
    the first failure is raised and ends the loop. *)
Fixpoint send_chunks (w : world) (message_chunks : list (list N)) : M unit :=
  match message_chunks with
  | [] => ret tt
  | chunk :: rest =>
      r <- http_post w chunk ;;
      match r with
      | TransportFailed msg => raise (OtherError msg)
      | Responded resp => raise_for_status resp ;;; send_chunks w rest
      end
  end.

Definition send_telegram_message (w : world) (message : list N) : M unit :=
  fun st =>
    send_chunks w
      (split_message_markdown (uuid_supply w st) message
         TELEGRAM_MAX_MESSAGE_LENGTH) st.

(** ['⚠️ *Ошибка мониторинга GitHub*'] and ['Время: '] *)
Definition ERR_TITLE : list N :=
  [9888; 65039; 32; 42; 1054; 1096; 1080; 1073; 1082; 1072; 32; 1084; 1086;
   1085; 1080; 1090; 1086; 1088; 1080; 1085; 1075; 1072; 32; 71; 105; 116; 72;
   117; 98; 42]%N.

Definition ERR_TIME : list N := [1042; 1088; 1077; 1084; 1103; 58; 32]%N.

Definition error_message (escaped_msg escaped_time : list N) : list N :=
  ERR_TITLE ++ [nl; nl] ++ [ch "`"] ++ escaped_msg ++ [ch "`"] ++ [nl; nl]
    ++ ERR_TIME ++ escaped_time.

(** Never raises: a failure to send is logged and dropped. *)
Definition send_error_notification (w : world) (error_msg : list N) : M unit :=
  catch
    (m <- escape_markdown_v2_m w error_msg ;;
     t <- escape_markdown_v2_m w (w_now w) ;;
     send_telegram_message w (error_message m t))
    (fun _ => ret tt).

(** ** The repository task: [check_repo_for_updates] *)

(** The literals of the announcement: ['неизвестно'], the pre-release
    tag, the three header labels with their emoji, the rule of 18 box
    characters and the link label. *)
Definition UNKNOWN_DATE : list N :=
  [1085; 1077; 1080; 1079; 1074; 1077; 1089; 1090; 1085; 1086]%N.

Definition PRE_RELEASE_TAG : list N :=
  [129514; 32; 80; 82; 69; 92; 45; 82; 69; 76; 69; 65; 83; 69]%N.

Definition HDR_NEW_RELEASE : list N :=
  [127881; 32; 42; 78; 101; 119; 32; 82; 101; 108; 101; 97; 115; 101; 58; 32]%N.

Definition HDR_VERSION : list N :=
  [128230; 32; 86; 101; 114; 115; 105; 111; 110; 58; 32; 96]%N.

Definition HDR_DATE : list N := [128197; 32; 68; 97; 116; 101; 58; 32]%N.

Definition RULE : list N := repeat 9473%N 18.

Definition FULL_CHANGELOG : list N :=
  [91; 128214; 32; 70; 117; 108; 108; 32; 99; 104; 97; 110; 103; 101; 108; 111;
   103; 93; 40]%N.

(** ['Репозиторий '], [') не найден'] and ['Ошибка при проверке '] *)
Definition REPO_WORD : list N :=
  [1056; 1077; 1087; 1086; 1079; 1080; 1090; 1086; 1088; 1080; 1081; 32]%N.

Definition NOT_FOUND : list N :=
  [41; 32; 1085; 1077; 32; 1085; 1072; 1081; 1076; 1077; 1085]%N.

Definition CHECK_FAILED : list N :=
  [1054; 1096; 1080; 1073; 1082; 1072; 32; 1087; 1088; 1080; 32; 1087; 1088;
   1086; 1074; 1077; 1088; 1082; 1077; 32]%N.

(** The announcement, from the escaped header fields and the summary. *)
Definition message_head (e_name e_tag prerelease_tag e_date : list N) : list N :=
  HDR_NEW_RELEASE ++ e_name ++ lit "*" ++ [nl]
    ++ HDR_VERSION ++ e_tag ++ lit "` " ++ prerelease_tag ++ [nl]
    ++ HDR_DATE ++ e_date ++ [nl]
    ++ RULE ++ [nl; nl].

Definition message_tail (url : list N) : list N :=
  [nl; nl] ++ RULE ++ [nl] ++ FULL_CHANGELOG ++ url ++ lit ")".

Definition release_message (e_name e_tag prerelease_tag e_date
    openrouter_summary url : list N) : list N :=
  message_head e_name e_tag prerelease_tag e_date
    ++ openrouter_summary ++ message_tail url.

(** The three attempts at the release, then what the first [except]
    clauses make of the exception that ends them. *)
Definition fetch_attempt (w : world) : M response :=
  r <- http_get w ;;
  match r with
  | TransportFailed msg => raise (OtherError msg)
  | Responded resp =>
      if (500 <=? status_code resp)%Z
      then raise_for_status resp ;;; ret resp
      else ret resp
  end.

Definition fetch_release (w : world) : M response :=
  catch (retrying 2 (fetch_attempt w))
    (fun e =>
       match e with
       | HTTPStatusError resp =>
           if (status_code resp <? 500)%Z then ret resp else raise e
       | _ => raise e
       end).

(** [body or 'Нет описания.'] *)
Definition body_or_default (b : option (list N)) : list N :=
  match b with
  | Some (c :: r) => c :: r
  | _ => NO_DESCRIPTION
  end.

(** The [try] block after the attempts: [raise_for_status], then the
    comparison with the id last seen, the summary, the announcement. *)
Definition after_fetch (w : world) (repo_name : list N)
    (last_seen_id : option Z) (response : response) : M (option Z) :=
  raise_for_status response ;;;
  match json response with
  | JMalformed err => raise (OtherError err)
  | JRelease latest_release =>
      let release_id := rel_id latest_release in
      if bool_decide (Some release_id = last_seen_id) then ret None
      else
        let published_at :=
          match published_at latest_release with
          | Some d => d
          | None => UNKNOWN_DATE
          end in
        let original_body := body_or_default (body latest_release) in
        openrouter_summary <-
          get_openrouter_summary w original_body (SUMMARY_LANGUAGE w) ;;
        let prerelease_tag :=
          if prerelease latest_release then PRE_RELEASE_TAG else [] in
        e_name <- escape_markdown_v2_m w repo_name ;;
        e_tag <- escape_markdown_v2_m w (tag_name latest_release) ;;
        e_date <- escape_markdown_v2_m w (take 10 published_at) ;;
        send_telegram_message w
          (release_message e_name e_tag prerelease_tag e_date
             openrouter_summary (html_url latest_release)) ;;;
        ret (Some release_id)
  end.

(** The [try] block of [check_repo_for_updates]. *)
Definition check_release (w : world) (repo_name : list N)
    (last_seen_id : option Z) : M (option Z) :=
  response <- fetch_release w ;;
  after_fetch w repo_name last_seen_id response.

(** The secondary existence check of the 404 branch. *)
Definition repo_exists (w : world) : M bool :=
  catch
    (r <- http_head w ;;
     match r with
     | TransportFailed msg => raise (OtherError msg)
     | Responded repo_resp => ret (status_code repo_resp =? 200)%Z
     end)
    (fun _ => ret false).

Definition not_found_text (repo_name repo_path : list N) : list N :=
  REPO_WORD ++ repo_name ++ lit " (" ++ repo_path ++ NOT_FOUND.

Definition check_failed_text (repo_name err : list N) : list N :=
  CHECK_FAILED ++ repo_name ++ lit ": " ++ err.

Definition exn_text (e : exn) : list N :=
  match e with
  | OtherError msg => msg
  | _ => []
  end.

(** The outer [except] clauses: a status error first, anything else
    after it.  Both end in the final [return None]. *)
Definition on_exception (w : world) (repo_name repo_path : list N) (e : exn)
  : M (option Z) :=
  match e with
  | HTTPStatusError resp =>
      if (status_code resp =? 404)%Z then
        found <- repo_exists w ;;
        if found then ret None
        else
          send_error_notification w (not_found_text repo_name repo_path) ;;;
          ret None
      else ret None
  | _ =>
      send_error_notification w (check_failed_text repo_name (exn_text e)) ;;;
      ret None
  end.

Definition check_repo_for_updates (w : world) (repo_name repo_path : list N)
    (last_seen_id : option Z) : M (option Z) :=
  catch (check_release w repo_name last_seen_id)
    (on_exception w repo_name repo_path).

(** ** The coordinator: [main] *)

(** What [asyncio.gather(..., return_exceptions=True)] holds for a task. *)
Inductive task_result :=
| Raised (e : exn)
| Returned (r : option Z).

(** [elif result:] the truth value of an [Optional[int]]. *)
Definition truthy (r : option Z) : bool :=
  match r with
  | Some z => negb (z =? 0)%Z
  | None => false
  end.

Definition commit (new_state : gmap (list N) Z) (repo_name : list N)
    (result : task_result) : gmap (list N) Z :=
  match result with
  | Raised _ => new_state
  | Returned r =>
      match r with
      | Some release_id =>
          if truthy r then <[repo_name := release_id]> new_state else new_state
      | None => new_state
      end
  end.

(** One task, run from a fresh state against its own world.  The tasks
    share no data, and [main] reads their results only after all have
    ended, so each is run on its own. *)
Definition run_task (w : world) (repo_name repo_path : list N)
    (last_id : option Z) : task_result * list event :=
  match check_repo_for_updates w repo_name repo_path last_id start with
  | (Ok r, st) => (Returned r, trace st)
  | (Raise e, st) => (Raised e, trace st)
  end.

(** [main]: the state to persist and, per repository, the calls made.
    [net] gives each task its world.  With no repository to monitor,
    nothing is saved and the persisted state stays as it was. *)
Definition main (repos_to_monitor : list (list N * list N))
    (net : list N -> world) (current_state : gmap (list N) Z)
  : gmap (list N) Z * list (list N * list event) :=
  match repos_to_monitor with
  | [] => (current_state, [])
  | _ =>
      let tasks :=
        map (fun repo =>
               (fst repo,
                run_task (net (fst repo)) (fst repo) (snd repo)
                  (current_state !! fst repo)))
          repos_to_monitor in
      (fold_left (fun new_state t => commit new_state (fst t) (fst (snd t)))
         tasks current_state,
       map (fun t => (fst t, snd (snd t))) tasks)
  end.

(** * The vocabulary of the properties *)

(** ** Escaping *)

(** Decimal digits only. *)
Definition is_digit (c : N) : Prop := (48 <= c <= 57)%N.

(** [escaped_as R s t]: [t] is [s] with one marker put in front of
    every character of [R], and every other character copied. *)
Inductive escaped_as (R : N -> bool) : list N -> list N -> Prop :=
| escaped_nil : escaped_as R [] []
| escaped_reserved c s t :
    R c = true -> escaped_as R s t -> escaped_as R (c :: s) (bs :: c :: t)
| escaped_other c s t :
    R c = false -> escaped_as R s t -> escaped_as R (c :: s) (c :: t).

(** Dropping the markers again. *)
Fixpoint strip_markers (R : N -> bool) (s : list N) : list N :=
  match s with
  | [] => []
  | c :: t =>
      match t with
      | d :: r =>
          if N.eqb c bs && R d then d :: strip_markers R r
          else c :: strip_markers R t
      | [] => [c]
      end
  end.

(** How often [c] occurs in [s]. *)
Definition occurrences (c : N) (s : list N) : nat := count_occ N.eq_dec s c.

(** How many characters of [s] are in [R]. *)
Definition reserved_count (R : N -> bool) (s : list N) : nat :=
  length (List.filter R s).

(** A character, with its marker when it is in [R]. *)
Definition escape_one (R : N -> bool) (c : N) : list N :=
  if R c then [bs; c] else [c].

(** The reserved characters of the character loop, and those of
    [escape_markdown_v2]. *)
Definition reserved (c : N) : bool := elem c escape_chars.
Definition reserved_v2 (c : N) : bool := elem c escape_chars_v2.

(** The placeholders carry a letter directly before an underscore. *)
Definition placeholder_prefix (prefix : list N) : Prop :=
  exists p x q, prefix = p ++ [x; ch "_"] ++ q /\ x <> bs.

(** What both passes are meant to do for a reserved set [R]: one marker
    in front of every reserved character and nothing else changed, so
    that dropping the markers gives the input back, every character
    other than the marker occurs as often as before, and there is
    exactly one marker more per reserved character. *)
Definition same_payload (s t : list N) : Prop :=
  forall c, c <> bs -> occurrences c t = occurrences c s.

Definition exactly_escaped (R : N -> bool) (s t : list N) : Prop :=
  escaped_as R s t
  /\ strip_markers R t = s
  /\ same_payload s t
  /\ occurrences bs t = occurrences bs s + reserved_count R s
  /\ length t = length s + reserved_count R s.

(** ** Chunks *)

(** A text up to its line feeds. *)
Definition content (s : list N) : list N :=
  List.filter (fun c => negb (N.eqb c nl)) s.

(** The content held by a loop state. *)
Definition held (st : list (list N) * list N) : list N :=
  content (concat (fst st) ++ snd st).

(** The indicator, spelled out: a blank line, then the escaped text
    between underscores. *)
Definition indicator_text (i n : nat) : list N :=
  [nl; nl] ++ [ch "_"] ++ [bs; ch "("] ++ PART_WORD ++ lit " "
    ++ str_of_nat i ++ lit "/" ++ str_of_nat n ++ [bs; ch ")"] ++ [ch "_"].

(** One round of the loop that appends the indicators. *)
Definition indicator_step (uuid4_hex : nat -> list N)
    (chunks : list (list N)) (i : nat) : list (list N) :=
  match chunks !! (i - 1) with
  | Some chunk =>
      <[i - 1 := chunk ++ part_indicator uuid4_hex i (length chunks)]> chunks
  | None => chunks
  end.

(** [result] is [base] with the indicator of its position and of the
    total appended to every chunk. *)
Definition carries_indicators (result base : list (list N)) : Prop :=
  length result = length base
  /\ forall i chunk,
       base !! i = Some chunk ->
       result !! i = Some (chunk ++ indicator_text (S i) (length result)).

(** Indicators when there is more than one chunk, and only then. *)
Definition indicated_iff_many (result base : list (list N)) : Prop :=
  if 1 <? length base then carries_indicators result base else result = base.

(** The lines of a text. *)
Definition lines (text : list N) : list (list N) := split_on [nl] text [] 0.

(** ** Attempts *)

(** An attempt fails, and is retried, on a transport failure and on a
    status of 500 or more. *)
Definition retryable (o : http_outcome) : bool :=
  match o with
  | TransportFailed _ => true
  | Responded r => (500 <=? status_code r)%Z
  end.

(** The attempts made, from whether the first and the second failed. *)
Definition attempts_table (first_failed second_failed : bool) : nat :=
  if first_failed then if second_failed then 3 else 2 else 1.

(** The GETs of the release-fetch call. *)
Definition fetch_attempts (w : world) : nat :=
  attempts_table (retryable (w_get w 0)) (retryable (w_get w 1)).

(** What one attempt makes of an answer. *)
Definition attempt_outcome (o : http_outcome) : outcome response :=
  match o with
  | TransportFailed msg => Raise (OtherError msg)
  | Responded r =>
      if (500 <=? status_code r)%Z then Raise (HTTPStatusError r) else Ok r
  end.

(** The early return: no description to summarise. *)
Definition skips_summary (release_notes : list N) : bool :=
  is_empty release_notes || str_eqb release_notes NO_DESCRIPTION.

(** The source text put into the prompt. *)
Definition prompt_source (release_notes : list N) : list N :=
  if 4000 <? length release_notes
  then take 4000 release_notes ++ TRUNCATED_NOTE
  else release_notes.

(** [summary and len(summary) > 10] *)
Definition long_enough (content : list N) : bool :=
  negb (is_empty (strip content)) && (10 <? length (strip content)).

(** An attempt at the summary fails, and is retried, on every exception
    of the client, whatever its status, and on an answer too short. *)
Definition summary_failed (o : ai_outcome) : bool :=
  match o with
  | AIFailed _ => true
  | Completed content => negb (long_enough content)
  end.

(** What one attempt makes of an answer of the summary source. *)
Definition summary_value (o : ai_outcome) : outcome (list N) :=
  match o with
  | AIFailed e => Raise e
  | Completed content =>
      if long_enough content
      then Ok (convert_ai_markdown_to_telegram (strip content))
      else Raise (OtherError EMPTY_ANSWER)
  end.

(** The attempts made when [n] calls of the summary source came before. *)
Definition summary_attempts (w : world) (n : nat) : nat :=
  attempts_table (summary_failed (w_ai w n)) (summary_failed (w_ai w (S n))).

(** The summary the task gets, when [n] calls came before and [d] uuids
    were drawn: the converted answer, or the fallback once the attempts
    are used up. *)
Definition summary_text (w : world) (n d : nat) (release_notes : list N)
  : list N :=
  if skips_summary release_notes then NO_DESCRIPTION
  else
    match summary_value (w_ai w (n + summary_attempts w n - 1)) with
    | Ok s => s
    | Raise _ =>
        escape_markdown_v2 (fun i => w_uuid w (d + i))
          (fallback_plain_text release_notes)
    end.

(** The uuids drawn for it, and the calls of the summary source made. *)
Definition summary_draws (w : world) (n : nat) (release_notes : list N) : nat :=
  if skips_summary release_notes then 0
  else
    match summary_value (w_ai w (n + summary_attempts w n - 1)) with
    | Ok _ => 0
    | Raise _ => link_count (fallback_plain_text release_notes)
    end.

Definition summary_calls (w : world) (n : nat) (release_notes : list N) : nat :=
  if skips_summary release_notes then 0 else summary_attempts w n.

(** ** What reaches the sink *)

(** The sink accepted a message; the exception raised when it did not. *)
Definition post_ok (o : http_outcome) : bool :=
  match o with
  | Responded r => is_success (status_code r)
  | TransportFailed _ => false
  end.

Definition post_exn (o : http_outcome) : exn :=
  match o with
  | Responded r => HTTPStatusError r
  | TransportFailed msg => OtherError msg
  end.

(** The POSTs made for [chunks] when [n] came before: one per chunk, up
    to and including the first that fails. *)
Fixpoint posts_made (w : world) (n : nat) (chunks : list (list N)) : nat :=
  match chunks with
  | [] => 0
  | _ :: rest =>
      if post_ok (w_post w n) then S (posts_made w (S n) rest) else 1
  end.

(** How the sending loop ends. *)
Fixpoint send_outcome (w : world) (n : nat) (chunks : list (list N))
  : outcome unit :=
  match chunks with
  | [] => Ok tt
  | _ :: rest =>
      if post_ok (w_post w n) then send_outcome w (S n) rest
      else Raise (post_exn (w_post w n))
  end.

(** The sink accepts every message. *)
Definition sink_accepts (w : world) : Prop := forall k, post_ok (w_post w k) = true.

(** The chunks of the operator notification for [error_msg], when [d]
    uuids were drawn before. *)
Definition notification_chunks (w : world) (d : nat) (error_msg : list N)
  : list (list N) :=
  let m := escape_markdown_v2 (fun i => w_uuid w (d + i)) error_msg in
  let d1 := d + link_count error_msg in
  let t := escape_markdown_v2 (fun i => w_uuid w (d1 + i)) (w_now w) in
  let d2 := d1 + link_count (w_now w) in
  split_message_markdown (fun i => w_uuid w (d2 + i)) (error_message m t)
    TELEGRAM_MAX_MESSAGE_LENGTH.

(** A computation that appends no event of the kind [p]. *)
Definition quiet {A} (p : event -> bool) (m : M A) : Prop :=
  forall st, exists evs,
    trace (snd (m st)) = trace st ++ evs /\ count_if p evs = 0.

(** ** Tasks and runs *)

(** A world whose summary source answers every call with HTTP 403. *)
Definition forbidden_world : world :=
  World (fun _ => TransportFailed []) (fun _ => TransportFailed [])
    (fun _ => TransportFailed []) (fun _ => AIFailed (APIStatusError 403))
    (fun _ => []) [] [].

(** The existence check succeeds on a 200 and on nothing else. *)
Definition head_found (o : http_outcome) : bool :=
  match o with
  | Responded r => (status_code r =? 200)%Z
  | TransportFailed _ => false
  end.

(** Every chunk is posted when the sink accepts every message. *)
Definition all_sent_if_accepted (w : world) (n : nat) (chunks : list (list N))
  : Prop :=
  sink_accepts w -> posts_made w n chunks = length chunks.

(** A response of which only the status matters. *)
Definition plain_response (status : Z) : response :=
  Response status (JMalformed []).

(** The release source answers 404, so does the repository itself, and
    the sink accepts. *)
Definition missing_repo_world : world :=
  World (fun _ => Responded (plain_response 404))
    (fun _ => Responded (plain_response 404))
    (fun _ => Responded (plain_response 200))
    (fun _ => AIFailed (OtherError []))
    (fun _ => []) (lit "2024-01-01 00:00:00") [].

(** The release source ends up answering with the release [rel]. *)
Definition fetches (w : world) (rel : release) : Prop :=
  exists r,
    attempt_outcome (w_get w (fetch_attempts w - 1)) = Ok r
    /\ is_success (status_code r) = true
    /\ json r = JRelease rel.

(** [latest_release.get('published_at', ...)] *)
Definition date_of (rel : release) : list N :=
  match published_at rel with
  | Some d => d
  | None => UNKNOWN_DATE
  end.

(** The announcement of [rel] with the summary [summary], when [d]
    uuids were drawn before the header fields are escaped. *)
Definition announcement (w : world) (d : nat) (repo_name : list N)
    (rel : release) (summary : list N) : list N :=
  let e_name := escape_markdown_v2 (fun i => w_uuid w (d + i)) repo_name in
  let d1 := d + link_count repo_name in
  let e_tag := escape_markdown_v2 (fun i => w_uuid w (d1 + i)) (tag_name rel) in
  let d2 := d1 + link_count (tag_name rel) in
  let e_date := escape_markdown_v2 (fun i => w_uuid w (d2 + i)) (take 10 (date_of rel)) in
  release_message e_name e_tag (if prerelease rel then PRE_RELEASE_TAG else [])
    e_date summary (html_url rel).

(** The uuids drawn while the header fields are escaped. *)
Definition announcement_draws (repo_name : list N) (rel : release) : nat :=
  link_count repo_name + link_count (tag_name rel)
    + link_count (take 10 (date_of rel)).

(** The chunks of the announcement a task posts for [rel]. *)
Definition announcement_chunks (w : world) (repo_name : list N) (rel : release)
  : list (list N) :=
  let notes := body_or_default (body rel) in
  let d := summary_draws w 0 notes in
  split_message_markdown
    (fun i => w_uuid w
       (d + link_count repo_name + link_count (tag_name rel)
        + link_count (take 10 (date_of rel)) + i))
    (announcement w d repo_name rel (summary_text w 0 0 notes))
    TELEGRAM_MAX_MESSAGE_LENGTH.

(** The calls of the summary source a task makes for [rel]. *)
Definition summary_events (w : world) (rel : release) : list event :=
  repeat
    (EvSummary (SUMMARY_LANGUAGE w) (prompt_source (body_or_default (body rel))))
    (summary_calls w 0 (body_or_default (body rel))).

(** Neither a GET nor a call of the summary source. *)
Definition fetch_or_summary (e : event) : bool := is_get e || is_summary e.

(** The tasks of [main], and the loop that commits their results. *)
Definition task_of (net : list N -> world) (current_state : gmap (list N) Z)
    (repo : list N * list N) : list N * (task_result * list event) :=
  (fst repo,
   run_task (net (fst repo)) (fst repo) (snd repo) (current_state !! fst repo)).

Definition commit_all (tasks : list (list N * (task_result * list event)))
    (new_state : gmap (list N) Z) : gmap (list N) Z :=
  fold_left (fun new_state t => commit new_state (fst t) (fst (snd t)))
    tasks new_state.

(** A release numbered 0. *)
Definition release_zero : release :=
  Release 0 (lit "v1.0") (lit "https://example.org/r")
    (Some (lit "2024-01-01T00:00:00Z")) false (Some (lit "Fixes.")).

(** The release source reports [release_zero], the summary source
    answers, the sink accepts. *)
Definition zero_world : world :=
  World (fun _ => Responded (Response 200 (JRelease release_zero)))
    (fun _ => Responded (plain_response 200))
    (fun _ => Responded (plain_response 200))
    (fun _ => Completed (lit "A summary of the fixes"))
    (fun _ => []) (lit "2024-01-01 00:00:00") [].

(** Run after run, each from the state the one before saved. *)
Fixpoint main_runs (repos : list (list N * list N))
    (nets : list (list N -> world)) (state : gmap (list N) Z)
  : gmap (list N) Z * list (list (list N * list event)) :=
  match nets with
  | [] => (state, [])
  | net :: later =>
      let run := main repos net state in
      let rest := main_runs repos later (fst run) in
      (fst rest, snd run :: snd rest)
  end.

(** The release source ends up answering with a release numbered 0. *)
Definition reports_zero (w : world) : Prop :=
  exists rel, fetches w rel /\ rel_id rel = 0%Z.

(** In [run], the task of [name] posted the announcement of the release:
    its chunks up to the first the sink refused, at least one. *)
Definition announced_by (name : list N) (w : world)
    (run : list (list N * list event)) : Prop :=
  exists rel tr more,
    fetches w rel
    /\ In (name, tr) run
    /\ posts tr
       = take (posts_made w 0 (announcement_chunks w name rel))
           (announcement_chunks w name rel) ++ more
    /\ 1 <= posts_made w 0 (announcement_chunks w name rel).

(** At position [i] something other than the marker, and after it a
    reserved character: one that is not escaped. *)
Definition unescaped_at (text : list N) (i : nat) : Prop :=
  exists p c,
    text !! i = Some p /\ p <> bs
    /\ text !! S i = Some c /\ reserved c = true.

(** A release without body. *)
Definition release_plain : release :=
  Release 7 (lit "v2.0") (lit "https://example.org/r")
    (Some (lit "2024-01-01T00:00:00Z")) false None.

(** The release source reports [release_plain], which has no body. *)
Definition plain_world : world :=
  World (fun _ => Responded (Response 200 (JRelease release_plain)))
    (fun _ => Responded (plain_response 200))
    (fun _ => Responded (plain_response 200))
    (fun _ => Completed (lit "A summary of the fixes"))
    (fun _ => []) (lit "2024-01-01 00:00:00") [].

(** ** The steps of the fallback *)

(** Link syntax at the head of [s]: a label in brackets and a target in
    parentheses, on one line each. *)
Definition link_occurrence (s label url rest : list N) : Prop :=
  s = [ch "["] ++ label ++ [ch "]"; ch "("] ++ url ++ [ch ")"] ++ rest
  /\ ~ In nl label /\ ~ In nl url.

(** The first step: every occurrence of link syntax, leftmost first,
    gives way to its label; the text in between is kept. *)
Inductive labels_for_links : list N -> list N -> Prop :=
| labels_nil : labels_for_links [] []
| labels_link s label url rest t :
    link_occurrence s label url rest ->
    labels_for_links rest t ->
    labels_for_links s (label ++ t)
| labels_keep c s t :
    (forall label url rest, ~ link_occurrence (c :: s) label url rest) ->
    labels_for_links s t ->
    labels_for_links (c :: s) (c :: t).

(** The tails of the link pattern: from the closing parenthesis, and
    from the closing bracket. *)
Definition close_paren : Re.matcher unit := Re.chr (ch ")") Re.done.

Definition label_end : Re.matcher (list N * unit) :=
  Re.chr (ch "]") (Re.chr (ch "(") (Re.star_lazy (is_not nl) close_paren)).

(** The second: the marker characters are dropped. *)
Definition without_markers (s : list N) : list N :=
  List.filter (fun c => negb (elem c markup_markers)) s.

(** The third: runs of blank lines.  [blank_ahead s]: from the head of
    [s] a line feed is reached over white space only. *)
Definition blank_ahead (s : list N) : Prop :=
  exists ws b, Forall (fun c => is_space c = true) ws /\ s = ws ++ nl :: b.

(** A line feed, white space, and a line feed again. *)
Definition no_blank_line (t : list N) : Prop :=
  forall a ws b,
    Forall (fun c => is_space c = true) ws -> t <> a ++ [nl] ++ ws ++ [nl] ++ b.

(** Each stretch from a line feed over white space to a last line feed
    gives way to one line feed; everything else is kept. *)
Inductive blank_runs_collapsed : list N -> list N -> Prop :=
| collapsed_nil : blank_runs_collapsed [] []
| collapsed_run ws rest t :
    Forall (fun c => is_space c = true) ws ->
    blank_runs_collapsed rest t ->
    blank_runs_collapsed ([nl] ++ ws ++ [nl] ++ rest) (nl :: t)
| collapsed_keep c s t :
    blank_runs_collapsed s t -> blank_runs_collapsed (c :: s) (c :: t).

(** The tail of the blank-line pattern, and the third substitution. *)
Definition newlines : Re.matcher (list N * unit) :=
  Re.plus_greedy (N.eqb nl) Re.done.

Definition collapse (s : list N) : list N :=
  Re.sub blank_lines_re (fun _ => [nl]) s.

(** The fourth: white space at both ends is cut off. *)
Definition is_trimmed (s t : list N) : Prop :=
  (exists a b,
     s = a ++ t ++ b
     /\ Forall (fun c => is_space c = true) a
     /\ Forall (fun c => is_space c = true) b)
  /\ (forall c r, t = c :: r -> is_space c = false)
  /\ (forall f c, t = f ++ [c] -> is_space c = false).

(** The fifth: at most 500 characters, the last three an ellipsis when
    something was cut. *)
Definition truncated (s : list N) : list N :=
  if 500 <? length s then take 497 s ++ lit "..." else s.

(** The fallback as the spec words it: links give way to their labels,
    the marker characters go, runs of blank lines collapse, the ends
    are trimmed, and the text is cut to its budget. *)
Definition fallback_steps (release_notes plain_text : list N) : Prop :=
  exists labelled collapsed trimmed,
    labels_for_links release_notes labelled
    /\ blank_runs_collapsed (without_markers labelled) collapsed
    /\ no_blank_line collapsed
    /\ is_trimmed collapsed trimmed
    /\ no_blank_line trimmed
    /\ plain_text = truncated trimmed
    /\ length plain_text <= 500.

(** Every attempt at the summary fails. *)
Definition exhausted (w : world) : Prop :=
  summary_failed (w_ai w 0) = true
  /\ summary_failed (w_ai w 1) = true
  /\ summary_failed (w_ai w 2) = true.

(** * Further vocabulary *)

(** ** Escaped output *)

(** Every reserved character of [t] has the marker directly before it. *)
Definition guarded (t : list N) : Prop :=
  forall i c,
    t !! i = Some c -> reserved c = true ->
    exists j, i = S j /\ t !! j = Some bs.

(** The text [escape_markdown_v2] escapes: its input with a placeholder
    in the place of every link. *)
Definition text_without_links (uuid4_hex : nat -> list N) (text : list N)
  : list N :=
  snd (Re.sub_with lazy_link_re (link_replacer uuid4_hex) [] text).

(** The placeholders of [escape_markdown_v2] begin with two underscores. *)
Definition uuid_placeholder (ph : list N) : Prop :=
  exists k, ph = [ch "_"; ch "_"] ++ k.

(** ** Chunks and lines *)

(** The paragraphs of a text. *)
Definition paragraphs (text : list N) : list (list N) :=
  split_on [nl; nl] text [] 0.

(** [sep.join(l)] *)
Fixpoint join (sep : list N) (l : list (list N)) : list N :=
  match l with
  | [] => []
  | x :: r =>
      match r with
      | [] => x
      | _ :: _ => x ++ sep ++ join sep r
      end
  end.

(** A chunk within the limit, or else a whole paragraph of the text or a
    whole line of one of its paragraphs. *)
Definition fits_or_whole (text : list N) (max_length : Z) (chunk : list N)
  : Prop :=
  (len chunk <= max_length)%Z
  \/ In chunk (paragraphs text)
  \/ exists p, In p (paragraphs text) /\ In chunk (lines p).

(** A returned chunk: the packed chunk itself, or with an indicator. *)
Definition returned_from (base chunk : list N) : Prop :=
  chunk = base \/ exists i n, chunk = base ++ indicator_text i n.

(** Every line of [chunk] is a line of [text]. *)
Definition lines_within (text chunk : list N) : Prop :=
  forall line, In line (lines chunk) -> In line (lines text).

(** The invariant of the packing loops: what is finished fits or is
    whole and is not empty; what is being built is empty, fits or is
    whole. *)
Definition packed_ok (text : list N) (max_length : Z)
    (st : list (list N) * list N) : Prop :=
  Forall (fun c => fits_or_whole text max_length c /\ c <> []) (fst st)
  /\ (snd st = [] \/ fits_or_whole text max_length (snd st)).

(** The invariant of the packing loops for the lines: every line of
    what is finished, and of what is being built unless it is empty,
    is a line of the text. *)
Definition lines_ok (text : list N) (st : list (list N) * list N) : Prop :=
  Forall (lines_within text) (fst st)
  /\ (snd st = [] \/ lines_within text (snd st)).

(** ** Sending, post by post *)

(** The first [k] answers of the sink from the [n]-th on accept. *)
Definition accepted_before (w : world) (n k : nat) : Prop :=
  forall j, j < k -> post_ok (w_post w (n + j)) = true.

(** How the sending loop ended after [k] posts: every chunk posted and
    accepted, or the [k]-th post the first one refused and its failure
    the exception raised. *)
Definition send_ended (w : world) (n k : nat) (chunks : list (list N))
    (result : outcome unit) : Prop :=
  match result with
  | Ok _ => k = length chunks /\ accepted_before w n k
  | Raise e =>
      1 <= k /\ accepted_before w n (k - 1)
      /\ post_ok (w_post w (n + (k - 1))) = false
      /\ e = post_exn (w_post w (n + (k - 1)))
  end.

(** ** Bounds on the calls *)


(** The release source answers 403 to every request. *)
Definition forbidden_release_world : world :=
  World (fun _ => Responded (plain_response 403))
    (fun _ => Responded (plain_response 200))
    (fun _ => Responded (plain_response 200))
    (fun _ => AIFailed (OtherError []))
    (fun _ => []) (lit "2024-01-01 00:00:00") [].

(** The release source never answers. *)
Definition unreachable_world : world :=
  World (fun _ => TransportFailed (lit "timeout"))
    (fun _ => Responded (plain_response 200))
    (fun _ => Responded (plain_response 200))
    (fun _ => AIFailed (OtherError []))
    (fun _ => []) (lit "2024-01-01 00:00:00") [].


(** The release source reports [release_plain]; the sink answers 404 to
    every message; the repository itself answers 200. *)
Definition sink_404_world : world :=
  World (fun _ => Responded (Response 200 (JRelease release_plain)))
    (fun _ => Responded (plain_response 200))
    (fun _ => Responded (plain_response 404))
    (fun _ => Completed (lit "A summary of the fixes"))
    (fun _ => []) (lit "2024-01-01 00:00:00") [].

(** The uuids a task drew when the announcement of [rel] has been split. *)
Definition draws_before_send (w : world) (repo_name : list N) (rel : release)
  : nat :=
  summary_draws w 0 (body_or_default (body rel))
    + announcement_draws repo_name rel.

(** * Properties *)

(** ** Strings *)

Lemma elem_In c s : elem c s = true <-> In c s.
Proof.
  unfold elem. rewrite existsb_exists. split.
  - intros (x & Hx & E). apply N.eqb_eq in E. now subst.
  - intros H. exists c. split; [exact H | apply N.eqb_refl].
Qed.

Lemma starts_with_app p s : starts_with p s = true <-> exists r, s = p ++ r.
Proof.
  revert s. induction p as [|a p IH]; intros s; simpl.
  - split; [intros _; now exists s | reflexivity].
  - destruct s as [|b s].
    + split; [discriminate | intros (r & E); discriminate].
    + rewrite andb_true_iff, N.eqb_eq, IH. split.
      * intros (-> & r & ->). now exists r.
      * intros (r & E). injection E as -> ->. split; [reflexivity | now exists r].
Qed.

(** A needle that occurs nowhere is replaced nowhere. *)
Lemma str_replace_absent old new s :
  (forall a b, s <> a ++ old ++ b) -> str_replace old new s 0 = s.
Proof.
  induction s as [|c r IH]; intros Habs; [reflexivity|].
  cbn [str_replace].
  destruct (starts_with old (c :: r)) eqn:E.
  - apply starts_with_app in E as (b & E). exfalso. now apply (Habs [] b).
  - f_equal. apply IH. intros a b ->. now apply (Habs (c :: a) b).
Qed.

Lemma digits_of_uint_digits u : Forall is_digit (digits_of_uint u).
Proof.
  induction u; simpl; constructor; try assumption; unfold is_digit; lia.
Qed.

Lemma str_of_nat_digits n : Forall is_digit (str_of_nat n).
Proof. apply digits_of_uint_digits. Qed.

(** ** Escaping, declaratively *)

Section Escaped.
Variable R : N -> bool.

Lemma escaped_flat_map s : escaped_as R s (flat_map (escape_one R) s).
Proof.
  induction s as [|c s IH]; simpl; [constructor|].
  unfold escape_one at 1. destruct (R c) eqn:E; simpl; now constructor.
Qed.

Lemma reserved_count_cons c s :
  reserved_count R (c :: s) = (if R c then 1 else 0) + reserved_count R s.
Proof. unfold reserved_count. cbn [List.filter]. now destruct (R c). Qed.

Lemma escaped_length s t :
  escaped_as R s t -> length t = length s + reserved_count R s.
Proof.
  induction 1 as [|c s t Hc _ IH|c s t Hc _ IH];
    [reflexivity| |]; rewrite reserved_count_cons, Hc; cbn [length]; lia.
Qed.

(** Every character but the marker occurs as often as before. *)
Lemma escaped_occurrences s t c :
  escaped_as R s t -> c <> bs -> occurrences c t = occurrences c s.
Proof.
  unfold occurrences.
  induction 1 as [|d s t Hd _ IH|d s t Hd _ IH]; intros Hc; [reflexivity| |].
  - rewrite (count_occ_cons_neq N.eq_dec) by congruence.
    destruct (N.eq_dec d c) as [->|Hne].
    + rewrite !(count_occ_cons_eq N.eq_dec) by reflexivity. now rewrite IH.
    + rewrite !(count_occ_cons_neq N.eq_dec) by assumption. now apply IH.
  - destruct (N.eq_dec d c) as [->|Hne].
    + rewrite !(count_occ_cons_eq N.eq_dec) by reflexivity. now rewrite IH.
    + rewrite !(count_occ_cons_neq N.eq_dec) by assumption. now apply IH.
Qed.

(** One marker more for every reserved character. *)
Lemma escaped_markers s t :
  escaped_as R s t ->
  occurrences bs t = occurrences bs s + reserved_count R s.
Proof.
  unfold occurrences.
  induction 1 as [|d s t Hd _ IH|d s t Hd _ IH];
    [reflexivity| |]; rewrite reserved_count_cons, Hd.
  - rewrite (count_occ_cons_eq N.eq_dec) by reflexivity.
    destruct (N.eq_dec d bs) as [->|Hne].
    + rewrite !(count_occ_cons_eq N.eq_dec) by reflexivity. lia.
    + rewrite !(count_occ_cons_neq N.eq_dec) by assumption. lia.
  - destruct (N.eq_dec d bs) as [->|Hne].
    + rewrite !(count_occ_cons_eq N.eq_dec) by reflexivity. lia.
    + rewrite !(count_occ_cons_neq N.eq_dec) by assumption. lia.
Qed.

(** A reserved character of the output always has a marker before it,
    when the marker is not itself reserved. *)
Lemma escaped_guarded s t :
  R bs = false ->
  escaped_as R s t ->
  forall i c, t !! i = Some c -> R c = true ->
    exists j, i = S j /\ t !! j = Some bs.
Proof.
  intros Hbs.
  induction 1 as [|d s t Hd _ IH|d s t Hd _ IH]; intros i c Hi Hc.
  - discriminate.
  - destruct i as [|[|i]]; simpl in Hi.
    + injection Hi as <-. congruence.
    + exists 0. split; reflexivity.
    + destruct (IH i c Hi Hc) as (j & -> & Hj).
      exists (S (S j)). split; [reflexivity | exact Hj].
  - destruct i as [|i]; simpl in Hi.
    + injection Hi as <-. congruence.
    + destruct (IH i c Hi Hc) as (j & -> & Hj).
      exists (S j). split; [reflexivity | exact Hj].
Qed.

(** Dropping the markers gives the input back. *)
Lemma escaped_strip s t : escaped_as R s t -> strip_markers R t = s.
Proof.
  induction 1 as [|d s t Hd H IH|d s t Hd H IH]; [reflexivity| |].
  - cbn [strip_markers]. rewrite N.eqb_refl, Hd. simpl. now rewrite IH.
  - cbn [strip_markers]. destruct t as [|e r].
    + now inversion H.
    + destruct (N.eqb d bs && R e) eqn:E.
      * apply andb_true_iff in E as (E1 & E2). apply N.eqb_eq in E1. subst d.
        (* [d] is the marker, copied, and [e] is reserved: then [e] is
           the marker of the next character, itself reserved *)
        inversion H; subst; congruence.
      * now rewrite IH.
Qed.
End Escaped.

(** ** The two escaping passes compute [flat_map escape_one] *)

Lemma escape_pass_acc text acc :
  fold_left
    (fun escaped_text c =>
       if elem c escape_chars then escaped_text ++ [bs; c]
       else escaped_text ++ [c]) text acc
  = acc ++ flat_map (escape_one reserved) text.
Proof.
  revert acc. induction text as [|c text IH]; intros acc; cbn [fold_left flat_map].
  - now rewrite app_nil_r.
  - rewrite IH. unfold escape_one, reserved.
    destruct (elem c escape_chars); now rewrite <- app_assoc.
Qed.

Lemma escape_pass_flat_map text :
  escape_pass text = flat_map (escape_one reserved) text.
Proof. unfold escape_pass. now rewrite escape_pass_acc. Qed.

Lemma scan_class cls s :
  Re.scan (class_re cls) s 0
  = map (fun c => if elem c cls then Re.Found (Re.Hit [c] [c]) else Re.Keep c) s.
Proof.
  induction s as [|c r IH]; [reflexivity|].
  cbn [Re.scan map]. unfold class_re at 1, Re.one_of.
  destruct (elem c cls).
  - replace (length (c :: r) - length r) with 1 by (cbn [length]; lia).
    cbn [take Nat.sub]. now rewrite IH.
  - now rewrite IH.
Qed.

Lemma sub_class cls repl s :
  Re.sub (class_re cls) repl s
  = flat_map (fun c => if elem c cls then repl (Re.Hit [c] [c]) else [c]) s.
Proof.
  unfold Re.sub, Re.sub_with. rewrite scan_class.
  induction s as [|c r IH]; [reflexivity|].
  cbn [map flat_map]. destruct (elem c cls); cbn [Re.sub_pieces fst snd].
  - now rewrite IH.
  - now rewrite IH.
Qed.

(** A text in which the pattern matches nowhere is copied. *)
Lemma scan_all_keep m s :
  List.filter is_found (Re.scan m s 0) = [] ->
  Re.scan m s 0 = map Re.Keep s.
Proof.
  induction s as [|c r IH]; [reflexivity|].
  cbn [Re.scan map]. destruct (m (c :: r)) as [[g1 rest]|].
  - cbn [List.filter is_found]. discriminate.
  - cbn [List.filter is_found]. intros H. now rewrite IH.
Qed.

Lemma sub_pieces_keep {St} (f : St -> Re.hit -> St * list N) st s :
  Re.sub_pieces f st (map Re.Keep s) = (st, s).
Proof.
  induction s as [|c r IH]; [reflexivity|].
  cbn [map Re.sub_pieces]. now rewrite IH.
Qed.

Lemma escape_markdown_v2_no_link uuid4_hex text :
  link_count text = 0 ->
  escape_markdown_v2 uuid4_hex text = flat_map (escape_one reserved_v2) text.
Proof.
  unfold link_count, escape_markdown_v2.
  destruct text as [|c r]; [reflexivity|]. intros H.
  apply length_zero_iff_nil in H.
  unfold Re.sub_with. rewrite (scan_all_keep _ _ H), sub_pieces_keep.
  cbn [fst snd fold_left]. rewrite sub_class. reflexivity.
Qed.

(** A text without an opening bracket has no link. *)
Lemma lazy_link_needs_bracket c r : c <> ch "[" -> lazy_link_re (c :: r) = None.
Proof.
  intros H. unfold lazy_link_re, Re.chr.
  destruct (N.eqb_spec c (ch "[")); [contradiction | reflexivity].
Qed.

Lemma link_count_no_bracket text : ~ In (ch "[") text -> link_count text = 0.
Proof.
  intros H. unfold link_count. destruct text as [|c0 r0]; [reflexivity|].
  apply length_zero_iff_nil. revert H. generalize (c0 :: r0). clear.
  intros s. induction s as [|c r IH]; intros H; [reflexivity|].
  cbn [Re.scan]. rewrite lazy_link_needs_bracket by (intros ->; apply H; now left).
  cbn [List.filter is_found].
  apply IH. intros Hin. apply H. now right.
Qed.

(** ** After the character loop no placeholder can be found *)

(** In the output of the loop an underscore always follows a marker. *)
Lemma escape_pass_guarded text i c :
  escape_pass text !! i = Some c -> reserved c = true ->
  exists j, i = S j /\ escape_pass text !! j = Some bs.
Proof.
  rewrite escape_pass_flat_map.
  apply (escaped_guarded reserved text); [reflexivity | apply escaped_flat_map].
Qed.

Lemma placeholder_absent prefix k text a b :
  placeholder_prefix prefix ->
  escape_pass text <> a ++ (prefix ++ k) ++ b.
Proof.
  intros (p & x & q & -> & Hx) E.
  assert (H1 : escape_pass text !! (length (a ++ p) + 1) = Some (ch "_")).
  { rewrite E. rewrite <- !app_assoc. rewrite (app_assoc a p).
    rewrite lookup_app_r by lia.
    replace (length (a ++ p) + 1 - length (a ++ p)) with 1 by lia. reflexivity. }
  destruct (escape_pass_guarded _ _ _ H1 eq_refl) as (j & Hj & Hbs).
  assert (j = length (a ++ p)) by lia. subst j.
  rewrite E in Hbs. rewrite <- !app_assoc in Hbs. rewrite (app_assoc a p) in Hbs.
  rewrite lookup_app_r in Hbs by lia.
  rewrite Nat.sub_diag in Hbs. cbn in Hbs. congruence.
Qed.

Lemma restore_noop prefix saved text :
  placeholder_prefix prefix ->
  restore prefix saved (escape_pass text) = escape_pass text.
Proof.
  intros Hp. unfold restore.
  generalize (combine (seq 0 (length saved)) saved).
  induction l as [|[i x] l IH]; [reflexivity|].
  cbn [fold_left fst snd].
  rewrite str_replace_absent; [exact IH|].
  intros a b. now apply placeholder_absent.
Qed.

Lemma placeholder_prefixes :
  placeholder_prefix LINK_PH /\ placeholder_prefix BOLD_PH
  /\ placeholder_prefix CODE_PH.
Proof.
  repeat split.
  - exists (lit "LIN"), (ch "K"), (lit "PH_"). split; [reflexivity | discriminate].
  - exists (lit "BOL"), (ch "D"), (lit "PH_"). split; [reflexivity | discriminate].
  - exists (lit "COD"), (ch "E"), (lit "PH_"). split; [reflexivity | discriminate].
Qed.

(** The restoration loops change nothing: the converter returns the
    escaped text with the escaped placeholders still in it. *)
Theorem convert_restores_nothing text :
  convert_ai_markdown_to_telegram text = escape_pass (fst (protect text)).
Proof.
  unfold convert_ai_markdown_to_telegram.
  destruct text as [|c r]; [reflexivity|].
  destruct (protect (c :: r)) as [t [[links bolds] codes]]. cbn [fst snd].
  destruct placeholder_prefixes as (Hl & Hb & Hc).
  now rewrite !restore_noop.
Qed.

(** ** The Dialect Converter on a link *)

(** C1 (the code departs from the claim).  On the input [[a](b)] the
    converter saves the link under [LINK_PH_0], but the character loop
    escapes the two underscores of that placeholder, the restoring
    [replace] finds nothing, and the output is the escaped placeholder:
    the link is not restored. *)
Theorem convert_loses_link :
  snd (protect (lit "[a](b)")) = ([lit "[a](b)"], [], [])
  /\ fst (protect (lit "[a](b)")) = lit "LINK_PH_0"
  /\ convert_ai_markdown_to_telegram (lit "[a](b)") = lit "LINK\_PH\_0".
Proof. repeat split; vm_compute; reflexivity. Qed.

(** ** The Escaper and the character loop *)

Lemma flat_map_exactly_escaped R s :
  exactly_escaped R s (flat_map (escape_one R) s).
Proof.
  pose proof (escaped_flat_map R s) as H.
  repeat split.
  - exact H.
  - now apply escaped_strip.
  - intros c Hc. now apply (escaped_occurrences R).
  - now apply escaped_markers.
  - now apply escaped_length.
Qed.

(** C2, as stated, fails: [escape_markdown_v2] also puts a marker in
    front of a backslash, which is not in the reserved set of the claim. *)
Lemma escape_markdown_v2_escapes_backslash :
  escape_markdown_v2 (fun _ => []) [bs] = [bs; bs]
  /\ ~ escaped_as reserved [bs] (escape_markdown_v2 (fun _ => []) [bs]).
Proof.
  split; [vm_compute; reflexivity|].
  replace (escape_markdown_v2 (fun _ => []) [bs]) with [bs; bs]
    by (vm_compute; reflexivity).
  intros H. inversion H as [|c s t Hc Ht|c s t Hc Ht]; subst.
  - vm_compute in Hc. discriminate.
  - inversion Ht.
Qed.

(** C2, amended.  The character loop of the converter escapes exactly
    the reserved set and leaves every other character, a backslash
    included, as it is.  [escape_markdown_v2] counts the backslash among
    its reserved characters: on a text without link syntax it escapes
    exactly that larger set. *)
Theorem escaping_is_exact text :
  exactly_escaped reserved text (escape_pass text)
  /\ forall uuid4_hex,
       link_count text = 0 ->
       exactly_escaped reserved_v2 text (escape_markdown_v2 uuid4_hex text).
Proof.
  split.
  - rewrite escape_pass_flat_map. apply flat_map_exactly_escaped.
  - intros uuid4_hex H. rewrite escape_markdown_v2_no_link by exact H.
    apply flat_map_exactly_escaped.
Qed.

Lemma escaping_is_exact_witness :
  link_count (lit "v1.2\n_") = 0
  /\ exactly_escaped reserved (lit "v1.2\n_") (escape_pass (lit "v1.2\n_"))
  /\ exactly_escaped reserved_v2 (lit "v1.2\n_")
       (escape_markdown_v2 (fun _ => []) (lit "v1.2\n_")).
Proof.
  split; [reflexivity|].
  split.
  - apply (escaping_is_exact (lit "v1.2\n_")).
  - apply (escaping_is_exact (lit "v1.2\n_")). reflexivity.
Defined.

(** ** The Chunker keeps the content *)

Lemma content_app s t : content (s ++ t) = content s ++ content t.
Proof. apply List.filter_app. Qed.

Lemma content_nl s : content (nl :: s) = content s.
Proof. reflexivity. Qed.

Lemma content_newlines s : Forall (eq nl) s -> content s = [].
Proof.
  induction 1 as [|c s <- _ IH]; [reflexivity|]. now rewrite content_nl.
Qed.

Lemma content_cons_nil c s : content (c :: s) = [] -> c = nl /\ content s = [].
Proof.
  unfold content. cbn [List.filter].
  destruct (N.eqb_spec c nl); cbn [negb]; [now split | discriminate].
Qed.

(** Splitting drops separators only. *)
Lemma split_on_content sep :
  Forall (eq nl) sep -> sep <> [] ->
  forall s cur k,
    content (take k s) = [] ->
    content (concat (split_on sep s cur k)) = content cur ++ content s.
Proof.
  intros Hsep Hne. induction s as [|c r IH]; intros cur k Hk.
  - cbn [split_on concat]. change (content []) with (@nil N).
    now rewrite !app_nil_r.
  - cbn [split_on]. destruct k as [|k].
    + destruct (starts_with sep (c :: r)) eqn:E.
      * apply starts_with_app in E as (rest & E).
        destruct sep as [|c' sep']; [contradiction|].
        injection E as <- ->. inversion Hsep as [|? ? Hc Hsep']; subst.
        cbn [concat length]. rewrite content_app, IH.
        -- now rewrite content_nl.
        -- replace (S (length sep') - 1) with (length sep') by lia.
           rewrite take_app_length. now apply content_newlines.
      * rewrite IH by reflexivity.
        rewrite content_app, <- app_assoc.
        change (c :: r) with ([c] ++ r). now rewrite content_app.
    + cbn [take] in Hk. apply content_cons_nil in Hk as (-> & Hk).
      rewrite IH by exact Hk. now rewrite content_nl.
Qed.

Lemma concat_snoc (l : list (list N)) x : concat (l ++ [x]) = concat l ++ x.
Proof. rewrite concat_app. cbn [concat]. now rewrite app_nil_r. Qed.

Lemma content_nil : content [] = [].
Proof. reflexivity. Qed.

Lemma content_nl1 : content [nl] = [].
Proof. reflexivity. Qed.

Lemma content_nl2 : content [nl; nl] = [].
Proof. reflexivity. Qed.

Ltac content_norm :=
  cbn [fst snd is_empty concat];
  rewrite ?concat_snoc, ?content_app, ?content_nl1, ?content_nl2, ?content_nil;
  cbn [app]; rewrite ?app_nil_r, <- ?app_assoc; cbn [app];
  try reflexivity.

Lemma pack_line_held max_length st line :
  held (pack_line max_length st line) = held st ++ content line.
Proof.
  destruct st as [chunks current]. unfold pack_line, held. cbn [fst snd].
  destruct (_ <=? _)%Z; destruct current as [|c r]; content_norm.
Qed.

Lemma pack_lines_held max_length lines st :
  held (fold_left (pack_line max_length) lines st)
  = held st ++ content (concat lines).
Proof.
  revert st. induction lines as [|l lines IH]; intros st; cbn [fold_left concat].
  - now rewrite app_nil_r.
  - rewrite IH, pack_line_held, content_app. now rewrite app_assoc.
Qed.

Lemma pack_paragraph_held max_length st paragraph :
  held (pack_paragraph max_length st paragraph) = held st ++ content paragraph.
Proof.
  destruct st as [chunks current]. unfold pack_paragraph. cbn [fst snd].
  destruct (_ <=? _)%Z; destruct current as [|c r]; cbn [is_empty].
  - unfold held. content_norm.
  - unfold held. content_norm.
  - rewrite pack_lines_held.
    rewrite (split_on_content [nl]); [reflexivity | | discriminate | reflexivity].
    now repeat constructor.
  - unfold held. content_norm.
Qed.

Lemma pack_paragraphs_held max_length paragraphs st :
  held (fold_left (pack_paragraph max_length) paragraphs st)
  = held st ++ content (concat paragraphs).
Proof.
  revert st. induction paragraphs as [|p ps IH]; intros st; cbn [fold_left concat].
  - now rewrite app_nil_r.
  - rewrite IH, pack_paragraph_held, content_app. now rewrite app_assoc.
Qed.

(** The chunks, joined, are the text up to line feeds. *)
Lemma pack_chunks_content text max_length :
  content (concat (pack_chunks text max_length)) = content text.
Proof.
  unfold pack_chunks.
  pose proof (pack_paragraphs_held max_length (split_on [nl; nl] text [] 0) ([], []))
    as H.
  rewrite (split_on_content [nl; nl]) in H;
    [| now repeat constructor | discriminate | reflexivity].
  destruct (fold_left _ _ _) as [chunks current]. unfold held in H.
  cbn [fst snd concat app content List.filter] in H |- *.
  destruct current as [|c r]; cbn [is_empty].
  - now rewrite app_nil_r in H.
  - now rewrite concat_snoc.
Qed.

(** ** The part indicators *)

Lemma digit_not_reserved c : is_digit c -> reserved_v2 c = false.
Proof.
  intros Hc. apply not_true_is_false. unfold reserved_v2. rewrite elem_In.
  unfold is_digit in Hc. vm_compute. intros H.
  repeat (destruct H as [H|H]; [lia|]). exact H.
Qed.

Lemma digits_unescaped s :
  Forall is_digit s -> flat_map (escape_one reserved_v2) s = s.
Proof.
  induction 1 as [|c s Hc _ IH]; [reflexivity|].
  cbn [flat_map]. unfold escape_one at 1.
  rewrite (digit_not_reserved c Hc). cbn [app]. now rewrite IH.
Qed.

Lemma digits_no_bracket s : Forall is_digit s -> ~ In (ch "[") s.
Proof.
  induction 1 as [|c s Hc _ IH]; [intros []|].
  intros [E|Hin]; [|contradiction].
  unfold is_digit in Hc. change (c = 91%N) in E. lia.
Qed.

Lemma part_indicator_text uuid4_hex i n :
  part_indicator uuid4_hex i n = indicator_text i n.
Proof.
  unfold part_indicator, indicator_text.
  pose proof (str_of_nat_digits i) as Hi. pose proof (str_of_nat_digits n) as Hn.
  rewrite escape_markdown_v2_no_link.
  - rewrite !flat_map_app, !(digits_unescaped _ Hi), !(digits_unescaped _ Hn).
    replace (flat_map (escape_one reserved_v2) (lit "(")) with [bs; ch "("]
      by (vm_compute; reflexivity).
    replace (flat_map (escape_one reserved_v2) (lit ")")) with [bs; ch ")"]
      by (vm_compute; reflexivity).
    replace (flat_map (escape_one reserved_v2) PART_WORD) with PART_WORD
      by (vm_compute; reflexivity).
    replace (flat_map (escape_one reserved_v2) (lit " ")) with (lit " ")
      by (vm_compute; reflexivity).
    replace (flat_map (escape_one reserved_v2) (lit "/")) with (lit "/")
      by (vm_compute; reflexivity).
    rewrite <- !app_assoc. reflexivity.
  - apply link_count_no_bracket. rewrite !in_app_iff.
    intros [H|[H|[H|[H|[H|[H|H]]]]]].
    + vm_compute in H. intuition discriminate.
    + vm_compute in H. intuition discriminate.
    + vm_compute in H. intuition discriminate.
    + now apply (digits_no_bracket _ Hi).
    + vm_compute in H. intuition discriminate.
    + now apply (digits_no_bracket _ Hn).
    + vm_compute in H. intuition discriminate.
Qed.

Lemma indicator_step_at uuid4_hex (l : list (list N)) a c :
  l !! a = Some c ->
  indicator_step uuid4_hex l (S a)
  = <[a := c ++ part_indicator uuid4_hex (S a) (length l)]> l.
Proof.
  intros H. unfold indicator_step.
  replace (S a - 1) with a by lia. now rewrite H.
Qed.

Lemma indicator_loop uuid4_hex n :
  forall a (l : list (list N)),
    a + n = length l ->
    length (fold_left (indicator_step uuid4_hex) (seq (S a) n) l) = length l
    /\ forall j,
         fold_left (indicator_step uuid4_hex) (seq (S a) n) l !! j
         = if decide (a <= j)
           then (fun c => c ++ part_indicator uuid4_hex (S j) (length l)) <$> l !! j
           else l !! j.
Proof.
  induction n as [|n IH]; intros a l Hlen.
  - cbn [seq fold_left]. split; [reflexivity|]. intros j.
    destruct (decide (a <= j)); [|reflexivity].
    rewrite (lookup_ge_None_2 l j) by lia. reflexivity.
  - cbn [seq fold_left].
    destruct (lookup_lt_is_Some_2 l a ltac:(lia)) as [c Hc].
    rewrite (indicator_step_at _ _ _ _ Hc).
    set (l' := <[a := c ++ part_indicator uuid4_hex (S a) (length l)]> l).
    assert (Hl' : length l' = length l) by apply length_insert.
    destruct (IH (S a) l' ltac:(lia)) as [IH1 IH2]. split; [lia|].
    intros j. rewrite IH2, Hl'.
    destruct (decide (S a <= j)), (decide (a <= j)); try lia.
    + unfold l'. rewrite list_lookup_insert_ne by lia. reflexivity.
    + assert (j = a) by lia. subst j. unfold l'.
      rewrite list_lookup_insert_eq by lia. now rewrite Hc.
    + unfold l'. rewrite list_lookup_insert_ne by lia. reflexivity.
Qed.

Lemma add_indicators_length uuid4_hex chunks :
  length (add_indicators uuid4_hex chunks) = length chunks.
Proof. apply (indicator_loop uuid4_hex (length chunks) 0 chunks). lia. Qed.

Lemma add_indicators_lookup uuid4_hex (chunks : list (list N)) i chunk :
  chunks !! i = Some chunk ->
  add_indicators uuid4_hex chunks !! i
  = Some (chunk ++ indicator_text (S i) (length chunks)).
Proof.
  intros H.
  destruct (indicator_loop uuid4_hex (length chunks) 0 chunks ltac:(lia)) as [_ L].
  unfold add_indicators. fold (indicator_step uuid4_hex).
  rewrite L. destruct (decide (0 <= i)); [|lia].
  now rewrite H, part_indicator_text.
Qed.

(** ** The Chunker: what is returned *)

(** C4.  The chunks returned are some chunks [base] of the text that,
    joined, give the text back up to its line feeds; they are returned
    as they are when there is at most one, and otherwise chunk [i] of
    [n] (counted from 1) ends with a blank line and the escaped
    indicator of [i] and [n] between underscores. *)
Theorem split_message_markdown_parts uuid4_hex text max_length :
  exists base : list (list N),
    content (concat base) = content text
    /\ length (split_message_markdown uuid4_hex text max_length) = length base
    /\ indicated_iff_many
         (split_message_markdown uuid4_hex text max_length) base.
Proof.
  unfold split_message_markdown. destruct (len text <=? max_length)%Z.
  - exists [text]. cbn [concat]. rewrite app_nil_r. repeat split.
  - exists (pack_chunks text max_length).
    split; [apply pack_chunks_content|].
    unfold indicated_iff_many.
    destruct (1 <? length (pack_chunks text max_length)) eqn:E.
    + split; [apply add_indicators_length|]. split; [apply add_indicators_length|].
      intros i chunk H. rewrite add_indicators_length.
      now apply add_indicators_lookup.
    + split; reflexivity.
Qed.

(** C3 (the code departs from the claim).  Two paragraphs, no line
    longer than the limit: each paragraph becomes a chunk that fits, and
    the indicator appended afterwards takes both chunks over the limit.
    First with a limit of 10, then with the limit of the sink, 4096.
    Last, a paragraph of two short lines that follows a chunk already
    begun is taken whole, over the limit even before any indicator. *)
Theorem indicator_overflows_limit uuid4_hex :
  (forallb (fun line => (len line <=? 10)%Z)
     (lines (lit "aaaaa" ++ [nl; nl] ++ lit "bbbbbb")) = true
   /\ split_message_markdown uuid4_hex (lit "aaaaa" ++ [nl; nl] ++ lit "bbbbbb") 10
      = [lit "aaaaa" ++ indicator_text 1 2; lit "bbbbbb" ++ indicator_text 2 2]
   /\ len (lit "aaaaa" ++ indicator_text 1 2) = 22%Z
   /\ len (lit "bbbbbb" ++ indicator_text 2 2) = 23%Z)
  /\
  (forallb (fun line => (len line <=? TELEGRAM_MAX_MESSAGE_LENGTH)%Z)
     (lines (repeat (ch "a") 4090 ++ [nl; nl] ++ repeat (ch "b") 4090)) = true
   /\ map len
        (split_message_markdown uuid4_hex
           (repeat (ch "a") 4090 ++ [nl; nl] ++ repeat (ch "b") 4090)
           TELEGRAM_MAX_MESSAGE_LENGTH)
      = [4107%Z; 4107%Z])
  /\
  (forallb (fun line => (len line <=? 10)%Z)
     (lines (lit "aaaaa" ++ [nl; nl] ++ lit "bbbbbb" ++ [nl] ++ lit "ccccccc"))
   = true
   /\ pack_chunks (lit "aaaaa" ++ [nl; nl] ++ lit "bbbbbb" ++ [nl] ++ lit "ccccccc") 10
      = [lit "aaaaa"; lit "bbbbbb" ++ [nl] ++ lit "ccccccc"]
   /\ len (lit "bbbbbb" ++ [nl] ++ lit "ccccccc") = 14%Z).
Proof.
  split; [split; [|split; [|split]] | split; [split | split; [|split]]];
    vm_compute; reflexivity.
Qed.

(** ** Running computations *)

Lemma bind_ok {A B} (m : M A) (f : A -> M B) st a st' :
  m st = (Ok a, st') -> bind m f st = f a st'.
Proof. intros H. unfold bind. now rewrite H. Qed.

Lemma bind_raise {A B} (m : M A) (f : A -> M B) st e st' :
  m st = (Raise e, st') -> bind m f st = (Raise e, st').
Proof. intros H. unfold bind. now rewrite H. Qed.

Lemma catch_ok {A} (m : M A) h st a st' :
  m st = (Ok a, st') -> catch m h st = (Ok a, st').
Proof. intros H. unfold catch. now rewrite H. Qed.

Lemma catch_raise {A} (m : M A) h st e st' :
  m st = (Raise e, st') -> catch m h st = h e st'.
Proof. intros H. unfold catch. now rewrite H. Qed.

Lemma count_if_app p a b : count_if p (a ++ b) = count_if p a + count_if p b.
Proof. unfold count_if. now rewrite List.filter_app, length_app. Qed.

Lemma count_if_repeat p e n :
  count_if p (repeat e n) = if p e then n else 0.
Proof.
  unfold count_if. induction n as [|n IH]; cbn [repeat List.filter].
  - now destruct (p e).
  - destruct (p e); cbn [length]; [now rewrite IH | exact IH].
Qed.

Lemma posts_app a b : posts (a ++ b) = posts a ++ posts b.
Proof.
  induction a as [|e a IH]; [reflexivity|].
  destruct e; cbn [app posts]; now rewrite IH.
Qed.

Lemma posts_map_post l : posts (map EvPost l) = l.
Proof. induction l as [|x l IH]; [reflexivity|]. cbn. now rewrite IH. Qed.

Lemma posts_none tr : count_if is_post tr = 0 -> posts tr = [].
Proof.
  unfold count_if. induction tr as [|e tr IH]; [reflexivity|].
  destruct e; cbn [List.filter is_post posts length]; auto; discriminate.
Qed.

(** ** The release-fetch call: who is retried *)

Lemma server_error_not_success s : (500 <=? s)%Z = true -> is_success s = false.
Proof. unfold is_success. lia. Qed.

Lemma fetch_attempt_run w st :
  fetch_attempt w st
  = (attempt_outcome (w_get w (count_if is_get (trace st))),
     RunState (trace st ++ [EvGet]) (drawn st)).
Proof.
  unfold fetch_attempt, bind, http_get, attempt_outcome.
  destruct (w_get w _) as [r|msg]; [|reflexivity].
  destruct (500 <=? status_code r)%Z eqn:E; [|reflexivity].
  unfold raise_for_status. now rewrite (server_error_not_success _ E).
Qed.

Lemma attempt_outcome_ok o r :
  attempt_outcome o = Ok r -> o = Responded r /\ retryable o = false.
Proof.
  destruct o as [r'|msg]; cbn; [|discriminate].
  destruct (500 <=? status_code r')%Z; [discriminate|].
  intros [= ->]. now split.
Qed.

Lemma attempt_outcome_raise o e :
  attempt_outcome o = Raise e ->
  retryable o = true
  /\ match e with
     | HTTPStatusError r => (500 <=? status_code r)%Z = true
     | APIStatusError _ => False
     | OtherError _ => True
     end.
Proof.
  destruct o as [r'|msg]; cbn.
  - destruct (500 <=? status_code r')%Z eqn:E; [|discriminate].
    intros [= <-]. now split.
  - intros [= <-]. now split.
Qed.

(** What the first [except] clauses let through: the outcome of the
    last attempt. *)
Lemma fetch_release_start w :
  fetch_release w start
  = (attempt_outcome (w_get w (fetch_attempts w - 1)),
     RunState (repeat EvGet (fetch_attempts w)) 0).
Proof.
  unfold fetch_release, fetch_attempts, retrying, catch.
  rewrite fetch_attempt_run. cbn [trace drawn start app count_if List.filter length].
  destruct (attempt_outcome (w_get w 0)) as [r0|e0] eqn:E0.
  { destruct (attempt_outcome_ok _ _ E0) as [_ ->]. cbn. now rewrite E0. }
  destruct (attempt_outcome_raise _ _ E0) as [-> _].
  rewrite fetch_attempt_run. cbn [trace drawn app count_if List.filter length is_get].
  destruct (attempt_outcome (w_get w 1)) as [r1|e1] eqn:E1.
  { destruct (attempt_outcome_ok _ _ E1) as [_ ->]. cbn. now rewrite E1. }
  destruct (attempt_outcome_raise _ _ E1) as [-> _].
  rewrite fetch_attempt_run. cbn [trace drawn app count_if List.filter length is_get].
  cbn [attempts_table Nat.sub repeat].
  destruct (attempt_outcome (w_get w 2)) as [r2|e2] eqn:E2; [reflexivity|].
  destruct (attempt_outcome_raise _ _ E2) as [_ H2].
  destruct e2 as [r|s|msg]; try reflexivity.
  destruct (status_code r <? 500)%Z eqn:E; [lia | reflexivity].
Qed.

(** ** The summary call: who is retried *)

Lemma summary_attempt_skip w release_notes language st :
  skips_summary release_notes = true ->
  summary_attempt w release_notes language st = (Ok NO_DESCRIPTION, st).
Proof. unfold summary_attempt, skips_summary. now intros ->. Qed.

Lemma summary_attempt_run w release_notes language st :
  skips_summary release_notes = false ->
  summary_attempt w release_notes language st
  = (summary_value (w_ai w (count_if is_summary (trace st))),
     RunState (trace st ++ [EvSummary language (prompt_source release_notes)])
       (drawn st)).
Proof.
  unfold summary_attempt, skips_summary. intros ->.
  unfold bind, completions_create, summary_value, long_enough, prompt_source.
  cbv zeta. destruct (w_ai w _) as [content|e]; [|reflexivity].
  destruct (negb _ && _); reflexivity.
Qed.

Lemma summary_value_ok o s : summary_value o = Ok s -> summary_failed o = false.
Proof.
  destruct o as [content|e]; cbn; [|discriminate].
  destruct (long_enough content); [reflexivity | discriminate].
Qed.

Lemma summary_value_raise o e : summary_value o = Raise e -> summary_failed o = true.
Proof.
  destruct o as [content|e']; cbn; [|reflexivity].
  destruct (long_enough content); [discriminate | reflexivity].
Qed.

Lemma count_summary_snoc tr language source :
  count_if is_summary (tr ++ [EvSummary language source])
  = S (count_if is_summary tr).
Proof. rewrite count_if_app. cbn. lia. Qed.

Lemma summary_with_retry_run w release_notes language st :
  skips_summary release_notes = false ->
  let n := count_if is_summary (trace st) in
  get_openrouter_summary_with_retry w release_notes language st
  = (summary_value (w_ai w (n + summary_attempts w n - 1)),
     RunState
       (trace st
          ++ repeat (EvSummary language (prompt_source release_notes))
               (summary_attempts w n))
       (drawn st)).
Proof.
  intros Hs n. unfold get_openrouter_summary_with_retry, retrying, catch.
  unfold summary_attempts.
  rewrite (summary_attempt_run _ _ _ _ Hs). fold n.
  destruct (summary_value (w_ai w n)) as [s0|e0] eqn:E0.
  { rewrite (summary_value_ok _ _ E0). cbn [attempts_table repeat].
    replace (n + 1 - 1) with n by lia. now rewrite E0. }
  rewrite (summary_value_raise _ _ E0).
  rewrite (summary_attempt_run _ _ _ _ Hs). cbn [trace drawn].
  rewrite count_summary_snoc. fold n.
  destruct (summary_value (w_ai w (S n))) as [s1|e1] eqn:E1.
  { rewrite (summary_value_ok _ _ E1). cbn [attempts_table repeat].
    replace (n + 2 - 1) with (S n) by lia. rewrite E1.
    now rewrite <- app_assoc. }
  rewrite (summary_value_raise _ _ E1).
  rewrite (summary_attempt_run _ _ _ _ Hs). cbn [trace drawn].
  rewrite !count_summary_snoc. fold n. cbn [attempts_table repeat].
  replace (n + 3 - 1) with (S (S n)) by lia.
  now rewrite <- !app_assoc.
Qed.

(** [get_openrouter_summary] always returns. *)
Lemma get_openrouter_summary_run w release_notes language st :
  let n := count_if is_summary (trace st) in
  get_openrouter_summary w release_notes language st
  = (Ok (summary_text w n (drawn st) release_notes),
     RunState
       (trace st
          ++ repeat (EvSummary language (prompt_source release_notes))
               (summary_calls w n release_notes))
       (drawn st + summary_draws w n release_notes)).
Proof.
  intros n. unfold get_openrouter_summary, summary_text, summary_draws, summary_calls.
  destruct (skips_summary release_notes) eqn:Hs.
  - unfold get_openrouter_summary_with_retry, retrying.
    rewrite (catch_ok _ _ _ _ _ (catch_ok _ _ _ _ _ (summary_attempt_skip _ _ _ _ Hs))).
    cbn [repeat]. rewrite app_nil_r, Nat.add_0_r. now destruct st.
  - unfold catch. rewrite (summary_with_retry_run _ _ _ _ Hs). fold n.
    destruct (summary_value _) as [s|e]; [now rewrite Nat.add_0_r|].
    reflexivity.
Qed.

(** ** Sending: what reaches the sink *)

Lemma count_post_snoc tr text :
  count_if is_post (tr ++ [EvPost text]) = S (count_if is_post tr).
Proof. rewrite count_if_app. cbn. lia. Qed.

Lemma send_chunks_run w chunks :
  forall st,
    send_chunks w chunks st
    = (send_outcome w (count_if is_post (trace st)) chunks,
       RunState
         (trace st
            ++ map EvPost
                 (take (posts_made w (count_if is_post (trace st)) chunks) chunks))
         (drawn st)).
Proof.
  induction chunks as [|chunk rest IH]; intros st.
  - cbn. rewrite app_nil_r. now destruct st.
  - cbn [send_chunks send_outcome posts_made]. unfold bind at 1, http_post.
    destruct (w_post w (count_if is_post (trace st))) as [r|msg] eqn:E;
      cbn [post_ok post_exn].
    + unfold raise_for_status. destruct (is_success (status_code r)).
      * unfold bind, ret. rewrite IH. cbn [trace drawn].
        rewrite count_post_snoc. cbn [take map]. now rewrite <- app_assoc.
      * reflexivity.
    + reflexivity.
Qed.

Lemma posts_made_le w chunks : forall n, posts_made w n chunks <= length chunks.
Proof.
  induction chunks as [|c rest IH]; intros n; cbn; [lia|].
  destruct (post_ok _); [specialize (IH (S n))|]; lia.
Qed.

Lemma posts_made_pos w n chunks : chunks <> [] -> 1 <= posts_made w n chunks.
Proof. destruct chunks; [congruence|]. cbn. destruct (post_ok _); lia. Qed.

Lemma send_outcome_ok w chunks :
  forall n, send_outcome w n chunks = Ok tt ->
            posts_made w n chunks = length chunks.
Proof.
  induction chunks as [|c rest IH]; intros n; cbn; [reflexivity|].
  destruct (post_ok _); [|discriminate]. intros H. now rewrite (IH _ H).
Qed.

Lemma send_outcome_accepted w chunks :
  sink_accepts w -> forall n, send_outcome w n chunks = Ok tt.
Proof.
  intros Hw. induction chunks as [|c rest IH]; intros n; cbn; [reflexivity|].
  now rewrite Hw.
Qed.

Lemma send_telegram_message_run w message st :
  let chunks :=
    split_message_markdown (uuid_supply w st) message TELEGRAM_MAX_MESSAGE_LENGTH in
  send_telegram_message w message st
  = (send_outcome w (count_if is_post (trace st)) chunks,
     RunState
       (trace st
          ++ map EvPost
               (take (posts_made w (count_if is_post (trace st)) chunks) chunks))
       (drawn st)).
Proof. unfold send_telegram_message. apply send_chunks_run. Qed.

Lemma send_error_notification_run w error_msg st :
  let chunks := notification_chunks w (drawn st) error_msg in
  send_error_notification w error_msg st
  = (Ok tt,
     RunState
       (trace st
          ++ map EvPost
               (take (posts_made w (count_if is_post (trace st)) chunks) chunks))
       (drawn st + link_count error_msg + link_count (w_now w))).
Proof.
  intros chunks. unfold send_error_notification, catch, bind at 1.
  unfold escape_markdown_v2_m at 1. unfold bind at 1.
  unfold escape_markdown_v2_m at 1. cbn [trace drawn].
  rewrite send_telegram_message_run. cbn [trace drawn].
  unfold uuid_supply. cbn [drawn]. fold (notification_chunks w (drawn st) error_msg).
  fold chunks. destruct (send_outcome _ _ _) as [[]|e]; reflexivity.
Qed.

(** A message with content gives at least one chunk. *)
Lemma split_nonempty uuid4_hex text max_length :
  content text <> [] -> split_message_markdown uuid4_hex text max_length <> [].
Proof.
  intros Hc. unfold split_message_markdown.
  destruct (len text <=? max_length)%Z; [discriminate|].
  assert (Hp : pack_chunks text max_length <> []).
  { intros E. apply Hc. now rewrite <- (pack_chunks_content text max_length), E. }
  destruct (1 <? length (pack_chunks text max_length)); [|exact Hp].
  intros E. apply (f_equal (@length _)) in E.
  rewrite add_indicators_length in E. destruct (pack_chunks text max_length);
    [contradiction | discriminate].
Qed.

(** ** Computations that make no call of a given kind *)

Lemma quiet_ret {A} p (a : A) : quiet p (ret a).
Proof. intros st. exists []. cbn. now rewrite app_nil_r. Qed.

Lemma quiet_raise {A} p e : quiet p (@raise A e).
Proof. intros st. exists []. cbn. now rewrite app_nil_r. Qed.

Lemma quiet_bind {A B} p (m : M A) (f : A -> M B) :
  quiet p m -> (forall a, quiet p (f a)) -> quiet p (bind m f).
Proof.
  intros Hm Hf st. destruct (Hm st) as (evs & E & C). unfold bind.
  destruct (m st) as [[a|e] st1]; cbn [snd] in *.
  - destruct (Hf a st1) as (evs' & E' & C'). exists (evs ++ evs').
    rewrite E', E, <- app_assoc, count_if_app. split; [reflexivity | lia].
  - now exists evs.
Qed.

Lemma quiet_catch {A} p (m : M A) h :
  quiet p m -> (forall e, quiet p (h e)) -> quiet p (catch m h).
Proof.
  intros Hm Hh st. destruct (Hm st) as (evs & E & C). unfold catch.
  destruct (m st) as [[a|e] st1]; cbn [snd] in *.
  - now exists evs.
  - destruct (Hh e st1) as (evs' & E' & C'). exists (evs ++ evs').
    rewrite E', E, <- app_assoc, count_if_app. split; [reflexivity | lia].
Qed.

Lemma quiet_retrying {A} p (m : M A) n : quiet p m -> quiet p (retrying n m).
Proof.
  intros Hm. induction n as [|n IH]; [exact Hm|].
  cbn [retrying]. apply quiet_catch; [exact Hm | intros _; exact IH].
Qed.

Lemma quiet_event {A} p (e : event) (f : run_state -> A) :
  p e = false ->
  quiet p (fun st => (Ok (f st), RunState (trace st ++ [e]) (drawn st))).
Proof.
  intros H st. exists [e]. split; [reflexivity|].
  unfold count_if. cbn [List.filter]. now rewrite H.
Qed.

Lemma quiet_escape p w text : quiet p (escape_markdown_v2_m w text).
Proof. intros st. exists []. cbn. now rewrite app_nil_r. Qed.

Lemma quiet_raise_for_status p r : quiet p (raise_for_status r).
Proof.
  unfold raise_for_status. destruct (is_success _);
    [apply quiet_ret | apply quiet_raise].
Qed.

Lemma quiet_send_chunks p w chunks :
  (forall t, p (EvPost t) = false) -> quiet p (send_chunks w chunks).
Proof.
  intros Hp. induction chunks as [|c rest IH]; cbn [send_chunks].
  - apply quiet_ret.
  - apply quiet_bind.
    + unfold http_post. apply (quiet_event p (EvPost c)). apply Hp.
    + intros [r|msg]; [|apply quiet_raise].
      apply quiet_bind; [apply quiet_raise_for_status | intros _; exact IH].
Qed.

Lemma quiet_send p w message :
  (forall t, p (EvPost t) = false) -> quiet p (send_telegram_message w message).
Proof.
  intros Hp st. unfold send_telegram_message.
  apply (quiet_send_chunks p w _ Hp).
Qed.

Lemma quiet_notify p w error_msg :
  (forall t, p (EvPost t) = false) -> quiet p (send_error_notification w error_msg).
Proof.
  intros Hp. unfold send_error_notification.
  apply quiet_catch; [|intros _; apply quiet_ret].
  apply quiet_bind; [apply quiet_escape | intros m].
  apply quiet_bind; [apply quiet_escape | intros t].
  now apply quiet_send.
Qed.

Lemma quiet_summary p w release_notes language :
  (forall l s, p (EvSummary l s) = false) ->
  quiet p (get_openrouter_summary w release_notes language).
Proof.
  intros Hp. unfold get_openrouter_summary.
  apply quiet_catch; [|intros _; apply quiet_escape].
  apply quiet_retrying. unfold summary_attempt.
  destruct (_ || _); [apply quiet_ret|]. cbv zeta.
  apply quiet_bind.
  - unfold completions_create. apply (quiet_event p (EvSummary _ _)). apply Hp.
  - intros [content|e]; [|apply quiet_raise].
    destruct (_ && _); [apply quiet_ret | apply quiet_raise].
Qed.

Lemma quiet_repo_exists p w : p EvHead = false -> quiet p (repo_exists w).
Proof.
  intros Hp. unfold repo_exists. apply quiet_catch; [|intros _; apply quiet_ret].
  apply quiet_bind.
  - unfold http_head. now apply (quiet_event p EvHead).
  - intros [r|msg]; [apply quiet_ret | apply quiet_raise].
Qed.

Lemma check_release_unfold w repo_name last_seen_id :
  check_release w repo_name last_seen_id
  = bind (fetch_release w) (after_fetch w repo_name last_seen_id).
Proof. reflexivity. Qed.

Lemma check_repo_unfold w repo_name repo_path last_seen_id :
  check_repo_for_updates w repo_name repo_path last_seen_id
  = catch (check_release w repo_name last_seen_id)
      (on_exception w repo_name repo_path).
Proof. reflexivity. Qed.

Lemma quiet_after_fetch w repo_name last_seen_id response :
  quiet is_get (after_fetch w repo_name last_seen_id response).
Proof.
  unfold after_fetch.
  apply quiet_bind; [apply quiet_raise_for_status | intros _].
  destruct (json response) as [rel|err]; [|apply quiet_raise].
  destruct (bool_decide _); [apply quiet_ret|]. cbv zeta.
  apply quiet_bind; [now apply quiet_summary | intros s].
  apply quiet_bind; [apply quiet_escape | intros e1].
  apply quiet_bind; [apply quiet_escape | intros e2].
  apply quiet_bind; [apply quiet_escape | intros e3].
  apply quiet_bind; [now apply quiet_send | intros _; apply quiet_ret].
Qed.

Lemma quiet_on_exception p w repo_name repo_path e :
  p EvHead = false -> (forall t, p (EvPost t) = false) ->
  quiet p (on_exception w repo_name repo_path e).
Proof.
  intros Hh Hp. unfold on_exception. destruct e as [resp|s|msg].
  - destruct (_ =? _)%Z; [|apply quiet_ret].
    apply quiet_bind; [now apply quiet_repo_exists | intros [|]].
    + apply quiet_ret.
    + apply quiet_bind; [now apply quiet_notify | intros _; apply quiet_ret].
  - apply quiet_bind; [now apply quiet_notify | intros _; apply quiet_ret].
  - apply quiet_bind; [now apply quiet_notify | intros _; apply quiet_ret].
Qed.

(** The task never raises. *)
Lemma on_exception_returns w repo_name repo_path e st :
  fst (on_exception w repo_name repo_path e st) = Ok None.
Proof.
  unfold on_exception. destruct e as [resp|s|msg].
  - destruct (_ =? _)%Z; [|reflexivity].
    unfold bind at 1, repo_exists, catch, bind at 1, http_head.
    destruct (w_head w _) as [r|m]; cbn.
    + destruct (_ =? _)%Z; [reflexivity|].
      unfold bind. rewrite send_error_notification_run. reflexivity.
    + unfold bind. rewrite send_error_notification_run. reflexivity.
  - unfold bind. rewrite send_error_notification_run. reflexivity.
  - unfold bind. rewrite send_error_notification_run. reflexivity.
Qed.

(** The GETs of a task are those of the fetch. *)
Lemma task_gets w repo_name repo_path last_id :
  count_if is_get (snd (run_task w repo_name repo_path last_id))
  = fetch_attempts w.
Proof.
  unfold run_task. rewrite check_repo_unfold, check_release_unfold.
  unfold catch, bind. rewrite fetch_release_start.
  assert (G : count_if is_get (repeat EvGet (fetch_attempts w)) = fetch_attempts w)
    by now rewrite count_if_repeat.
  destruct (attempt_outcome _) as [r|e].
  - destruct (quiet_after_fetch w repo_name last_id r
                (RunState (repeat EvGet (fetch_attempts w)) 0)) as (evs & E & C).
    destruct (after_fetch _ _ _ _ _) as [[a|e] st1]; cbn [snd trace] in *.
    + rewrite E, count_if_app. lia.
    + destruct (quiet_on_exception is_get w repo_name repo_path e eq_refl
                  (fun _ => eq_refl) st1) as (evs' & E' & C').
      destruct (on_exception _ _ _ _ _) as [[a|e'] st2]; cbn [snd trace] in *;
        rewrite E', E, !count_if_app; lia.
  - destruct (quiet_on_exception is_get w repo_name repo_path e eq_refl
                (fun _ => eq_refl)
                (RunState (repeat EvGet (fetch_attempts w)) 0)) as (evs' & E' & C').
    destruct (on_exception _ _ _ _ _) as [[a|e'] st2]; cbn [snd trace] in *;
      rewrite E', !count_if_app; lia.
Qed.

(** ** Retrying: the two call paths *)

(** C5, as stated, fails: on the summary path a 403 is retried.  The
    summary source is called three times before the fallback is used. *)
Lemma summary_retries_forbidden :
  w_ai forbidden_world 0 = AIFailed (APIStatusError 403)
  /\ count_if is_summary
       (trace (snd (get_openrouter_summary forbidden_world (lit "notes") [] start)))
     = 3
  /\ count_if is_summary
       (trace (snd (get_openrouter_summary forbidden_world (lit "notes") [] start)))
     <> 1.
Proof.
  split; [reflexivity|]. split; [vm_compute; reflexivity|].
  vm_compute. discriminate.
Qed.

(** C5, amended.  The release-fetch call is attempted again only after a
    transport failure or a status of 500 or more, three times at most: a
    403 and every other status below 500 end it after one attempt.  The
    summary call is attempted again after every failure, a 403 and any
    other client error included, three times at most. *)
Theorem retry_tables w repo_name repo_path last_id release_notes language :
  count_if is_get (snd (run_task w repo_name repo_path last_id))
  = attempts_table (retryable (w_get w 0)) (retryable (w_get w 1))
  /\ count_if is_summary
       (trace (snd (get_openrouter_summary w release_notes language start)))
     = (if skips_summary release_notes then 0
        else attempts_table (summary_failed (w_ai w 0))
               (summary_failed (w_ai w 1)))
  /\ (forall status payload,
        retryable (Responded (Response status payload)) = (500 <=? status)%Z)
  /\ (forall msg, retryable (TransportFailed msg) = true)
  /\ (forall e, summary_failed (AIFailed e) = true).
Proof.
  split; [apply task_gets|]. split; [|repeat split].
  rewrite get_openrouter_summary_run. cbn [snd trace start app].
  rewrite count_if_repeat. reflexivity.
Qed.

(** ** A 404 from the release source *)

Lemma repo_exists_run w st :
  repo_exists w st
  = (Ok (head_found (w_head w (count_if is_head (trace st)))),
     RunState (trace st ++ [EvHead]) (drawn st)).
Proof.
  unfold repo_exists, catch, bind, http_head.
  destruct (w_head w _) as [r|msg]; reflexivity.
Qed.

Lemma not_success_404 : is_success 404 = false.
Proof. reflexivity. Qed.

Lemma task_on_404 w repo_name repo_path last_id r :
  w_get w 0 = Responded r ->
  status_code r = 404%Z ->
  let chunks := notification_chunks w 0 (not_found_text repo_name repo_path) in
  run_task w repo_name repo_path last_id
  = (Returned None,
     [EvGet; EvHead]
       ++ (if head_found (w_head w 0) then []
           else map EvPost (take (posts_made w 0 chunks) chunks))).
Proof.
  intros Hget Hst chunks. unfold run_task.
  rewrite check_repo_unfold, check_release_unfold. unfold catch, bind at 1.
  rewrite fetch_release_start.
  assert (Hk : fetch_attempts w = 1).
  { unfold fetch_attempts. rewrite Hget. cbn [retryable]. rewrite Hst. reflexivity. }
  rewrite Hk. cbn [Nat.sub repeat]. rewrite Hget. cbn [attempt_outcome].
  rewrite Hst. cbn [Z.leb Z.compare Pos.compare Pos.compare_cont].
  unfold after_fetch, bind at 1, raise_for_status. rewrite Hst, not_success_404.
  cbn [raise]. unfold on_exception. rewrite Hst. cbn [Z.eqb Pos.eqb].
  unfold bind at 1. rewrite repo_exists_run. cbn [trace drawn count_if List.filter length app is_head].
  destruct (head_found (w_head w 0)).
  - reflexivity.
  - unfold bind. rewrite send_error_notification_run. cbn [trace drawn].
    reflexivity.
Qed.

Lemma content_error_message m t : content (error_message m t) <> [].
Proof. unfold error_message, ERR_TITLE. cbn. discriminate. Qed.

Lemma notification_chunks_nonempty w d error_msg :
  notification_chunks w d error_msg <> [].
Proof. unfold notification_chunks. apply split_nonempty, content_error_message. Qed.

Lemma all_sent w n chunks : all_sent_if_accepted w n chunks.
Proof. intros Hw. apply send_outcome_ok, send_outcome_accepted, Hw. Qed.

(** C6.  A 404 as the first answer of the release source: the GET is not
    repeated; one HEAD asks for the repository itself; the task returns
    no update.  After a 200 nothing is sent to the sink.  After any other
    answer, or none, the chunks of the notification that the repository
    was not found are posted to the sink: at least the first, and all of
    them when the sink accepts them. *)
Theorem not_found_handling w repo_name repo_path last_id r :
  w_get w 0 = Responded r ->
  status_code r = 404%Z ->
  let chunks := notification_chunks w 0 (not_found_text repo_name repo_path) in
  let tr := snd (run_task w repo_name repo_path last_id) in
  fst (run_task w repo_name repo_path last_id) = Returned None
  /\ count_if is_get tr = 1
  /\ count_if is_head tr = 1
  /\ posts tr
     = (if head_found (w_head w 0) then []
        else take (posts_made w 0 chunks) chunks)
  /\ 1 <= posts_made w 0 chunks
  /\ all_sent_if_accepted w 0 chunks.
Proof.
  intros Hget Hst chunks tr. subst tr.
  rewrite (task_on_404 w repo_name repo_path last_id r Hget Hst).
  cbn [fst snd]. fold chunks.
  split; [reflexivity|].
  rewrite !count_if_app, posts_app.
  destruct (head_found (w_head w 0)).
  - repeat split; try reflexivity.
    + apply posts_made_pos, notification_chunks_nonempty.
    + apply all_sent.
  - assert (Hq : forall p l, (forall t, p (EvPost t) = false) ->
                             count_if p (map EvPost l) = 0).
    { intros p l Hp. unfold count_if. induction l as [|x l IH]; [reflexivity|].
      cbn [map List.filter]. now rewrite Hp. }
    rewrite !Hq by reflexivity. rewrite posts_map_post.
    repeat split; try reflexivity.
    + apply posts_made_pos, notification_chunks_nonempty.
    + apply all_sent.
Qed.

Lemma not_found_handling_witness :
  w_get missing_repo_world 0 = Responded (plain_response 404)
  /\ status_code (plain_response 404) = 404%Z
  /\ fst (run_task missing_repo_world (lit "repo") (lit "o/r") None)
     = Returned None
  /\ count_if is_get (snd (run_task missing_repo_world (lit "repo") (lit "o/r") None))
     = 1.
Proof.
  split; [reflexivity|]. split; [reflexivity|].
  pose proof (not_found_handling missing_repo_world (lit "repo") (lit "o/r") None
                (plain_response 404) eq_refl eq_refl) as H.
  cbv zeta in H. destruct H as (H1 & H2 & _). split; assumption.
Defined.

(** ** A new release *)

Lemma count_gets_only p n : p EvGet = false -> count_if p (repeat EvGet n) = 0.
Proof. intros H. now rewrite count_if_repeat, H. Qed.

(** The [try] block on a release that is not the one last seen. *)
Lemma check_release_new w repo_name last_seen_id rel :
  fetches w rel ->
  Some (rel_id rel) <> last_seen_id ->
  let chunks := announcement_chunks w repo_name rel in
  check_release w repo_name last_seen_id start
  = (match send_outcome w 0 chunks with
     | Ok _ => Ok (Some (rel_id rel))
     | Raise e => Raise e
     end,
     RunState
       (repeat EvGet (fetch_attempts w) ++ summary_events w rel
          ++ map EvPost (take (posts_made w 0 chunks) chunks))
       (summary_draws w 0 (body_or_default (body rel))
          + announcement_draws repo_name rel)).
Proof.
  intros (r & Hr & Hs & Hj) Hne chunks.
  rewrite check_release_unfold. unfold bind at 1.
  rewrite fetch_release_start, Hr.
  unfold after_fetch, bind at 1, raise_for_status. rewrite Hs. cbn [ret].
  rewrite Hj. rewrite bool_decide_eq_false_2 by exact Hne. cbv zeta.
  unfold bind at 1. rewrite get_openrouter_summary_run. cbn [trace drawn].
  rewrite (count_gets_only is_summary) by reflexivity. cbn [Nat.add].
  unfold bind at 1, escape_markdown_v2_m at 1.
  unfold bind at 1, escape_markdown_v2_m at 1.
  unfold bind at 1, escape_markdown_v2_m at 1.
  cbn [trace drawn]. unfold bind at 1.
  rewrite send_telegram_message_run. cbn [trace drawn].
  rewrite count_if_app, (count_gets_only is_post) by reflexivity.
  replace (count_if is_post (repeat _ _)) with 0
    by (now rewrite count_if_repeat).
  cbn [Nat.add]. unfold uuid_supply. cbn [drawn].
  fold (date_of rel).
  set (d := summary_draws w 0 (body_or_default (body rel))).
  assert (E : split_message_markdown
                (fun i => w_uuid w
                   (d + link_count repo_name + link_count (tag_name rel)
                    + link_count (take 10 (date_of rel)) + i))
                (release_message
                   (escape_markdown_v2 (fun i => w_uuid w (d + i)) repo_name)
                   (escape_markdown_v2
                      (fun i => w_uuid w (d + link_count repo_name + i))
                      (tag_name rel))
                   (if prerelease rel then PRE_RELEASE_TAG else [])
                   (escape_markdown_v2
                      (fun i => w_uuid w
                         (d + link_count repo_name + link_count (tag_name rel) + i))
                      (take 10 (date_of rel)))
                   (summary_text w 0 0 (body_or_default (body rel)))
                   (html_url rel))
                TELEGRAM_MAX_MESSAGE_LENGTH
              = chunks).
  { reflexivity. }
  rewrite E. unfold summary_events.
  replace (d + link_count repo_name + link_count (tag_name rel)
           + link_count (take 10 (date_of rel)))
    with (d + announcement_draws repo_name rel)
    by (unfold announcement_draws; lia).
  destruct (send_outcome w 0 chunks) as [[]|e]; cbn [ret];
    now rewrite <- !app_assoc.
Qed.

Lemma content_release_message a b c d s u :
  content (release_message a b c d s u) <> [].
Proof. unfold release_message, message_head, HDR_NEW_RELEASE. cbn. discriminate. Qed.

Lemma announcement_chunks_nonempty w repo_name rel :
  announcement_chunks w repo_name rel <> [].
Proof.
  unfold announcement_chunks, announcement. cbv zeta.
  apply split_nonempty, content_release_message.
Qed.

(** The release last seen: nothing is sent. *)
Lemma task_same_release w repo_name repo_path last_seen_id rel :
  fetches w rel ->
  Some (rel_id rel) = last_seen_id ->
  run_task w repo_name repo_path last_seen_id
  = (Returned None, repeat EvGet (fetch_attempts w)).
Proof.
  intros (r & Hr & Hs & Hj) He. unfold run_task.
  rewrite check_repo_unfold, check_release_unfold. unfold catch, bind at 1.
  rewrite fetch_release_start, Hr.
  unfold after_fetch, bind at 1, raise_for_status. rewrite Hs. cbn [ret].
  rewrite Hj. rewrite bool_decide_eq_true_2 by exact He. reflexivity.
Qed.

(** Another release: the announcement is posted, and the task returns
    the new id exactly when every chunk was accepted. *)
Lemma task_new_release w repo_name repo_path last_seen_id rel :
  fetches w rel ->
  Some (rel_id rel) <> last_seen_id ->
  let chunks := announcement_chunks w repo_name rel in
  exists result more,
    run_task w repo_name repo_path last_seen_id
    = (Returned result,
       repeat EvGet (fetch_attempts w) ++ summary_events w rel
         ++ map EvPost (take (posts_made w 0 chunks) chunks) ++ more)
    /\ count_if fetch_or_summary more = 0
    /\ match send_outcome w 0 chunks with
       | Ok _ => result = Some (rel_id rel) /\ more = []
       | Raise _ => result = None
       end.
Proof.
  intros Hf Hne chunks. unfold run_task. rewrite check_repo_unfold.
  unfold catch. rewrite (check_release_new _ _ _ _ Hf Hne). fold chunks.
  destruct (send_outcome w 0 chunks) as [[]|e].
  - exists (Some (rel_id rel)), []. cbn [trace]. now rewrite app_nil_r.
  - match goal with |- context [on_exception ?w ?a ?b ?e ?st] =>
      pose proof (on_exception_returns w a b e st) as Hr;
      destruct (quiet_on_exception fetch_or_summary w a b e eq_refl
                  (fun _ => eq_refl) st) as (evs & E & C);
      destruct (on_exception w a b e st) as [o st1]
    end.
    cbn [fst snd trace] in *. subst o. exists None, evs.
    rewrite E, <- !app_assoc.
    split; [reflexivity | split; [exact C | reflexivity]].
Qed.

(** ** The coordinator *)

(** The entry of a repository after its result is committed. *)
Lemma commit_other new_state repo_name result name :
  repo_name <> name ->
  commit new_state repo_name result !! name = new_state !! name.
Proof.
  intros Hne. unfold commit. destruct result as [e|[id|]]; try reflexivity.
  destruct (truthy _); [|reflexivity]. now rewrite lookup_insert_ne.
Qed.

Lemma commit_same new_state name result :
  commit new_state name result !! name
  = match result with
    | Returned (Some release_id) =>
        if (release_id =? 0)%Z then new_state !! name else Some release_id
    | _ => new_state !! name
    end.
Proof.
  unfold commit. destruct result as [e|[id|]]; try reflexivity.
  cbn [truthy]. destruct (id =? 0)%Z; cbn [negb]; [reflexivity|].
  now rewrite lookup_insert_eq.
Qed.

Lemma commit_all_other net current_state name repos :
  forall new_state,
    ~ In name (map fst repos) ->
    commit_all (map (task_of net current_state) repos) new_state !! name
    = new_state !! name.
Proof.
  unfold commit_all.
  induction repos as [|[n p] repos IH]; intros new_state Hn; [reflexivity|].
  cbn [map fold_left task_of fst snd] in *.
  assert (H1 : n <> name) by (intros ->; apply Hn; now left).
  assert (H2 : ~ In name (map fst repos)) by (intros H; apply Hn; now right).
  rewrite IH by exact H2. now apply commit_other.
Qed.

Lemma commit_all_same net current_state name path repos :
  forall new_state,
    List.NoDup (map fst repos) ->
    In (name, path) repos ->
    commit_all (map (task_of net current_state) repos) new_state !! name
    = commit new_state name
        (fst (run_task (net name) name path (current_state !! name))) !! name.
Proof.
  induction repos as [|[n p] repos IH]; intros new_state Hnd Hin; [destruct Hin|].
  cbn [map fst] in Hnd. apply List.NoDup_cons_iff in Hnd as [Hn Hnd].
  destruct Hin as [[= -> ->]|Hin].
  - unfold commit_all in *. cbn [map fold_left task_of fst snd].
    now rewrite (commit_all_other net current_state name repos).
  - assert (n <> name).
    { intros ->. apply Hn. apply in_map_iff. now exists (name, path). }
    unfold commit_all in *. cbn [map fold_left task_of fst snd].
    rewrite IH by assumption.
    rewrite !commit_same. now rewrite commit_other.
Qed.

Lemma main_state repos net current_state :
  fst (main repos net current_state)
  = commit_all (map (task_of net current_state) repos) current_state.
Proof. destruct repos; reflexivity. Qed.

Lemma main_traces repos net current_state :
  snd (main repos net current_state)
  = map (fun t => (fst t, snd (snd t))) (map (task_of net current_state) repos).
Proof. destruct repos; reflexivity. Qed.

(** The entry of a monitored repository after a run, and its calls. *)
Lemma main_entry repos net current_state name path :
  List.NoDup (map fst repos) ->
  In (name, path) repos ->
  fst (main repos net current_state) !! name
  = commit current_state name
      (fst (run_task (net name) name path (current_state !! name))) !! name
  /\ In (name, snd (run_task (net name) name path (current_state !! name)))
       (snd (main repos net current_state)).
Proof.
  intros Hnd Hin. rewrite main_state, main_traces. split.
  - now apply commit_all_same.
  - rewrite map_map. apply in_map_iff. exists (name, path). now split.
Qed.

Lemma posts_of_task k evs sent more :
  count_if is_post evs = 0 ->
  posts (repeat EvGet k ++ evs ++ map EvPost sent ++ more) = sent ++ posts more.
Proof.
  intros He. rewrite !posts_app, posts_map_post.
  rewrite (posts_none (repeat EvGet k)) by now rewrite count_if_repeat.
  now rewrite (posts_none evs He).
Qed.

Lemma summary_events_no_post w rel : count_if is_post (summary_events w rel) = 0.
Proof. unfold summary_events. now rewrite count_if_repeat. Qed.

(** X22.  The release last seen: the run posts nothing for the
    repository and its entry stays. *)
Lemma unchanged_release_rule repos net current_state name path rel :
  List.NoDup (map fst repos) ->
  In (name, path) repos ->
  fetches (net name) rel ->
  current_state !! name = Some (rel_id rel) ->
  fst (main repos net current_state) !! name = current_state !! name
  /\ exists tr, In (name, tr) (snd (main repos net current_state)) /\ posts tr = [].
Proof.
  intros Hnd Hin Hf Hsame.
  destruct (main_entry repos net current_state name path Hnd Hin) as [E T].
  rewrite (task_same_release _ _ _ _ _ Hf (eq_sym Hsame)) in E, T.
  cbn [fst snd] in E, T. split.
  - now rewrite E, commit_same.
  - eexists. split; [exact T|]. apply posts_none. now rewrite count_if_repeat.
Qed.

(** X23.  Another release, not numbered 0, and a sink that accepts:
    exactly the chunks of one announcement are posted and the entry is
    the new id. *)
Lemma new_release_rule repos net current_state name path rel :
  List.NoDup (map fst repos) ->
  In (name, path) repos ->
  fetches (net name) rel ->
  current_state !! name <> Some (rel_id rel) ->
  rel_id rel <> 0%Z ->
  sink_accepts (net name) ->
  fst (main repos net current_state) !! name = Some (rel_id rel)
  /\ exists tr,
       In (name, tr) (snd (main repos net current_state))
       /\ posts tr = announcement_chunks (net name) name rel.
Proof.
  intros Hnd Hin Hf Hne Hnz Hacc.
  destruct (main_entry repos net current_state name path Hnd Hin) as [E T].
  destruct (task_new_release (net name) name path (current_state !! name) rel Hf
              (fun H => Hne (eq_sym H))) as (result & more & Hrun & _ & Hres).
  cbv zeta in Hrun, Hres.
  rewrite (send_outcome_accepted _ _ Hacc) in Hres. destruct Hres as [-> ->].
  rewrite Hrun in E, T. cbn [fst snd] in E, T. split.
  - rewrite E, commit_same. destruct (Z.eqb_spec (rel_id rel) 0); congruence.
  - eexists. split; [exact T|].
    rewrite posts_of_task by apply summary_events_no_post.
    rewrite (send_outcome_ok _ _ _ (send_outcome_accepted _ _ Hacc 0)).
    cbn [posts]. now rewrite app_nil_r, firstn_all.
Qed.

(** X24.  An entry changes only after every chunk of the announcement
    was accepted by the sink. *)
Lemma entry_changes_after_send repos net current_state name path rel :
  List.NoDup (map fst repos) ->
  In (name, path) repos ->
  fetches (net name) rel ->
  fst (main repos net current_state) !! name <> current_state !! name ->
  send_outcome (net name) 0 (announcement_chunks (net name) name rel) = Ok tt.
Proof.
  intros Hnd Hin Hf Hch.
  destruct (main_entry repos net current_state name path Hnd Hin) as [E _].
  destruct (decide (Some (rel_id rel) = current_state !! name)) as [Hs|Hne].
  - rewrite (task_same_release _ _ _ _ _ Hf Hs) in E. cbn [fst] in E.
    rewrite commit_same in E. congruence.
  - destruct (task_new_release (net name) name path (current_state !! name) rel Hf
                Hne) as (result & more & Hrun & _ & Hres).
    cbv zeta in Hrun, Hres. rewrite Hrun in E. cbn [fst] in E.
    destruct (send_outcome _ _ _) as [[]|e]; [reflexivity|].
    subst result. rewrite commit_same in E. congruence.
Qed.

(** ** A release numbered 0 *)

(** C7 (the code departs from the claim).  Stored id 100, fetched id 0:
    one announcement is posted and accepted, the task returns the id 0,
    and the new state still holds 100. *)
Theorem zero_id_not_stored :
  fst (run_task zero_world (lit "repo") (lit "o/r") (Some 100%Z))
  = Returned (Some 0%Z)
  /\ length (posts (snd (run_task zero_world (lit "repo") (lit "o/r") (Some 100%Z))))
     = 1
  /\ fst (main [(lit "repo", lit "o/r")] (fun _ => zero_world)
            {[ lit "repo" := 100%Z ]}) !! lit "repo"
     = Some 100%Z.
Proof.
  split; [vm_compute; reflexivity|]. split; [vm_compute; reflexivity|].
  vm_compute. reflexivity.
Qed.

Lemma zero_id_run repos net state name path :
  List.NoDup (map fst repos) ->
  In (name, path) repos ->
  state !! name <> Some 0%Z ->
  reports_zero (net name) ->
  fst (main repos net state) !! name = state !! name
  /\ announced_by name (net name) (snd (main repos net state)).
Proof.
  intros Hnd Hin Hne (rel & Hf & Hz).
  destruct (main_entry repos net state name path Hnd Hin) as [E T].
  assert (Hne' : Some (rel_id rel) <> state !! name) by (rewrite Hz; congruence).
  destruct (task_new_release (net name) name path (state !! name) rel Hf Hne')
    as (result & more & Hrun & _ & Hres).
  cbv zeta in Hrun, Hres. rewrite Hrun in E, T. cbn [fst snd] in E, T. split.
  - rewrite E, commit_same.
    destruct (send_outcome _ _ _) as [[]|e].
    + destruct Hres as [-> _]. now rewrite Hz.
    + now subst result.
  - exists rel. eexists. exists (posts more). split; [exact Hf|].
    split; [exact T|]. split.
    + apply posts_of_task, summary_events_no_post.
    + apply posts_made_pos, announcement_chunks_nonempty.
Qed.

(** C9.  A repository whose release source reports a release numbered 0
    while the stored id is another: the announcement is posted, the
    entry of the repository in the saved state is the one it was, and so
    in every later run the announcement is posted again. *)
Theorem zero_id_is_announced_every_run repos nets state name path :
  List.NoDup (map fst repos) ->
  In (name, path) repos ->
  state !! name <> Some 0%Z ->
  Forall (fun net => reports_zero (net name)) nets ->
  fst (main_runs repos nets state) !! name = state !! name
  /\ Forall2 (fun net run => announced_by name (net name) run)
       nets (snd (main_runs repos nets state)).
Proof.
  intros Hnd Hin Hne Hall. revert state Hne.
  induction Hall as [|net later Hz _ IH]; intros state Hne.
  - split; [reflexivity | constructor].
  - cbn [main_runs fst snd].
    destruct (zero_id_run repos net state name path Hnd Hin Hne Hz) as [E A].
    destruct (IH (fst (main repos net state))) as [E' A'].
    { now rewrite E. }
    split; [now rewrite E', E | now constructor].
Qed.

Lemma zero_world_reports_zero : reports_zero zero_world.
Proof.
  exists release_zero. split; [|reflexivity].
  exists (Response 200 (JRelease release_zero)). repeat split; reflexivity.
Defined.

Lemma zero_id_is_announced_every_run_witness :
  List.NoDup (map fst [(lit "repo", lit "o/r")])
  /\ In (lit "repo", lit "o/r") [(lit "repo", lit "o/r")]
  /\ ({[ lit "repo" := 100%Z ]} : gmap (list N) Z) !! lit "repo" <> Some 0%Z
  /\ Forall (fun net : list N -> world => reports_zero (net (lit "repo")))
       [fun _ => zero_world; fun _ => zero_world]
  /\ fst (main_runs [(lit "repo", lit "o/r")]
            [fun _ => zero_world; fun _ => zero_world]
            {[ lit "repo" := 100%Z ]}) !! lit "repo"
     = ({[ lit "repo" := 100%Z ]} : gmap (list N) Z) !! lit "repo".
Proof.
  assert (H1 : List.NoDup (map fst [(lit "repo", lit "o/r")])).
  { constructor; [intros [] | constructor]. }
  assert (H2 : In (lit "repo", lit "o/r") [(lit "repo", lit "o/r")]) by now left.
  assert (H3 : ({[ lit "repo" := 100%Z ]} : gmap (list N) Z) !! lit "repo"
               <> Some 0%Z).
  { rewrite lookup_singleton_eq. discriminate. }
  assert (H4 : Forall (fun net : list N -> world => reports_zero (net (lit "repo")))
                 [fun _ => zero_world; fun _ => zero_world]).
  { repeat constructor; exact zero_world_reports_zero. }
  repeat (split; [assumption|]).
  exact (proj1 (zero_id_is_announced_every_run _ _ _ _ _ H1 H2 H3 H4)).
Defined.

(** ** A release without description *)

Lemma summary_text_skip w n d release_notes :
  skips_summary release_notes = true ->
  summary_text w n d release_notes = NO_DESCRIPTION
  /\ summary_draws w n release_notes = 0
  /\ summary_calls w n release_notes = 0.
Proof.
  intros H. unfold summary_text, summary_draws, summary_calls. now rewrite H.
Qed.

Lemma body_default b : b = None \/ b = Some [] -> body_or_default b = NO_DESCRIPTION.
Proof. now intros [-> | ->]. Qed.

Lemma unescaped_dot_in_message a b c d u :
  unescaped_at (release_message a b c d NO_DESCRIPTION u)
    (length (message_head a b c d) + 11).
Proof.
  unfold unescaped_at, release_message.
  exists 1103%N, (ch "."). repeat split.
  - rewrite lookup_app_r by lia.
    replace (length (message_head a b c d) + 11 - length (message_head a b c d))
      with 11 by lia.
    reflexivity.
  - discriminate.
  - rewrite lookup_app_r by lia.
    replace (S (length (message_head a b c d) + 11) - length (message_head a b c d))
      with 12 by lia.
    reflexivity.
Qed.

Lemma count_if_weaken (p q : event -> bool) tr :
  (forall e, q e = true -> p e = true) -> count_if p tr = 0 -> count_if q tr = 0.
Proof.
  intros Hpq. unfold count_if. induction tr as [|e tr IH]; [reflexivity|].
  cbn [List.filter]. destruct (p e) eqn:Ep; [discriminate|].
  destruct (q e) eqn:Eq; [|exact IH].
  rewrite (Hpq e Eq) in Ep. discriminate.
Qed.

Lemma count_post_events p l :
  (forall t, p (EvPost t) = false) -> count_if p (map EvPost l) = 0.
Proof.
  intros Hp. unfold count_if. induction l as [|x l IH]; [reflexivity|].
  cbn [map List.filter]. now rewrite Hp.
Qed.

(** C10.  A release whose body is null or empty, and not the release
    last seen: the summary source is never called; the summary put into
    the announcement is the constant itself; the announcement, whose
    chunks are posted, holds its final full stop with no marker before
    it; and an announcement within the limit is posted as it is. *)
Theorem missing_description_is_unescaped w repo_name repo_path last_seen_id rel :
  fetches w rel ->
  body rel = None \/ body rel = Some [] ->
  Some (rel_id rel) <> last_seen_id ->
  let message := announcement w 0 repo_name rel NO_DESCRIPTION in
  let chunks := announcement_chunks w repo_name rel in
  let tr := snd (run_task w repo_name repo_path last_seen_id) in
  count_if is_summary tr = 0
  /\ (exists more,
        posts tr = take (posts_made w 0 chunks) chunks ++ more
        /\ 1 <= posts_made w 0 chunks)
  /\ (exists uuid4_hex,
        chunks = split_message_markdown uuid4_hex message TELEGRAM_MAX_MESSAGE_LENGTH)
  /\ (if (len message <=? TELEGRAM_MAX_MESSAGE_LENGTH)%Z
      then chunks = [message] else True)
  /\ (exists head tail,
        message = head ++ NO_DESCRIPTION ++ tail
        /\ unescaped_at message (length head + 11)).
Proof.
  intros Hf Hb Hne message chunks tr.
  pose proof (body_default _ Hb) as Hd.
  assert (Hskip : skips_summary NO_DESCRIPTION = true) by reflexivity.
  destruct (summary_text_skip w 0 0 NO_DESCRIPTION Hskip) as (Ht & Hdr & Hc).
  assert (Hchunks : exists uuid4_hex,
             chunks = split_message_markdown uuid4_hex message
                        TELEGRAM_MAX_MESSAGE_LENGTH).
  { unfold chunks, announcement_chunks. cbv zeta. rewrite Hd, Ht, Hdr.
    eexists. reflexivity. }
  destruct (task_new_release w repo_name repo_path last_seen_id rel Hf Hne)
    as (result & more & Hrun & Hq & _).
  cbv zeta in Hrun. fold chunks in Hrun. subst tr. rewrite Hrun. cbn [snd].
  assert (Hev : summary_events w rel = []).
  { unfold summary_events. rewrite Hd, Hc. reflexivity. }
  split; [|split; [|split; [|split]]].
  - rewrite Hev, !count_if_app.
    rewrite (count_gets_only is_summary) by reflexivity.
    rewrite (count_post_events is_summary) by reflexivity.
    rewrite (count_if_weaken fetch_or_summary is_summary more); [reflexivity| |exact Hq].
    intros e He. unfold fetch_or_summary. rewrite He. apply orb_true_r.
  - exists (posts more). split.
    + apply posts_of_task, summary_events_no_post.
    + apply posts_made_pos, announcement_chunks_nonempty.
  - exact Hchunks.
  - destruct Hchunks as (uuid4_hex & ->). unfold split_message_markdown.
    destruct (len message <=? TELEGRAM_MAX_MESSAGE_LENGTH)%Z; [reflexivity | exact I].
  - unfold message, announcement. cbv zeta. unfold release_message at 1.
    eexists. eexists. split; [reflexivity|]. apply unescaped_dot_in_message.
Qed.

Lemma missing_description_is_unescaped_witness :
  fetches plain_world release_plain
  /\ (body release_plain = None \/ body release_plain = Some [])
  /\ Some (rel_id release_plain) <> (None : option Z)
  /\ count_if is_summary
       (snd (run_task plain_world (lit "repo") (lit "o/r") None)) = 0.
Proof.
  assert (H1 : fetches plain_world release_plain).
  { exists (Response 200 (JRelease release_plain)). repeat split; reflexivity. }
  assert (H2 : body release_plain = None \/ body release_plain = Some [])
    by (left; reflexivity).
  assert (H3 : Some (rel_id release_plain) <> (None : option Z)) by discriminate.
  repeat (split; [assumption|]).
  exact (proj1 (missing_description_is_unescaped plain_world (lit "repo")
                  (lit "o/r") None release_plain H1 H2 H3)).
Defined.

(** ** The matcher: what a match is *)

Lemma scan_skip m s :
  forall k, k <= length s -> Re.scan m s k = Re.scan m (drop k s) 0.
Proof.
  induction s as [|c r IH]; intros k Hk.
  - destruct k; reflexivity.
  - destruct k as [|k]; [reflexivity|].
    cbn [Re.scan drop]. apply IH. cbn [length] in Hk. lia.
Qed.

(** A match at the head of the text, as [re.sub] goes over it. *)
Lemma scan_match m whole rest g1 :
  whole <> [] ->
  m (whole ++ rest) = Some (g1, rest) ->
  Re.scan m (whole ++ rest) 0
  = Re.Found (Re.Hit whole g1) :: Re.scan m rest 0.
Proof.
  intros Hw Hm. destruct whole as [|c whole']; [contradiction|].
  cbn [app Re.scan]. change (c :: whole' ++ rest) with ((c :: whole') ++ rest).
  rewrite Hm.
  replace (length ((c :: whole') ++ rest) - length rest) with (length (c :: whole'))
    by (rewrite length_app; lia).
  rewrite take_app_length. cbn [length].
  replace (S (length whole') - 1) with (length whole') by lia.
  rewrite scan_skip by (rewrite length_app; lia).
  now rewrite drop_app_length.
Qed.

Lemma scan_no_match m c r :
  m (c :: r) = None -> Re.scan m (c :: r) 0 = Re.Keep c :: Re.scan m r 0.
Proof. intros H. cbn [Re.scan]. now rewrite H. Qed.

Lemma sub_match m repl whole rest g1 :
  whole <> [] ->
  m (whole ++ rest) = Some (g1, rest) ->
  Re.sub m repl (whole ++ rest) = repl (Re.Hit whole g1) ++ Re.sub m repl rest.
Proof.
  intros Hw Hm. unfold Re.sub, Re.sub_with.
  now rewrite (scan_match m whole rest g1 Hw Hm).
Qed.

Lemma sub_no_match m repl c r :
  m (c :: r) = None -> Re.sub m repl (c :: r) = c :: Re.sub m repl r.
Proof.
  intros H. unfold Re.sub, Re.sub_with. now rewrite (scan_no_match m c r H).
Qed.

Section Stars.
Context {A : Type} (p : N -> bool) (k : Re.matcher A).

Lemma star_lazy_sound s :
  forall run a rest,
    Re.star_lazy p k s = Some ((run, a), rest) ->
    exists s', s = run ++ s' /\ Forall (fun c => p c = true) run
               /\ k s' = Some (a, rest).
Proof.
  induction s as [|c r IH]; intros run a rest; cbn [Re.star_lazy].
  - destruct (k []) as [[a0 rest0]|] eqn:E; [|discriminate].
    intros [= <- <- <-]. exists []. now repeat split.
  - destruct (k (c :: r)) as [[a0 rest0]|] eqn:E.
    + intros [= <- <- <-]. exists (c :: r). now repeat split.
    + destruct (p c) eqn:Pc; [|discriminate].
      destruct (Re.star_lazy p k r) as [[[run0 a0] rest0]|] eqn:E'; [|discriminate].
      intros [= <- <- <-].
      destruct (IH _ _ _ eq_refl) as (s' & -> & Hrun & Hk).
      exists s'. repeat split; [now constructor | exact Hk].
Qed.

Lemma star_lazy_complete run :
  forall s' x,
    Forall (fun c => p c = true) run ->
    k s' = Some x ->
    Re.star_lazy p k (run ++ s') <> None.
Proof.
  induction run as [|c run IH]; intros s' x Hrun Hk.
  - cbn [app]. destruct s' as [|c r]; cbn [Re.star_lazy]; rewrite Hk;
      destruct x; discriminate.
  - inversion Hrun as [|? ? Pc Hrun']; subst. cbn [app Re.star_lazy].
    destruct (k (c :: run ++ s')) as [[a0 rest0]|]; [discriminate|].
    rewrite Pc. specialize (IH s' x Hrun' Hk).
    destruct (Re.star_lazy p k (run ++ s')) as [[[run0 a0] rest0]|];
      [discriminate | contradiction].
Qed.

Lemma star_greedy_none s :
  Re.star_greedy p k s = None ->
  forall ws s', Forall (fun c => p c = true) ws -> s = ws ++ s' -> k s' = None.
Proof.
  induction s as [|c r IH]; cbn [Re.star_greedy]; intros H ws s' Hws E.
  - destruct ws; [|discriminate]. cbn in E. subst s'.
    destruct (k []) as [[a rest]|]; [discriminate | reflexivity].
  - destruct (p c) eqn:Pc.
    + destruct (Re.star_greedy p k r) as [[[run a] rest]|] eqn:E'; [discriminate|].
      destruct (k (c :: r)) as [[a rest]|] eqn:Ek; [discriminate|].
      destruct ws as [|c' ws'].
      * cbn in E. now subst s'.
      * injection E as <- ->. inversion Hws; subst. now apply (IH eq_refl ws').
    + destruct (k (c :: r)) as [[a rest]|] eqn:Ek; [discriminate|].
      destruct ws as [|c' ws'].
      * cbn in E. now subst s'.
      * injection E as <- ->. inversion Hws; subst. congruence.
Qed.

Lemma star_greedy_some s :
  forall ws a rest,
    Re.star_greedy p k s = Some ((ws, a), rest) ->
    exists s',
      s = ws ++ s' /\ Forall (fun c => p c = true) ws /\ k s' = Some (a, rest)
      /\ forall extra s2,
           extra <> [] -> Forall (fun c => p c = true) (ws ++ extra) ->
           s = (ws ++ extra) ++ s2 -> k s2 = None.
Proof.
  induction s as [|c r IH]; intros ws a rest; cbn [Re.star_greedy].
  - destruct (k []) as [[a0 rest0]|] eqn:E; [|discriminate].
    intros [= <- <- <-]. exists []. repeat split; [constructor | exact E|].
    intros extra s2 Hne _ E2. destruct extra; [contradiction | discriminate].
  - destruct (p c) eqn:Pc.
    + destruct (Re.star_greedy p k r) as [[[run0 a0] rest0]|] eqn:E'.
      * intros [= <- <- <-].
        destruct (IH _ _ _ eq_refl) as (s' & -> & Hrun & Hk & Hmax).
        exists s'. repeat split; [now constructor | exact Hk|].
        intros extra s2 Hne Hall E2. cbn [app] in Hall, E2.
        injection E2 as E2. inversion Hall; subst.
        now apply (Hmax extra s2).
      * destruct (k (c :: r)) as [[a0 rest0]|] eqn:Ek; [|discriminate].
        intros [= <- <- <-]. exists (c :: r).
        repeat split; [constructor | exact Ek|].
        intros extra s2 Hne Hall E2. cbn [app] in Hall, E2.
        destruct extra as [|c' extra']; [contradiction|].
        injection E2 as <- ->. inversion Hall; subst.
        now apply (star_greedy_none _ E' extra').
    + destruct (k (c :: r)) as [[a0 rest0]|] eqn:Ek; [|discriminate].
      intros [= <- <- <-]. exists (c :: r).
      repeat split; [constructor | exact Ek|].
      intros extra s2 Hne Hall E2. cbn [app] in Hall, E2.
      destruct extra as [|c' extra']; [contradiction|].
      injection E2 as <- ->. inversion Hall; subst. congruence.
Qed.
End Stars.

(** ** The Fallback Summarizer, step by step *)

Lemma not_nl_run run :
  Forall (fun c => is_not nl c = true) run <-> ~ In nl run.
Proof.
  induction run as [|c run IH].
  - split; [intros _ [] | constructor].
  - split.
    + intros H. inversion H as [|? ? Hc Hr]; subst. intros [E|Hin].
      * subst c. unfold is_not in Hc. now rewrite N.eqb_refl in Hc.
      * now apply IH.
    + intros H. constructor.
      * unfold is_not. destruct (N.eqb_spec c nl) as [->|]; [|reflexivity].
        exfalso. apply H. now left.
      * apply IH. intros Hin. apply H. now right.
Qed.

Lemma close_paren_spec s x :
  close_paren s = Some x <-> exists rest, s = ch ")" :: rest /\ x = (tt, rest).
Proof.
  unfold close_paren, Re.chr, Re.done. destruct s as [|c r].
  - split; [discriminate | intros (rest & E & _); discriminate].
  - destruct (N.eqb_spec c (ch ")")) as [->|Hne].
    + split; [intros [= <-]; now exists r | intros (rest & [= ->] & ->); reflexivity].
    + split; [discriminate | intros (rest & [= E _] & _); contradiction].
Qed.

Lemma label_end_sound s url rest :
  label_end s = Some ((url, tt), rest) ->
  s = [ch "]"; ch "("] ++ url ++ [ch ")"] ++ rest /\ ~ In nl url.
Proof.
  unfold label_end, Re.chr. destruct s as [|c1 [|c2 r]]; try discriminate.
  - destruct (N.eqb c1 (ch "]")); discriminate.
  - destruct (N.eqb_spec c1 (ch "]")) as [->|]; [|discriminate].
    destruct (N.eqb_spec c2 (ch "(")) as [->|]; [|discriminate].
    intros H. apply star_lazy_sound in H as (s' & -> & Hrun & Hk).
    apply close_paren_spec in Hk as (rest' & -> & [= <-]).
    split; [reflexivity | now apply not_nl_run].
Qed.

Lemma label_end_complete url rest :
  ~ In nl url ->
  label_end ([ch "]"; ch "("] ++ url ++ [ch ")"] ++ rest) <> None.
Proof.
  intros Hu. unfold label_end, Re.chr. cbn [app]. rewrite !N.eqb_refl.
  apply (star_lazy_complete (is_not nl) close_paren url (ch ")" :: rest) (tt, rest)).
  - now apply not_nl_run.
  - apply close_paren_spec. now exists rest.
Qed.

Lemma lazy_link_unfold s :
  lazy_link_re s
  = match Re.chr (ch "[") (Re.star_lazy (is_not nl) label_end) s with
    | Some ((label, _), rest) => Some (label, rest)
    | None => None
    end.
Proof. reflexivity. Qed.

Lemma lazy_link_sound s label rest :
  lazy_link_re s = Some (label, rest) ->
  exists url, link_occurrence s label url rest.
Proof.
  rewrite lazy_link_unfold. unfold Re.chr at 1.
  destruct s as [|c r]; [discriminate|].
  destruct (N.eqb_spec c (ch "[")) as [->|]; [|discriminate].
  destruct (Re.star_lazy _ _ r) as [[[run [url []]] rest0]|] eqn:E; [|discriminate].
  intros [= <- <-].
  apply star_lazy_sound in E as (s' & -> & Hrun & Hk).
  apply label_end_sound in Hk as (-> & Hu).
  exists url. repeat split; [now apply not_nl_run | exact Hu].
Qed.

Lemma lazy_link_complete s label url rest :
  link_occurrence s label url rest -> lazy_link_re s <> None.
Proof.
  intros (-> & Hl & Hu). rewrite lazy_link_unfold. unfold Re.chr at 1.
  cbn [app]. rewrite N.eqb_refl.
  pose proof (label_end_complete url rest Hu) as Hk.
  destruct (label_end _) as [x|] eqn:Ex; [|contradiction].
  pose proof (star_lazy_complete (is_not nl) label_end label _ x
                (proj2 (not_nl_run label) Hl) Ex) as H.
  destruct (Re.star_lazy _ _ _) as [[[run a] rest0]|]; [discriminate | contradiction].
Qed.

(** The first substitution of the fallback. *)
Lemma strip_links_spec release_notes :
  labels_for_links release_notes (Re.sub lazy_link_re Re.group1 release_notes).
Proof.
  remember (length release_notes) as n eqn:Hn.
  revert release_notes Hn. induction n as [n IH] using lt_wf_ind.
  intros s Hn. destruct s as [|c r].
  - constructor.
  - destruct (lazy_link_re (c :: r)) as [[label rest]|] eqn:E.
    + destruct (lazy_link_sound _ _ _ E) as (url & Hocc).
      pose proof Hocc as (Hs & _ & _).
      set (whole := [ch "["] ++ label ++ [ch "]"; ch "("] ++ url ++ [ch ")"]).
      assert (Hs' : c :: r = whole ++ rest).
      { rewrite Hs. unfold whole. now rewrite <- !app_assoc. }
      rewrite Hs' in E |- *.
      rewrite (sub_match lazy_link_re Re.group1 whole rest label); [|discriminate|exact E].
      cbn [Re.group1]. apply (labels_link _ label url rest).
      * rewrite <- Hs'. exact Hocc.
      * apply (IH (length rest)); [|reflexivity].
        subst n. rewrite Hs'. rewrite length_app. unfold whole. cbn. lia.
    + rewrite (sub_no_match _ _ _ _ E). constructor.
      * intros label url rest Hocc. now apply (lazy_link_complete _ _ _ _ Hocc).
      * apply (IH (length r)); [subst n; cbn; lia | reflexivity].
Qed.

Lemma strip_markers_spec s :
  Re.sub (class_re markup_markers) (fun _ => []) s = without_markers s.
Proof.
  rewrite sub_class. unfold without_markers.
  induction s as [|c r IH]; [reflexivity|].
  cbn [flat_map List.filter]. destruct (elem c markup_markers); cbn [negb app];
    now rewrite IH.
Qed.

Lemma star_nl_done s :
  exists run rest,
    Re.star_greedy (N.eqb nl) Re.done s = Some ((run, tt), rest)
    /\ s = run ++ rest /\ Forall (eq nl) run.
Proof.
  induction s as [|c r (run & rest & E & -> & Hrun)].
  - exists [], []. now repeat split.
  - cbn [Re.star_greedy]. destruct (N.eqb_spec nl c) as [<-|Hne].
    + rewrite E. exists (nl :: run), rest. repeat split. now constructor.
    + exists [], (c :: run ++ rest). now repeat split.
Qed.

Lemma newlines_none s : newlines s = None -> forall b, s <> nl :: b.
Proof.
  unfold newlines, Re.plus_greedy. intros H b ->.
  rewrite N.eqb_refl in H.
  destruct (star_nl_done b) as (run & rest & E & _). now rewrite E in H.
Qed.

Lemma newlines_some s run rest :
  newlines s = Some ((run, tt), rest) ->
  exists run', run = nl :: run' /\ s = run ++ rest /\ Forall (eq nl) run.
Proof.
  unfold newlines, Re.plus_greedy. destruct s as [|c r]; [discriminate|].
  destruct (N.eqb_spec nl c) as [<-|]; [|discriminate].
  destruct (star_nl_done r) as (run0 & rest0 & E & -> & Hrun). rewrite E.
  intros [= <- <-]. exists run0. repeat split. now constructor.
Qed.

Lemma newline_is_space : is_space nl = true.
Proof. reflexivity. Qed.

Lemma blank_lines_unfold s :
  blank_lines_re s
  = match Re.chr nl (Re.star_greedy is_space newlines) s with
    | Some (_, rest) => Some ([], rest)
    | None => None
    end.
Proof. reflexivity. Qed.

Lemma blank_lines_other c r : c <> nl -> blank_lines_re (c :: r) = None.
Proof.
  intros H. rewrite blank_lines_unfold. unfold Re.chr.
  destruct (N.eqb_spec c nl); [contradiction | reflexivity].
Qed.

Lemma blank_lines_none r : blank_lines_re (nl :: r) = None -> ~ blank_ahead r.
Proof.
  rewrite blank_lines_unfold. unfold Re.chr. rewrite N.eqb_refl.
  destruct (Re.star_greedy is_space newlines r) as [[x rest]|] eqn:E; [discriminate|].
  intros _ (ws & b & Hws & Hr).
  pose proof (star_greedy_none is_space newlines r E ws (nl :: b) Hws Hr) as Hk.
  now apply (newlines_none _ Hk b).
Qed.

Lemma Forall_space_newlines run :
  Forall (eq nl) run -> Forall (fun c => is_space c = true) run.
Proof. induction 1 as [|c run <- _ IH]; constructor; [reflexivity | exact IH]. Qed.

Lemma blank_lines_some s g rest :
  blank_lines_re s = Some (g, rest) ->
  exists ws,
    s = [nl] ++ ws ++ [nl] ++ rest
    /\ Forall (fun c => is_space c = true) ws
    /\ ~ blank_ahead rest.
Proof.
  rewrite blank_lines_unfold. unfold Re.chr. destruct s as [|c r]; [discriminate|].
  destruct (N.eqb_spec c nl) as [->|]; [|discriminate].
  destruct (Re.star_greedy is_space newlines r) as [[[ws [run []]] rest0]|] eqn:E;
    [|discriminate].
  intros [= <- <-].
  apply star_greedy_some in E as (s' & -> & Hws & Hk & Hmax).
  apply newlines_some in Hk as (run' & Hrun & -> & Hnl).
  pose proof (Forall_space_newlines _ Hnl) as Hsp.
  (* the run of line feeds ends with a line feed *)
  assert (Hlast : exists front, run = front ++ [nl] /\ Forall (eq nl) front).
  { destruct (exists_last (l := run)) as (front & x & Ef);
      [subst run; discriminate|].
    exists front. rewrite Ef in Hnl. apply Forall_app in Hnl as [Hf Hx].
    inversion Hx; subst. now split. }
  destruct Hlast as (front & Ef & Hfront).
  exists (ws ++ front). repeat split.
  - rewrite Ef. now rewrite <- !app_assoc.
  - apply Forall_app. split; [exact Hws | now apply Forall_space_newlines].
  - intros (ws2 & b & Hws2 & Hrest).
    assert (Hnone : newlines (nl :: b) = None).
    { apply (Hmax (run ++ ws2) (nl :: b)).
      - subst run. discriminate.
      - rewrite !Forall_app. now repeat split.
      - rewrite Hrest. now rewrite <- !app_assoc. }
    now apply (newlines_none _ Hnone b).
Qed.

Lemma blank_ahead_cons c s :
  blank_ahead (c :: s) <-> c = nl \/ (is_space c = true /\ blank_ahead s).
Proof.
  split.
  - intros (ws & b & Hws & E). destruct ws as [|c' ws'].
    + injection E as -> _. now left.
    + injection E as <- ->. inversion Hws; subst. right. split; [assumption|].
      now exists ws', b.
  - intros [->|[Hc (ws & b & Hws & ->)]].
    + now exists [], s.
    + exists (c :: ws), b. split; [now constructor | reflexivity].
Qed.

Lemma collapse_not_ahead s : ~ blank_ahead s -> ~ blank_ahead (collapse s).
Proof.
  induction s as [|c r IH]; intros H.
  - intros (ws & b & _ & E). destruct ws; discriminate.
  - rewrite blank_ahead_cons in H.
    assert (Hc : c <> nl) by tauto.
    unfold collapse. rewrite (sub_no_match _ _ _ _ (blank_lines_other c r Hc)).
    fold (collapse r). rewrite blank_ahead_cons. intros [E|[Hs Ha]]; [contradiction|].
    apply IH; [|exact Ha]. intros Hr. apply H. now right.
Qed.

Lemma no_blank_line_cons c t :
  (c = nl -> ~ blank_ahead t) -> no_blank_line t -> no_blank_line (c :: t).
Proof.
  intros Hc Ht a ws b Hws E. destruct a as [|c' a'].
  - cbn [app] in E. injection E as -> ->.
    apply (Hc eq_refl). now exists ws, b.
  - cbn [app] in E. injection E as <- ->. now apply (Ht a' ws b Hws).
Qed.

Lemma collapse_spec s :
  blank_runs_collapsed s (collapse s) /\ no_blank_line (collapse s).
Proof.
  remember (length s) as n eqn:Hn. revert s Hn.
  induction n as [n IH] using lt_wf_ind. intros s Hn.
  destruct s as [|c r].
  - split; [constructor|]. intros a ws b _ E. destruct a; discriminate.
  - destruct (blank_lines_re (c :: r)) as [[g rest]|] eqn:E.
    + destruct (blank_lines_some _ _ _ E) as (ws & Hs & Hws & Hna).
      set (whole := [nl] ++ ws ++ [nl]).
      assert (Hs' : c :: r = whole ++ rest).
      { rewrite Hs. unfold whole. now rewrite <- !app_assoc. }
      unfold collapse. rewrite Hs' in E |- *.
      rewrite (sub_match blank_lines_re _ whole rest g); [|discriminate|exact E].
      fold (collapse rest).
      destruct (IH (length rest)) with (s := rest) as [H1 H2];
        [subst n; rewrite Hs', length_app; unfold whole; cbn; lia | reflexivity |].
      split.
      * unfold whole. rewrite <- !app_assoc. now apply collapsed_run.
      * apply no_blank_line_cons; [intros _; now apply collapse_not_ahead | exact H2].
    + unfold collapse. rewrite (sub_no_match _ _ _ _ E). fold (collapse r).
      destruct (IH (length r)) with (s := r) as [H1 H2];
        [subst n; cbn; lia | reflexivity |].
      split; [now constructor|].
      apply no_blank_line_cons; [|exact H2].
      intros ->. apply collapse_not_ahead. now apply blank_lines_none.
Qed.

Lemma lstrip_spec s :
  exists a,
    s = a ++ lstrip s
    /\ Forall (fun c => is_space c = true) a
    /\ forall c r, lstrip s = c :: r -> is_space c = false.
Proof.
  induction s as [|c r (a & E & Ha & Hh)].
  - exists []. repeat split; [constructor | discriminate].
  - cbn [lstrip]. destruct (is_space c) eqn:Ec.
    + exists (c :: a). repeat split; [cbn; now f_equal | now constructor | exact Hh].
    + exists []. repeat split; [constructor|]. now intros c' r' [= <- _].
Qed.

Lemma strip_spec s : is_trimmed s (strip s).
Proof.
  unfold strip, rstrip.
  destruct (lstrip_spec s) as (a & Ea & Ha & Hhead).
  destruct (lstrip_spec (rev (lstrip s))) as (b & Eb & Hb & Hlast).
  set (t := rev (lstrip (rev (lstrip s)))) in *.
  assert (El : lstrip s = t ++ rev b).
  { rewrite <- (rev_involutive (lstrip s)), Eb, rev_app_distr. reflexivity. }
  repeat split.
  - exists a, (rev b). repeat split; [now rewrite <- El | exact Ha|].
    now apply List.Forall_rev.
  - intros c r Et. apply (Hhead c (r ++ rev b)). now rewrite El, Et.
  - intros f c Et. apply (Hlast c (rev f)).
    apply (f_equal (@rev N)) in Et. unfold t in Et.
    rewrite rev_involutive, rev_app_distr in Et. exact Et.
Qed.

Lemma no_blank_line_infix a t b : no_blank_line (a ++ t ++ b) -> no_blank_line t.
Proof.
  intros H a' ws b' Hws E. apply (H (a ++ a') ws (b' ++ b) Hws).
  rewrite E. now rewrite <- !app_assoc.
Qed.

Lemma truncated_length s : length (truncated s) <= 500.
Proof.
  unfold truncated. destruct (Nat.ltb_spec 500 (length s)); [|lia].
  rewrite length_app, length_take. change (length (lit "...")) with 3. lia.
Qed.

Lemma fallback_plain_text_steps release_notes :
  fallback_steps release_notes (fallback_plain_text release_notes).
Proof.
  unfold fallback_plain_text.
  set (labelled := Re.sub lazy_link_re Re.group1 release_notes).
  rewrite strip_markers_spec. fold (collapse (without_markers labelled)).
  destruct (collapse_spec (without_markers labelled)) as [Hc Hn].
  pose proof (strip_spec (collapse (without_markers labelled))) as Ht.
  exists labelled, (collapse (without_markers labelled)),
    (strip (collapse (without_markers labelled))).
  repeat split; try assumption.
  - apply strip_links_spec.
  - apply Ht.
  - apply Ht.
  - apply Ht.
  - destruct Ht as [(a & b & E & _) _]. rewrite E in Hn.
    now apply no_blank_line_infix in Hn.
  - apply truncated_length.
Qed.

Lemma summary_value_failed o :
  summary_failed o = true -> exists e, summary_value o = Raise e.
Proof.
  destruct o as [content|e]; cbn.
  - destruct (long_enough content); [discriminate|]. now eexists.
  - now eexists.
Qed.

(** C8.  When the three attempts at the summary have failed, the
    wrapper returns, without raising, the escaped fallback text; and
    that text comes from the release notes by the five steps: labels
    for links, marker characters removed, blank lines collapsed and the
    ends trimmed, at most 500 characters with an ellipsis when cut. *)
Theorem fallback_summary_steps w release_notes language :
  skips_summary release_notes = false ->
  exhausted w ->
  fst (get_openrouter_summary w release_notes language start)
  = Ok (escape_markdown_v2 (fun i => w_uuid w (0 + i))
          (fallback_plain_text release_notes))
  /\ count_if is_summary
       (trace (snd (get_openrouter_summary w release_notes language start))) = 3
  /\ fallback_steps release_notes (fallback_plain_text release_notes).
Proof.
  intros Hs (H0 & H1 & H2).
  rewrite get_openrouter_summary_run. cbn [fst snd trace start app drawn].
  unfold summary_text, summary_calls, summary_attempts. rewrite Hs.
  cbn [count_if List.filter length]. rewrite H0, H1. cbn [attempts_table Nat.add Nat.sub].
  destruct (summary_value_failed _ H2) as (e & ->).
  rewrite count_if_repeat. cbn [is_summary].
  repeat split. apply fallback_plain_text_steps.
Qed.

Lemma forbidden_world_exhausted : exhausted forbidden_world.
Proof. repeat split. Defined.

Lemma fallback_summary_steps_witness :
  skips_summary (lit "Fixed **bug** in [parser](http://x).") = false
  /\ exhausted forbidden_world
  /\ fst (get_openrouter_summary forbidden_world
            (lit "Fixed **bug** in [parser](http://x).") [] start)
     = Ok (escape_markdown_v2 (fun i => w_uuid forbidden_world (0 + i))
             (fallback_plain_text (lit "Fixed **bug** in [parser](http://x)."))).
Proof.
  split; [reflexivity|]. split; [exact forbidden_world_exhausted|].
  exact (proj1 (fallback_summary_steps forbidden_world
                  (lit "Fixed **bug** in [parser](http://x).") [] eq_refl
                  forbidden_world_exhausted)).
Defined.

(** * Further properties *)

(** ** What the two escapers return *)

Lemma reserved_is_reserved_v2 c : reserved c = true -> reserved_v2 c = true.
Proof.
  unfold reserved, reserved_v2, escape_chars_v2. rewrite !elem_In.
  intros H. now right.
Qed.

Lemma reserved_not_marker c : reserved c = true -> c <> bs.
Proof. intros H ->. vm_compute in H. discriminate. Qed.

(** Also when the marker itself is reserved: a reserved character other
    than the marker has the marker before it. *)
Lemma escaped_guarded_other R s t :
  escaped_as R s t ->
  forall i c, t !! i = Some c -> R c = true -> c <> bs ->
    exists j, i = S j /\ t !! j = Some bs.
Proof.
  induction 1 as [|d s t Hd _ IH|d s t Hd _ IH]; intros i c Hi Hc Hne.
  - discriminate.
  - destruct i as [|[|i]]; simpl in Hi.
    + injection Hi as <-. congruence.
    + exists 0. split; reflexivity.
    + destruct (IH i c Hi Hc Hne) as (j & -> & Hj).
      exists (S (S j)). split; [reflexivity | exact Hj].
  - destruct i as [|i]; simpl in Hi.
    + injection Hi as <-. congruence.
    + destruct (IH i c Hi Hc Hne) as (j & -> & Hj).
      exists (S j). split; [reflexivity | exact Hj].
Qed.

Lemma flat_map_v2_guarded s : guarded (flat_map (escape_one reserved_v2) s).
Proof.
  intros i c Hi Hc.
  apply (escaped_guarded_other reserved_v2 s _ (escaped_flat_map _ s) i c Hi).
  - now apply reserved_is_reserved_v2.
  - now apply reserved_not_marker.
Qed.


(** A pattern that needs a given first character finds nothing in a text
    without it. *)
Lemma scan_needs_first m x s :
  (forall c r, c <> x -> m (c :: r) = None) ->
  ~ In x s -> Re.scan m s 0 = map Re.Keep s.
Proof.
  intros Hm. induction s as [|c r IH]; intros Hx; [reflexivity|].
  cbn [Re.scan map]. rewrite Hm by (intros ->; apply Hx; now left).
  rewrite IH; [reflexivity|]. intros H. apply Hx. now right.
Qed.

Lemma sub_with_needs_first {St} m (f : St -> Re.hit -> St * list N) st x s :
  (forall c r, c <> x -> m (c :: r) = None) ->
  ~ In x s -> Re.sub_with m f st s = (st, s).
Proof.
  intros Hm Hx. unfold Re.sub_with.
  now rewrite (scan_needs_first m x s Hm Hx), sub_pieces_keep.
Qed.

Lemma strict_link_first c r : c <> ch "[" -> strict_link_re (c :: r) = None.
Proof.
  intros H. unfold strict_link_re, Re.chr.
  destruct (N.eqb_spec c (ch "[")); [contradiction | reflexivity].
Qed.

Lemma bold_first c r : c <> ch "*" -> bold_re (c :: r) = None.
Proof.
  intros H. unfold bold_re, Re.chr.
  destruct (N.eqb_spec c (ch "*")); [contradiction | reflexivity].
Qed.

Lemma code_first c r : c <> ch "`" -> code_re (c :: r) = None.
Proof.
  intros H. unfold code_re, Re.chr.
  destruct (N.eqb_spec c (ch "`")); [contradiction | reflexivity].
Qed.

Lemma unreserved_absent x text :
  reserved_v2 x = true ->
  Forall (fun c => reserved_v2 c = false) text -> ~ In x text.
Proof.
  intros Hx Hall Hin. rewrite List.Forall_forall in Hall.
  specialize (Hall x Hin). congruence.
Qed.

Lemma flat_map_unreserved R text :
  Forall (fun c => R c = false) text -> flat_map (escape_one R) text = text.
Proof.
  induction 1 as [|c text Hc _ IH]; [reflexivity|].
  cbn [flat_map]. unfold escape_one at 1. rewrite Hc. cbn [app]. now rewrite IH.
Qed.

Lemma unreserved_v2_unreserved text :
  Forall (fun c => reserved_v2 c = false) text ->
  Forall (fun c => reserved c = false) text.
Proof.
  intros H. apply (List.Forall_impl (P := fun c => reserved_v2 c = false)); [|exact H].
  intros c Hc. destruct (reserved c) eqn:E; [|reflexivity].
  apply reserved_is_reserved_v2 in E. congruence.
Qed.

(** X2.  A text without any reserved character and without backslash
    passes both escapers unchanged. *)
Theorem plain_text_unchanged text :
  Forall (fun c => reserved_v2 c = false) text ->
  convert_ai_markdown_to_telegram text = text
  /\ forall uuid4_hex, escape_markdown_v2 uuid4_hex text = text.
Proof.
  intros Hall. split.
  - rewrite convert_restores_nothing. unfold protect.
    rewrite (sub_with_needs_first strict_link_re _ _ (ch "[") text strict_link_first)
      by (now apply unreserved_absent).
    cbn [snd fst].
    rewrite (sub_with_needs_first bold_re _ _ (ch "*") text bold_first)
      by (now apply unreserved_absent).
    cbn [snd fst].
    rewrite (sub_with_needs_first code_re _ _ (ch "`") text code_first)
      by (now apply unreserved_absent).
    cbn [snd fst]. rewrite escape_pass_flat_map.
    now apply flat_map_unreserved, unreserved_v2_unreserved.
  - intros uuid4_hex. rewrite escape_markdown_v2_no_link.
    + now apply flat_map_unreserved.
    + apply link_count_no_bracket. now apply unreserved_absent.
Qed.

Lemma plain_text_unchanged_witness :
  Forall (fun c => reserved_v2 c = false) (lit "Release 42 is out")
  /\ convert_ai_markdown_to_telegram (lit "Release 42 is out")
     = lit "Release 42 is out".
Proof.
  assert (H : Forall (fun c => reserved_v2 c = false) (lit "Release 42 is out"))
    by (repeat constructor).
  split; [exact H|]. exact (proj1 (plain_text_unchanged _ H)).
Defined.

Lemma link_replacer_placeholder uuid4_hex links h :
  uuid_placeholder (snd (link_replacer uuid4_hex links h))
  /\ fst (link_replacer uuid4_hex links h)
     = links ++ [(snd (link_replacer uuid4_hex links h), Re.group0 h)].
Proof.
  unfold link_replacer. cbn [fst snd]. split; [|reflexivity].
  exists (lit "LINK_" ++ uuid4_hex (length links) ++ lit "__"). reflexivity.
Qed.

Lemma sub_pieces_placeholders uuid4_hex ps :
  forall links,
    Forall (fun pl => uuid_placeholder (fst pl)) links ->
    Forall (fun pl => uuid_placeholder (fst pl))
      (fst (Re.sub_pieces (link_replacer uuid4_hex) links ps)).
Proof.
  induction ps as [|[c|h] ps IH]; intros links Hl; cbn [Re.sub_pieces fst snd].
  - exact Hl.
  - now apply IH.
  - apply IH. destruct (link_replacer_placeholder uuid4_hex links h) as [Hp ->].
    apply Forall_app. split; [exact Hl|]. constructor; [exact Hp | constructor].
Qed.

Lemma guarded_pair t pre x c post :
  guarded t -> t = pre ++ [x; c] ++ post -> reserved c = true -> x = bs.
Proof.
  intros Hg E Hc.
  assert (H1 : t !! S (length pre) = Some c).
  { rewrite E, lookup_app_r by lia.
    replace (S (length pre) - length pre) with 1 by lia. reflexivity. }
  destruct (Hg _ _ H1 Hc) as (j & [= <-] & Hbs).
  rewrite E, lookup_app_r in Hbs by lia.
  rewrite Nat.sub_diag in Hbs. cbn in Hbs. congruence.
Qed.

Lemma guarded_placeholder_absent t ph a b :
  guarded t -> uuid_placeholder ph -> t <> a ++ ph ++ b.
Proof.
  intros Hg (k & ->) E.
  assert (H : ch "_" = bs); [|discriminate].
  apply (guarded_pair t a (ch "_") (ch "_") (k ++ b) Hg); [|reflexivity].
  rewrite E. now rewrite <- !app_assoc.
Qed.

Lemma restore_links_noop t links :
  guarded t ->
  Forall (fun pl : list N * list N => uuid_placeholder (fst pl)) links ->
  fold_left (fun t pl => str_replace (fst pl) (snd pl) t 0) links t = t.
Proof.
  intros Hg. induction 1 as [|pl links Hp _ IH]; [reflexivity|].
  cbn [fold_left]. rewrite str_replace_absent; [exact IH|].
  intros a b. now apply guarded_placeholder_absent.
Qed.

Lemma escape_markdown_v2_flat_map uuid4_hex text :
  escape_markdown_v2 uuid4_hex text
  = flat_map (escape_one reserved_v2) (text_without_links uuid4_hex text).
Proof.
  unfold escape_markdown_v2, text_without_links.
  destruct text as [|c r]; [reflexivity|].
  rewrite sub_class.
  change (fun c0 : N =>
            if elem c0 escape_chars_v2
            then bs :: Re.group1 (Re.Hit [c0] [c0]) else [c0])
    with (escape_one reserved_v2).
  apply restore_links_noop; [apply flat_map_v2_guarded|].
  unfold Re.sub_with. apply sub_pieces_placeholders. constructor.
Qed.

(** X3.  [escape_markdown_v2] never puts a link back: whatever the
    uuids, its result is the text in which the placeholders stand for
    the links, with exactly one backslash before each reserved
    character, those of the placeholders included. *)
Theorem escape_markdown_v2_keeps_placeholders uuid4_hex text :
  escape_markdown_v2 uuid4_hex text
  = flat_map (escape_one reserved_v2) (text_without_links uuid4_hex text)
  /\ exactly_escaped reserved_v2 (text_without_links uuid4_hex text)
       (escape_markdown_v2 uuid4_hex text).
Proof.
  pose proof (escape_markdown_v2_flat_map uuid4_hex text) as E.
  split; [exact E|]. rewrite E. apply flat_map_exactly_escaped.
Qed.

Lemma scan_none_everywhere m s :
  (forall a b, s = a ++ b -> m b = None) -> Re.scan m s 0 = map Re.Keep s.
Proof.
  induction s as [|c r IH]; intros H; [reflexivity|].
  cbn [Re.scan map]. rewrite (H [] (c :: r) eq_refl).
  rewrite IH; [reflexivity|]. intros a b ->. now apply (H (c :: a) b).
Qed.

Lemma guarded_no_link t a b : guarded t -> t = a ++ b -> lazy_link_re b = None.
Proof.
  intros Hg E. destruct (lazy_link_re b) as [[label rest]|] eqn:Em; [|reflexivity].
  exfalso. apply lazy_link_sound in Em as (url & Hb & _ & _).
  assert (H : ch "]" = bs); [|discriminate].
  apply (guarded_pair t (a ++ [ch "["] ++ label) (ch "]") (ch "(")
           (url ++ [ch ")"] ++ rest) Hg); [|reflexivity].
  rewrite E, Hb. now rewrite <- !app_assoc.
Qed.

Lemma guarded_link_free t : guarded t -> link_count t = 0.
Proof.
  intros Hg. unfold link_count. destruct t as [|c r] eqn:Et; [reflexivity|].
  rewrite <- Et in *. rewrite scan_none_everywhere.
  - clear. induction t as [|x t IH]; [reflexivity | exact IH].
  - intros a b E. now apply (guarded_no_link t a b).
Qed.

(** X4.  The result of [escape_markdown_v2] holds no unescaped reserved
    character and no link syntax, whatever the input: a second pass over
    it finds no link to replace. *)
Theorem escape_markdown_v2_output_guarded uuid4_hex text :
  guarded (escape_markdown_v2 uuid4_hex text)
  /\ link_count (escape_markdown_v2 uuid4_hex text) = 0.
Proof.
  assert (Hg : guarded (escape_markdown_v2 uuid4_hex text)).
  { rewrite escape_markdown_v2_flat_map. apply flat_map_v2_guarded. }
  split; [exact Hg | now apply guarded_link_free].
Qed.

Lemma reserved_count_flat_map s :
  reserved_count reserved_v2 (flat_map (escape_one reserved_v2) s)
  = 2 * reserved_count reserved_v2 s.
Proof.
  induction s as [|c s IH]; [reflexivity|].
  cbn [flat_map]. unfold escape_one at 1. rewrite (reserved_count_cons _ c s).
  destruct (reserved_v2 c) eqn:E; cbn [app].
  - rewrite !reserved_count_cons, E, IH.
    replace (reserved_v2 bs) with true by reflexivity. lia.
  - rewrite reserved_count_cons, E, IH. lia.
Qed.

(** X5.  Escaping is not idempotent.  A second pass of
    [escape_markdown_v2] escapes the result of the first character by
    character, backslashes included, and so adds two more backslashes
    for every character the first pass escaped. *)
Theorem escape_markdown_v2_twice uuid1 uuid2 text :
  escape_markdown_v2 uuid2 (escape_markdown_v2 uuid1 text)
  = flat_map (escape_one reserved_v2) (escape_markdown_v2 uuid1 text)
  /\ length (escape_markdown_v2 uuid2 (escape_markdown_v2 uuid1 text))
     = length (escape_markdown_v2 uuid1 text)
       + 2 * reserved_count reserved_v2 (text_without_links uuid1 text).
Proof.
  assert (Hl : link_count (escape_markdown_v2 uuid1 text) = 0).
  { apply guarded_link_free. rewrite escape_markdown_v2_flat_map.
    apply flat_map_v2_guarded. }
  rewrite (escape_markdown_v2_no_link uuid2 _ Hl). split; [reflexivity|].
  rewrite (escaped_length reserved_v2 _ _ (escaped_flat_map _ _)).
  rewrite (escape_markdown_v2_flat_map uuid1 text) at 2.
  now rewrite reserved_count_flat_map.
Qed.

(** ** The Chunker: sizes and lines *)

Lemma len_app a b : len (a ++ b) = (len a + len b)%Z.
Proof. unfold len. rewrite length_app. lia. Qed.

(** What a returned chunk is made from. *)
Lemma returned_chunk_base uuid4_hex text max_length chunk :
  In chunk (split_message_markdown uuid4_hex text max_length) ->
  ((len text <= max_length)%Z /\ chunk = text)
  \/ ((max_length < len text)%Z
      /\ exists base,
           In base (pack_chunks text max_length) /\ returned_from base chunk).
Proof.
  unfold split_message_markdown.
  destruct (Z.leb_spec (len text) max_length) as [Hle|Hgt].
  - intros [<-|[]]. now left.
  - intros Hin. right. split; [exact Hgt|].
    destruct (1 <? length (pack_chunks text max_length)).
    + apply list_elem_of_In, list_elem_of_lookup in Hin as (i & Hi).
      assert (Hlt : i < length (pack_chunks text max_length)).
      { rewrite <- (add_indicators_length uuid4_hex).
        now apply lookup_lt_Some in Hi. }
      destruct (lookup_lt_is_Some_2 _ _ Hlt) as (base & Hb).
      rewrite (add_indicators_lookup uuid4_hex _ i base Hb) in Hi.
      injection Hi as <-. exists base. split.
      * apply list_elem_of_In, list_elem_of_lookup. now exists i.
      * right. now exists (S i), (length (pack_chunks text max_length)).
    + exists chunk. split; [exact Hin | now left].
Qed.

Section Packing.
Variable text : list N.
Variable max_length : Z.

Lemma packed_ok_push chunks current :
  packed_ok text max_length (chunks, current) ->
  Forall (fun c => fits_or_whole text max_length c /\ c <> [])
    (if is_empty current then chunks else chunks ++ [current]).
Proof.
  intros [Hc Hcur]. cbn [fst snd] in *. destruct current as [|c r]; [exact Hc|].
  cbn [is_empty]. apply Forall_app. split; [exact Hc|].
  constructor; [|constructor]. split; [|discriminate].
  destruct Hcur as [E|H]; [discriminate | exact H].
Qed.

Lemma pack_line_ok p st line :
  In p (paragraphs text) -> In line (lines p) ->
  packed_ok text max_length st -> packed_ok text max_length (pack_line max_length st line).
Proof.
  intros Hp Hl Hst. destruct st as [chunks current]. unfold pack_line.
  cbn [fst snd].
  destruct (Z.leb_spec (len current + len line + 1) max_length) as [Hle|Hgt].
  - split; cbn [fst snd]; [apply Hst|]. right. left.
    destruct current as [|c r]; cbn [is_empty].
    + cbn [app]. unfold len in *. cbn [length] in Hle. lia.
    + rewrite !len_app. change (len [nl]) with 1%Z. lia.
  - split; cbn [fst snd].
    + now apply packed_ok_push.
    + right. right. right. now exists p.
Qed.

Lemma pack_lines_ok p ls :
  In p (paragraphs text) ->
  (forall line, In line ls -> In line (lines p)) ->
  forall st, packed_ok text max_length st -> packed_ok text max_length (fold_left (pack_line max_length) ls st).
Proof.
  intros Hp. induction ls as [|l ls IH]; intros Hls st Hst; [exact Hst|].
  cbn [fold_left]. apply IH.
  - intros line Hin. apply Hls. now right.
  - apply (pack_line_ok p); [exact Hp | apply Hls; now left | exact Hst].
Qed.

Lemma pack_paragraph_ok st p :
  In p (paragraphs text) ->
  packed_ok text max_length st -> packed_ok text max_length (pack_paragraph max_length st p).
Proof.
  intros Hp Hst. destruct st as [chunks current]. unfold pack_paragraph.
  cbn [fst snd].
  destruct (Z.leb_spec (len current + len p + 2) max_length) as [Hle|Hgt].
  - split; cbn [fst snd]; [apply Hst|]. right. left.
    destruct current as [|c r]; cbn [is_empty].
    + cbn [app]. unfold len in *. cbn [length] in Hle. lia.
    + rewrite !len_app. change (len [nl; nl]) with 2%Z. lia.
  - destruct current as [|c r]; cbn [is_empty].
    + apply (pack_lines_ok p); [exact Hp | now intros | exact Hst].
    + split; cbn [fst snd].
      * apply (packed_ok_push chunks (c :: r) Hst).
      * right. right. now left.
Qed.

Lemma pack_paragraphs_ok ps :
  (forall p, In p ps -> In p (paragraphs text)) ->
  forall st, packed_ok text max_length st ->
             packed_ok text max_length (fold_left (pack_paragraph max_length) ps st).
Proof.
  induction ps as [|p ps IH]; intros Hps st Hst; [exact Hst|].
  cbn [fold_left]. apply IH.
  - intros q Hq. apply Hps. now right.
  - apply pack_paragraph_ok; [apply Hps; now left | exact Hst].
Qed.

Lemma pack_chunks_ok :
  Forall (fun c => fits_or_whole text max_length c /\ c <> [])
    (pack_chunks text max_length).
Proof.
  unfold pack_chunks.
  pose proof (pack_paragraphs_ok (paragraphs text) (fun p H => H) ([], [])) as H.
  fold (paragraphs text).
  destruct (fold_left _ _ _) as [chunks current].
  apply (packed_ok_push chunks current). apply H.
  split; [constructor | now left].
Qed.
End Packing.

(** X6.  Every chunk [split_message_markdown] returns is a packed chunk,
    with or without its indicator, that is within the limit, unless it
    is a whole paragraph of the text or a whole line of a paragraph:
    only a paragraph or a line taken whole can exceed the limit. *)
Theorem chunk_fits_or_is_whole uuid4_hex text max_length chunk :
  In chunk (split_message_markdown uuid4_hex text max_length) ->
  exists base,
    returned_from base chunk /\ fits_or_whole text max_length base.
Proof.
  intros Hin.
  destruct (returned_chunk_base _ _ _ _ Hin) as [[Hle ->]|[_ (base & Hb & Hr)]].
  - exists text. split; [now left | now left].
  - exists base. split; [exact Hr|].
    pose proof (pack_chunks_ok text max_length) as H.
    rewrite List.Forall_forall in H. now apply H.
Qed.

Lemma chunk_fits_or_is_whole_witness :
  In (lit "aaaaa" ++ indicator_text 1 2)
    (split_message_markdown (fun _ => []) (lit "aaaaa" ++ [nl; nl] ++ lit "bbbbbb") 10)
  /\ exists base,
       returned_from base (lit "aaaaa" ++ indicator_text 1 2)
       /\ fits_or_whole (lit "aaaaa" ++ [nl; nl] ++ lit "bbbbbb") 10 base.
Proof.
  assert (H : In (lit "aaaaa" ++ indicator_text 1 2)
                (split_message_markdown (fun _ => [])
                   (lit "aaaaa" ++ [nl; nl] ++ lit "bbbbbb") 10))
    by (vm_compute; left; reflexivity).
  split; [exact H|]. exact (chunk_fits_or_is_whole _ _ _ _ H).
Defined.

(** X7.  A text with anything but line feeds in it gives at least one
    chunk, and no chunk returned for it is empty, so the sending loop
    never posts an empty message for such a text. *)
Theorem chunks_not_empty uuid4_hex text max_length :
  content text <> [] ->
  split_message_markdown uuid4_hex text max_length <> []
  /\ Forall (fun chunk => chunk <> [])
       (split_message_markdown uuid4_hex text max_length).
Proof.
  intros Hc. split; [now apply split_nonempty|].
  apply List.Forall_forall. intros chunk Hin.
  destruct (returned_chunk_base _ _ _ _ Hin) as [[Hle ->]|[_ (base & Hb & Hr)]].
  - intros ->. now apply Hc.
  - pose proof (pack_chunks_ok text max_length) as H.
    rewrite List.Forall_forall in H. destruct (H base Hb) as [_ Hne].
    destruct Hr as [->|(i & n & ->)]; [exact Hne|].
    intros E. apply app_eq_nil in E as [E _]. contradiction.
Qed.

Lemma chunks_not_empty_witness :
  content (lit "aaaaa" ++ [nl; nl] ++ lit "bbbbbb") <> []
  /\ split_message_markdown (fun _ => []) (lit "aaaaa" ++ [nl; nl] ++ lit "bbbbbb") 10
     <> [].
Proof.
  assert (H : content (lit "aaaaa" ++ [nl; nl] ++ lit "bbbbbb") <> [])
    by (vm_compute; discriminate).
  split; [exact H|]. exact (proj1 (chunks_not_empty (fun _ => []) _ 10 H)).
Defined.

(** ** The Chunker never breaks a line *)

Lemma split_nl_app a :
  forall b cur,
    split_on [nl] (a ++ nl :: b) cur 0
    = split_on [nl] a cur 0 ++ split_on [nl] b [] 0.
Proof.
  induction a as [|c a IH]; intros b cur.
  - cbn [app split_on starts_with length Nat.sub]. rewrite N.eqb_refl.
    reflexivity.
  - cbn [app split_on starts_with length Nat.sub].
    destruct (N.eqb nl c); cbn [andb]; now rewrite IH.
Qed.

Lemma lines_app_nl a b : lines (a ++ nl :: b) = lines a ++ lines b.
Proof. apply split_nl_app. Qed.

Lemma split_nl_plain s :
  forall cur, ~ In nl s -> split_on [nl] s cur 0 = [cur ++ s].
Proof.
  induction s as [|c s IH]; intros cur Hn.
  - cbn. now rewrite app_nil_r.
  - cbn [split_on starts_with].
    destruct (N.eqb_spec nl c) as [<-|Hne]; [exfalso; apply Hn; now left|].
    cbn [andb]. rewrite IH by (intros H; apply Hn; now right).
    now rewrite <- app_assoc.
Qed.

Lemma split_nl_no_nl s :
  forall cur line,
    ~ In nl cur -> In line (split_on [nl] s cur 0) -> ~ In nl line.
Proof.
  induction s as [|c s IH]; intros cur line Hcur.
  - intros [<-|[]]. exact Hcur.
  - cbn [split_on starts_with length Nat.sub].
    destruct (N.eqb_spec nl c) as [<-|Hne]; cbn [andb].
    + intros [<-|Hin]; [exact Hcur|]. apply (IH [] line); [intros [] | exact Hin].
    + apply IH. rewrite in_app_iff. intros [H|[H|[]]]; [now apply Hcur|].
      now apply Hne.
Qed.

Lemma line_is_one_line p line : In line (lines p) -> lines line = [line].
Proof.
  intros H. unfold lines. rewrite split_nl_plain; [reflexivity|].
  apply (split_nl_no_nl p [] line); [intros [] | exact H].
Qed.

Lemma split_on_not_nil sep s : forall cur k, split_on sep s cur k <> [].
Proof.
  induction s as [|c s IH]; intros cur k; [discriminate|].
  cbn [split_on]. destruct k as [|k]; [|apply IH].
  destruct (starts_with sep (c :: s)); [discriminate | apply IH].
Qed.

Lemma join_cons sep x l : l <> [] -> join sep (x :: l) = x ++ sep ++ join sep l.
Proof. destruct l; [contradiction | reflexivity]. Qed.

(** Joining the pieces of a split gives the text back. *)
Lemma join_split sep s :
  sep <> [] ->
  forall cur k, join sep (split_on sep s cur k) = cur ++ drop k s.
Proof.
  intros Hsep. induction s as [|c r IH]; intros cur k.
  - cbn [split_on join]. now rewrite drop_nil, app_nil_r.
  - cbn [split_on]. destruct k as [|k]; [|now rewrite IH].
    destruct (starts_with sep (c :: r)) eqn:E.
    + apply starts_with_app in E as (rest & E).
      destruct sep as [|c' sep']; [contradiction|].
      injection E as <- ->.
      rewrite join_cons by apply split_on_not_nil. rewrite IH.
      cbn [length]. replace (S (length sep') - 1) with (length sep') by lia.
      rewrite drop_app_length. cbn [drop app]. reflexivity.
    + rewrite IH. cbn [drop]. now rewrite <- app_assoc.
Qed.

Lemma join_paragraphs text : join [nl; nl] (paragraphs text) = text.
Proof. unfold paragraphs. now rewrite join_split. Qed.

Lemma lines_join_cons x ps :
  ps <> [] ->
  lines (join [nl; nl] (x :: ps))
  = lines x ++ [[]] ++ lines (join [nl; nl] ps).
Proof.
  intros H. rewrite join_cons by exact H. cbn [app].
  rewrite lines_app_nl.
  change (nl :: join [nl; nl] ps) with ([] ++ nl :: join [nl; nl] ps).
  now rewrite lines_app_nl.
Qed.

Lemma lines_of_joined ps :
  forall p line,
    In p ps -> In line (lines p) -> In line (lines (join [nl; nl] ps)).
Proof.
  induction ps as [|x ps IH]; intros p line Hp Hl; [destruct Hp|].
  destruct ps as [|y ps].
  - destruct Hp as [->|[]]. exact Hl.
  - rewrite lines_join_cons by discriminate. rewrite !in_app_iff.
    destruct Hp as [->|Hp]; [now left|]. right. right. now apply (IH p).
Qed.

Lemma lines_of_paragraph text p line :
  In p (paragraphs text) -> In line (lines p) -> In line (lines text).
Proof.
  intros Hp Hl. rewrite <- (join_paragraphs text) at 1.
  now apply (lines_of_joined _ p).
Qed.

(** Two paragraphs or more: the text has an empty line. *)
Lemma empty_line_between text x y ps :
  paragraphs text = x :: y :: ps -> In [] (lines text).
Proof.
  intros E. rewrite <- (join_paragraphs text), E.
  rewrite lines_join_cons by discriminate. rewrite !in_app_iff.
  right. left. now left.
Qed.

Section Lines.
Variable text : list N.
Variable max_length : Z.

Lemma lines_ok_push chunks current :
  lines_ok text (chunks, current) ->
  Forall (lines_within text)
    (if is_empty current then chunks else chunks ++ [current]).
Proof.
  intros [Hc Hcur]. cbn [fst snd] in *. destruct current as [|c r]; [exact Hc|].
  cbn [is_empty]. apply Forall_app. split; [exact Hc|].
  constructor; [|constructor]. destruct Hcur as [E|H]; [discriminate | exact H].
Qed.

Lemma lines_within_whole p line :
  In p (paragraphs text) -> In line (lines p) -> lines_within text line.
Proof.
  intros Hp Hl l. rewrite (line_is_one_line p line Hl).
  intros [<-|[]]. now apply (lines_of_paragraph text p).
Qed.

Lemma pack_line_lines p st line :
  In p (paragraphs text) -> In line (lines p) ->
  lines_ok text st -> lines_ok text (pack_line max_length st line).
Proof.
  intros Hp Hl Hst. destruct st as [chunks current]. unfold pack_line.
  cbn [fst snd]. pose proof (lines_within_whole p line Hp Hl) as Hw.
  destruct (_ <=? _)%Z.
  - split; cbn [fst snd]; [apply Hst|]. right.
    destruct current as [|c r]; cbn [is_empty]; [exact Hw|].
    destruct Hst as [_ [E|Hcur]]; [discriminate|]. cbn [snd] in Hcur.
    intros l. rewrite <- app_assoc. cbn [app].
    change (c :: r ++ nl :: line) with ((c :: r) ++ nl :: line).
    rewrite lines_app_nl, in_app_iff.
    intros [H|H]; [now apply Hcur | now apply Hw].
  - split; cbn [fst snd]; [now apply lines_ok_push | now right].
Qed.

Lemma pack_lines_lines p ls :
  In p (paragraphs text) ->
  (forall line, In line ls -> In line (lines p)) ->
  forall st, lines_ok text st ->
             lines_ok text (fold_left (pack_line max_length) ls st).
Proof.
  intros Hp. induction ls as [|l ls IH]; intros Hls st Hst; [exact Hst|].
  cbn [fold_left]. apply IH.
  - intros line Hin. apply Hls. now right.
  - apply (pack_line_lines p); [exact Hp | apply Hls; now left | exact Hst].
Qed.

Lemma pack_paragraph_lines st p :
  In p (paragraphs text) ->
  snd st = [] \/ In [] (lines text) ->
  lines_ok text st -> lines_ok text (pack_paragraph max_length st p).
Proof.
  intros Hp He Hst. destruct st as [chunks current]. unfold pack_paragraph.
  cbn [fst snd] in *.
  assert (Hw : lines_within text p)
    by (intros l Hl; now apply (lines_of_paragraph text p)).
  destruct (_ <=? _)%Z.
  - split; cbn [fst snd]; [apply Hst|]. right.
    destruct current as [|c r]; cbn [is_empty]; [exact Hw|].
    destruct He as [E|He]; [discriminate|].
    destruct Hst as [_ [E|Hcur]]; [discriminate|]. cbn [snd] in Hcur.
    intros l. rewrite <- app_assoc. cbn [app].
    change (c :: r ++ nl :: nl :: p) with ((c :: r) ++ nl :: nl :: p).
    rewrite lines_app_nl.
    change (nl :: p) with ([] ++ nl :: p). rewrite lines_app_nl.
    rewrite !in_app_iff. intros [H|[H|H]].
    + now apply Hcur.
    + destruct H as [<-|[]]. exact He.
    + now apply Hw.
  - destruct current as [|c r]; cbn [is_empty].
    + apply (pack_lines_lines p); [exact Hp | now intros | exact Hst].
    + split; cbn [fst snd];
        [apply (lines_ok_push chunks (c :: r) Hst) | now right].
Qed.

Lemma pack_paragraphs_lines ps :
  (forall p, In p ps -> In p (paragraphs text)) ->
  In [] (lines text) ->
  forall st, lines_ok text st ->
             lines_ok text (fold_left (pack_paragraph max_length) ps st).
Proof.
  intros Hps He. induction ps as [|p ps IH]; intros st Hst; [exact Hst|].
  cbn [fold_left]. apply IH.
  - intros q Hq. apply Hps. now right.
  - apply pack_paragraph_lines; [apply Hps; now left | now right | exact Hst].
Qed.

Lemma pack_chunks_lines : Forall (lines_within text) (pack_chunks text max_length).
Proof.
  unfold pack_chunks. fold (paragraphs text).
  assert (H0 : lines_ok text ([], [])) by (split; [constructor | now left]).
  assert (H : lines_ok text
                (fold_left (pack_paragraph max_length) (paragraphs text) ([], []))).
  { destruct (paragraphs text) as [|x [|y ps]] eqn:E.
    - exact H0.
    - cbn [fold_left]. apply pack_paragraph_lines;
        [rewrite E; now left | now left | exact H0].
    - rewrite <- E. apply pack_paragraphs_lines; [now intros | | exact H0].
      now apply (empty_line_between text x y ps). }
  destruct (fold_left _ _ _) as [chunks current].
  now apply (lines_ok_push chunks current).
Qed.
End Lines.

(** X8.  [split_message_markdown] never breaks a line: every line of the
    packed chunk behind a returned chunk is a line of the text, whole. *)
Theorem chunk_lines_are_text_lines uuid4_hex text max_length chunk :
  In chunk (split_message_markdown uuid4_hex text max_length) ->
  exists base, returned_from base chunk /\ lines_within text base.
Proof.
  intros Hin.
  destruct (returned_chunk_base _ _ _ _ Hin) as [[Hle ->]|[_ (base & Hb & Hr)]].
  - exists text. split; [now left | now intros line].
  - exists base. split; [exact Hr|].
    pose proof (pack_chunks_lines text max_length) as H.
    rewrite List.Forall_forall in H. now apply H.
Qed.

Lemma chunk_lines_are_text_lines_witness :
  In (lit "aaaaa" ++ indicator_text 1 2)
    (split_message_markdown (fun _ => []) (lit "aaaaa" ++ [nl; nl] ++ lit "bbbbbb") 10)
  /\ exists base,
       returned_from base (lit "aaaaa" ++ indicator_text 1 2)
       /\ lines_within (lit "aaaaa" ++ [nl; nl] ++ lit "bbbbbb") base.
Proof.
  assert (H : In (lit "aaaaa" ++ indicator_text 1 2)
                (split_message_markdown (fun _ => [])
                   (lit "aaaaa" ++ [nl; nl] ++ lit "bbbbbb") 10))
    by (vm_compute; left; reflexivity).
  split; [exact H|]. exact (chunk_lines_are_text_lines _ _ _ _ H).
Defined.

(** ** The summary the task gets *)




Lemma convert_guarded text : guarded (convert_ai_markdown_to_telegram text).
Proof.
  rewrite convert_restores_nothing. intros i c Hi Hc.
  exact (escape_pass_guarded _ i c Hi Hc).
Qed.

Lemma summary_value_guarded o s : summary_value o = Ok s -> guarded s.
Proof.
  destruct o as [content|e]; cbn; [|discriminate].
  destruct (long_enough content); [|discriminate].
  intros [= <-]. apply convert_guarded.
Qed.

(** X10.  Unless the description is empty or the constant for a missing
    one, the summary [get_openrouter_summary] returns has a backslash
    directly before each of its reserved characters, whether it is the
    converted answer of the summary source or the fallback. *)
Theorem summary_is_guarded w release_notes language st :
  skips_summary release_notes = false ->
  exists summary,
    fst (get_openrouter_summary w release_notes language st) = Ok summary
    /\ guarded summary.
Proof.
  intros Hs. rewrite get_openrouter_summary_run. cbn [fst].
  eexists. split; [reflexivity|].
  unfold summary_text. rewrite Hs.
  destruct (summary_value _) as [s|e] eqn:E.
  - now apply (summary_value_guarded _ _ E).
  - rewrite escape_markdown_v2_flat_map. apply flat_map_v2_guarded.
Qed.

Lemma summary_is_guarded_witness :
  skips_summary (lit "Fixes.") = false
  /\ exists summary,
       fst (get_openrouter_summary zero_world (lit "Fixes.") [] start) = Ok summary
       /\ guarded summary.
Proof.
  split; [reflexivity|].
  exact (summary_is_guarded zero_world (lit "Fixes.") [] start eq_refl).
Defined.

(** ** Sending, post by post *)

Lemma send_ended_spec w chunks :
  forall n,
    send_ended w n (posts_made w n chunks) chunks (send_outcome w n chunks).
Proof.
  induction chunks as [|c rest IH]; intros n.
  - cbn. split; [reflexivity|]. intros j Hj. lia.
  - cbn [posts_made send_outcome].
    destruct (post_ok (w_post w n)) eqn:E.
    + specialize (IH (S n)). unfold send_ended in *.
      assert (Hshift : forall k, accepted_before w (S n) k ->
                                 accepted_before w n (S k)).
      { intros k Hk j Hj. destruct j as [|j].
        - now rewrite Nat.add_0_r.
        - replace (n + S j) with (S n + j) by lia. apply Hk. lia. }
      destruct (send_outcome w (S n) rest) as [[]|e].
      * destruct IH as [-> Hacc]. split; [reflexivity | now apply Hshift].
      * destruct IH as (Hk & Hacc & Hno & He).
        replace (S (posts_made w (S n) rest) - 1)
          with (S (posts_made w (S n) rest - 1)) by lia.
        replace (n + S (posts_made w (S n) rest - 1))
          with (S n + (posts_made w (S n) rest - 1)) by lia.
        repeat split; [lia | now apply Hshift | exact Hno | exact He].
    + cbn. rewrite Nat.add_0_r. repeat split; [lia | intros j Hj; lia | exact E].
Qed.

(** X11.  [send_telegram_message] posts the chunks of the message in
    their order and stops at the first the sink refuses: it returns
    normally exactly when every chunk was posted and accepted, and
    otherwise raises the failure of the last post it made. *)
Theorem send_stops_at_first_refusal w message st :
  let chunks :=
    split_message_markdown (uuid_supply w st) message TELEGRAM_MAX_MESSAGE_LENGTH in
  let n := count_if is_post (trace st) in
  exists k,
    trace (snd (send_telegram_message w message st))
    = trace st ++ map EvPost (take k chunks)
    /\ k <= length chunks
    /\ send_ended w n k chunks (fst (send_telegram_message w message st)).
Proof.
  intros chunks n. rewrite send_telegram_message_run. cbn [fst snd trace].
  fold chunks. fold n. exists (posts_made w n chunks).
  split; [reflexivity|]. split; [apply posts_made_le | apply send_ended_spec].
Qed.

(** X12.  [send_error_notification] never raises, whatever the sink
    answers, and makes no call but posts to the sink. *)
Theorem error_notification_never_raises w error_msg st :
  fst (send_error_notification w error_msg st) = Ok tt
  /\ exists sent,
       trace (snd (send_error_notification w error_msg st))
       = trace st ++ map EvPost sent
       /\ sent <> [].
Proof.
  rewrite send_error_notification_run. cbn [fst snd trace].
  split; [reflexivity|]. eexists. split; [reflexivity|].
  pose proof (notification_chunks_nonempty w (drawn st) error_msg) as Hne.
  pose proof (posts_made_pos w (count_if is_post (trace st)) _ Hne) as Hk.
  destruct (notification_chunks w (drawn st) error_msg) as [|c r];
    [contradiction|].
  destruct (posts_made w _ (c :: r)) as [|k]; [lia | discriminate].
Qed.

(** ** The repository task: what it never does *)












(** X14.  [check_repo_for_updates] never raises: whatever the release
    source, the summary source and the sink answer, the task ends with
    a value, so [main] never meets an exception among its results. *)
Theorem task_never_raises w repo_name repo_path last_id :
  exists r, fst (run_task w repo_name repo_path last_id) = Returned r.
Proof.
  unfold run_task. rewrite check_repo_unfold. unfold catch.
  destruct (check_release w repo_name last_id start) as [[r|e] st1].
  - now exists r.
  - pose proof (on_exception_returns w repo_name repo_path e st1) as H.
    destruct (on_exception w repo_name repo_path e st1) as [[r|e'] st2];
      cbn [fst] in *; [now exists r | discriminate].
Qed.

(** X15.  When the last answer of the release source has a status that
    is neither 2xx nor 404 (a 403, any other 4xx, a 5xx after the
    attempts), the task ends with no update and makes no call besides
    its GETs: nothing is posted to the sink. *)
Theorem error_status_is_silent w repo_name repo_path last_id r :
  w_get w (fetch_attempts w - 1) = Responded r ->
  is_success (status_code r) = false ->
  status_code r <> 404%Z ->
  run_task w repo_name repo_path last_id
  = (Returned None, repeat EvGet (fetch_attempts w)).
Proof.
  intros Hget Hs Hne. unfold run_task.
  rewrite check_repo_unfold, check_release_unfold. unfold catch, bind at 1.
  rewrite fetch_release_start, Hget. cbn [attempt_outcome].
  assert (Hh : forall st, on_exception w repo_name repo_path (HTTPStatusError r) st
                          = (Ok None, st)).
  { intros st. unfold on_exception.
    destruct (Z.eqb_spec (status_code r) 404); [contradiction | reflexivity]. }
  destruct (500 <=? status_code r)%Z.
  - now rewrite Hh.
  - unfold after_fetch, bind at 1, raise_for_status. rewrite Hs. cbn [raise].
    now rewrite Hh.
Qed.

Lemma error_status_is_silent_witness :
  w_get forbidden_release_world (fetch_attempts forbidden_release_world - 1)
  = Responded (plain_response 403)
  /\ is_success (status_code (plain_response 403)) = false
  /\ status_code (plain_response 403) <> 404%Z
  /\ run_task forbidden_release_world (lit "repo") (lit "o/r") None
     = (Returned None, [EvGet]).
Proof.
  assert (H3 : status_code (plain_response 403) <> 404%Z) by discriminate.
  split; [reflexivity|]. split; [reflexivity|]. split; [exact H3|].
  exact (error_status_is_silent forbidden_release_world (lit "repo") (lit "o/r")
           None (plain_response 403) eq_refl eq_refl H3).
Defined.

(** ** The repository task: the other failures *)

Lemma count_if_map_post p l :
  (forall t, p (EvPost t) = false) -> count_if p (map EvPost l) = 0.
Proof.
  intros Hp. unfold count_if. induction l as [|c l IH]; [reflexivity|].
  cbn [map List.filter]. now rewrite Hp.
Qed.

Lemma count_posts_map_post l : count_if is_post (map EvPost l) = length l.
Proof.
  unfold count_if. induction l as [|c l IH]; [reflexivity|].
  cbn [map List.filter is_post length]. now rewrite IH.
Qed.

Lemma last_attempt_failed w :
  retryable (w_get w (fetch_attempts w - 1)) = true -> fetch_attempts w = 3.
Proof.
  unfold fetch_attempts, attempts_table.
  destruct (retryable (w_get w 0)) eqn:E0; cbn [Nat.sub].
  - destruct (retryable (w_get w 1)) eqn:E1; cbn [Nat.sub]; [reflexivity|].
    rewrite E1. discriminate.
  - rewrite E0. discriminate.
Qed.

(** The task from the point where its [try] block raised something
    that is no status error. *)
Lemma task_reports_failure w repo_name repo_path last_id msg :
  fst (check_release w repo_name last_id start) = Raise (OtherError msg) ->
  trace (snd (check_release w repo_name last_id start))
  = repeat EvGet (fetch_attempts w) ->
  drawn (snd (check_release w repo_name last_id start)) = 0 ->
  let chunks := notification_chunks w 0 (check_failed_text repo_name msg) in
  run_task w repo_name repo_path last_id
  = (Returned None,
     repeat EvGet (fetch_attempts w)
       ++ map EvPost (take (posts_made w 0 chunks) chunks)).
Proof.
  intros Hr Ht Hd chunks. unfold run_task. rewrite check_repo_unfold.
  unfold catch.
  destruct (check_release w repo_name last_id start) as [o [tr d]].
  cbn [fst snd trace drawn] in *. subst o tr d.
  unfold on_exception, bind. rewrite send_error_notification_run.
  cbn [trace drawn exn_text]. rewrite (count_gets_only is_post) by reflexivity.
  reflexivity.
Qed.

(** X16.  When the release source cannot be reached on the last
    attempt, all three attempts were made, the task ends with no
    update, and the operator notification naming the repository and
    the failure is posted: at least its first chunk. *)
Theorem transport_failure_is_reported w repo_name repo_path last_id msg :
  w_get w (fetch_attempts w - 1) = TransportFailed msg ->
  let chunks := notification_chunks w 0 (check_failed_text repo_name msg) in
  fetch_attempts w = 3
  /\ run_task w repo_name repo_path last_id
     = (Returned None,
        repeat EvGet 3 ++ map EvPost (take (posts_made w 0 chunks) chunks))
  /\ 1 <= posts_made w 0 chunks.
Proof.
  intros Hget chunks.
  assert (Hk : fetch_attempts w = 3).
  { apply last_attempt_failed. now rewrite Hget. }
  split; [exact Hk|]. split.
  - rewrite <- Hk.
    apply task_reports_failure; rewrite check_release_unfold; unfold bind;
      rewrite fetch_release_start, Hget; reflexivity.
  - apply posts_made_pos, notification_chunks_nonempty.
Qed.

Lemma transport_failure_is_reported_witness :
  w_get unreachable_world (fetch_attempts unreachable_world - 1)
  = TransportFailed (lit "timeout")
  /\ fetch_attempts unreachable_world = 3
  /\ count_if is_post
       (snd (run_task unreachable_world (lit "repo") (lit "o/r") None)) = 1.
Proof.
  split; [reflexivity|].
  destruct (transport_failure_is_reported unreachable_world (lit "repo")
              (lit "o/r") None (lit "timeout") eq_refl) as (Hk & Hrun & _).
  split; [exact Hk|]. rewrite Hrun. vm_compute. reflexivity.
Defined.



(** X18.  The handler of status errors does not tell the sink from the
    release source.  When the sink answers 404 to the first chunk of an
    announcement, the task asks by HEAD whether the repository exists;
    after a 200 it ends with no update and no notification, after
    anything else it notifies the operator that the repository was not
    found, although its release was just read. *)
Theorem sink_404_is_taken_for_the_repository
    w repo_name repo_path last_id rel r :
  fetches w rel ->
  Some (rel_id rel) <> last_id ->
  w_post w 0 = Responded r ->
  status_code r = 404%Z ->
  let chunks := announcement_chunks w repo_name rel in
  let note :=
    notification_chunks w (draws_before_send w repo_name rel)
      (not_found_text repo_name repo_path) in
  run_task w repo_name repo_path last_id
  = (Returned None,
     repeat EvGet (fetch_attempts w) ++ summary_events w rel
       ++ map EvPost (take 1 chunks) ++ [EvHead]
       ++ (if head_found (w_head w 0) then []
           else map EvPost (take (posts_made w 1 note) note))).
Proof.
  intros Hf Hne Hpost Hst chunks note. unfold run_task.
  rewrite check_repo_unfold. unfold catch.
  rewrite (check_release_new _ _ _ _ Hf Hne). fold chunks.
  fold (draws_before_send w repo_name rel).
  pose proof (announcement_chunks_nonempty w repo_name rel) as Hc.
  fold chunks in Hc. clearbody chunks.
  destruct chunks as [|c rest]; [congruence|].
  cbn [send_outcome posts_made]. rewrite Hpost. cbn [post_ok post_exn].
  rewrite Hst, not_success_404.
  unfold on_exception. rewrite Hst. cbn [Z.eqb Pos.eqb].
  unfold bind at 1. rewrite repo_exists_run. cbn [trace drawn].
  assert (Hh : count_if is_head
                 (repeat EvGet (fetch_attempts w) ++ summary_events w rel
                    ++ map EvPost (take 1 (c :: rest))) = 0).
  { rewrite !count_if_app, (count_gets_only is_head) by reflexivity.
    unfold summary_events. rewrite count_if_repeat.
    now rewrite count_if_map_post. }
  rewrite Hh.
  destruct (head_found (w_head w 0)).
  - cbn [ret trace]. now rewrite <- !app_assoc.
  - unfold bind. rewrite send_error_notification_run. cbn [trace drawn].
    fold note.
    assert (Hp : count_if is_post
                   ((repeat EvGet (fetch_attempts w) ++ summary_events w rel
                       ++ map EvPost (take 1 (c :: rest))) ++ [EvHead]) = 1).
    { rewrite !count_if_app, (count_gets_only is_post) by reflexivity.
      rewrite summary_events_no_post, count_posts_map_post. reflexivity. }
    rewrite Hp. cbn [ret trace]. now rewrite <- !app_assoc.
Qed.

Lemma sink_404_world_fetches : fetches sink_404_world release_plain.
Proof.
  exists (Response 200 (JRelease release_plain)).
  split; [reflexivity|]. split; reflexivity.
Qed.

Lemma sink_404_is_taken_for_the_repository_witness :
  fetches sink_404_world release_plain
  /\ Some (rel_id release_plain) <> (None : option Z)
  /\ w_post sink_404_world 0 = Responded (plain_response 404)
  /\ status_code (plain_response 404) = 404%Z
  /\ fst (run_task sink_404_world (lit "repo") (lit "o/r") None) = Returned None.
Proof.
  assert (Hne : Some (rel_id release_plain) <> (None : option Z)) by discriminate.
  split; [exact sink_404_world_fetches|]. split; [exact Hne|].
  split; [reflexivity|]. split; [reflexivity|].
  rewrite (sink_404_is_taken_for_the_repository sink_404_world (lit "repo")
             (lit "o/r") None release_plain (plain_response 404)
             sink_404_world_fetches Hne eq_refl eq_refl).
  reflexivity.
Defined.

(** ** The coordinator: what a run does to the state *)

Lemma commit_all_origin net current_state name repos :
  forall new_state,
    match commit_all (map (task_of net current_state) repos) new_state !! name with
    | Some v =>
        new_state !! name = Some v
        \/ (v <> 0%Z
            /\ exists path,
                 In (name, path) repos
                 /\ fst (run_task (net name) name path (current_state !! name))
                    = Returned (Some v))
    | None => new_state !! name = None
    end.
Proof.
  unfold commit_all.
  induction repos as [|[n p] repos IH]; intros new_state.
  - cbn [map fold_left]. now destruct (new_state !! name); [left|].
  - cbn [map fold_left task_of fst snd].
    specialize (IH (commit new_state n
                      (fst (run_task (net n) n p (current_state !! n))))).
    destruct (fold_left _ _ _ !! name) as [v|].
    + destruct IH as [IH | (Hv & path & Hin & Hr)].
      * destruct (decide (n = name)) as [->|Hn].
        -- rewrite commit_same in IH.
           destruct (fst (run_task _ _ _ _)) as [e|[id|]] eqn:Er;
             try (now left).
           destruct (Z.eqb_spec id 0); [now left|].
           injection IH as <-. right. split; [assumption|].
           exists p. split; [now left | exact Er].
        -- rewrite commit_other in IH by exact Hn. now left.
      * right. split; [exact Hv|]. exists path. split; [now right | exact Hr].
    + destruct (decide (n = name)) as [->|Hn].
      * rewrite commit_same in IH.
        destruct (fst (run_task _ _ _ _)) as [e|[id|]]; try exact IH.
        destruct (id =? 0)%Z; [exact IH | discriminate].
      * now rewrite commit_other in IH.
Qed.

(** X19.  What [main] persists: no entry is ever removed, and the
    value of an entry after the run is either the value it had before
    or a non-zero id returned by a task of that very repository, run
    against the entry as it was before the run. *)
Theorem state_changes_only_by_results repos net current_state name :
  match fst (main repos net current_state) !! name with
  | Some v =>
      current_state !! name = Some v
      \/ (v <> 0%Z
          /\ exists path,
               In (name, path) repos
               /\ fst (run_task (net name) name path (current_state !! name))
                  = Returned (Some v))
  | None => current_state !! name = None
  end.
Proof. rewrite main_state. apply commit_all_origin. Qed.

(** X20.  The entry of a repository that is not monitored comes out of
    the run as it went in. *)
Theorem unmonitored_entry_is_kept repos net current_state name :
  ~ In name (map fst repos) ->
  fst (main repos net current_state) !! name = current_state !! name.
Proof. intros Hn. rewrite main_state. now apply commit_all_other. Qed.

Lemma unmonitored_entry_is_kept_witness :
  ~ In (lit "other") (map fst [(lit "repo", lit "o/r")])
  /\ fst (main [(lit "repo", lit "o/r")] (fun _ => plain_world)
            {[ lit "other" := 5%Z ]}) !! lit "other"
     = Some 5%Z.
Proof.
  assert (H : ~ In (lit "other") (map fst [(lit "repo", lit "o/r")])).
  { intros [H|[]]. discriminate H. }
  split; [exact H|].
  rewrite (unmonitored_entry_is_kept [(lit "repo", lit "o/r")]
             (fun _ => plain_world) {[ lit "other" := 5%Z ]} (lit "other") H).
  apply lookup_singleton_eq.
Defined.

(** The entry of a monitored repository whose release, not numbered 0,
    is read and whose announcement, if any, is accepted. *)
Lemma entry_after_run repos net current_state name path rel :
  List.NoDup (map fst repos) ->
  In (name, path) repos ->
  fetches (net name) rel ->
  rel_id rel <> 0%Z ->
  sink_accepts (net name) ->
  fst (main repos net current_state) !! name = Some (rel_id rel).
Proof.
  intros Hnd Hin Hf Hnz Hacc.
  destruct (main_entry repos net current_state name path Hnd Hin) as [E _].
  rewrite E, commit_same.
  destruct (decide (Some (rel_id rel) = current_state !! name)) as [Hs|Hne].
  - now rewrite (task_same_release _ _ _ _ _ Hf Hs).
  - destruct (task_new_release (net name) name path (current_state !! name) rel
                Hf Hne) as (result & more & Hrun & _ & Hres).
    cbv zeta in Hrun, Hres.
    rewrite (send_outcome_accepted _ _ Hacc) in Hres. destruct Hres as [-> _].
    rewrite Hrun. cbn [fst].
    destruct (Z.eqb_spec (rel_id rel) 0); [contradiction | reflexivity].
Qed.

(** X21.  Two runs in a row against the same answers: when the release,
    not numbered 0, is read and the sink accepts, the second run,
    started from the state the first one persisted, posts nothing for
    the repository and leaves its entry as it is. *)
Theorem second_run_is_silent repos net current_state name path rel :
  List.NoDup (map fst repos) ->
  In (name, path) repos ->
  fetches (net name) rel ->
  rel_id rel <> 0%Z ->
  sink_accepts (net name) ->
  let persisted := fst (main repos net current_state) in
  fst (main repos net persisted) !! name = persisted !! name
  /\ exists tr,
       In (name, tr) (snd (main repos net persisted)) /\ posts tr = [].
Proof.
  intros Hnd Hin Hf Hnz Hacc persisted.
  assert (Hp : persisted !! name = Some (rel_id rel))
    by now apply (entry_after_run repos net current_state name path).
  split.
  - rewrite Hp. now apply (entry_after_run repos net persisted name path).
  - destruct (main_entry repos net persisted name path Hnd Hin) as [_ T].
    rewrite (task_same_release _ _ _ _ _ Hf (eq_sym Hp)) in T.
    cbn [snd] in T. eexists. split; [exact T|].
    apply posts_none. now rewrite count_if_repeat.
Qed.

Lemma plain_world_fetches : fetches plain_world release_plain.
Proof.
  exists (Response 200 (JRelease release_plain)).
  split; [reflexivity|]. split; reflexivity.
Qed.

Lemma one_repo_nodup : List.NoDup (map fst [(lit "repo", lit "o/r")]).
Proof. constructor; [intros [] | constructor]. Qed.

Lemma second_run_is_silent_witness :
  List.NoDup (map fst [(lit "repo", lit "o/r")])
  /\ In (lit "repo", lit "o/r") [(lit "repo", lit "o/r")]
  /\ fetches plain_world release_plain
  /\ rel_id release_plain <> 0%Z
  /\ sink_accepts plain_world
  /\ exists tr,
       In (lit "repo", tr)
         (snd (main [(lit "repo", lit "o/r")] (fun _ => plain_world)
                 (fst (main [(lit "repo", lit "o/r")] (fun _ => plain_world) ∅))))
       /\ posts tr = [].
Proof.
  assert (H2 : In (lit "repo", lit "o/r") [(lit "repo", lit "o/r")]) by now left.
  assert (H4 : rel_id release_plain <> 0%Z) by discriminate.
  assert (H5 : sink_accepts plain_world) by (intros k; reflexivity).
  split; [exact one_repo_nodup|]. split; [exact H2|].
  split; [exact plain_world_fetches|]. split; [exact H4|]. split; [exact H5|].
  exact (proj2 (second_run_is_silent [(lit "repo", lit "o/r")]
                  (fun _ => plain_world) ∅ (lit "repo") (lit "o/r") release_plain
                  one_repo_nodup H2 plain_world_fetches H4 H5)).
Defined.

Lemma unchanged_release_rule_witness :
  List.NoDup (map fst [(lit "repo", lit "o/r")])
  /\ In (lit "repo", lit "o/r") [(lit "repo", lit "o/r")]
  /\ fetches plain_world release_plain
  /\ ({[ lit "repo" := 7%Z ]} : gmap (list N) Z) !! lit "repo"
     = Some (rel_id release_plain)
  /\ exists tr,
       In (lit "repo", tr)
         (snd (main [(lit "repo", lit "o/r")] (fun _ => plain_world)
                 {[ lit "repo" := 7%Z ]}))
       /\ posts tr = [].
Proof.
  assert (H2 : In (lit "repo", lit "o/r") [(lit "repo", lit "o/r")]) by now left.
  assert (H4 : ({[ lit "repo" := 7%Z ]} : gmap (list N) Z) !! lit "repo"
               = Some (rel_id release_plain)) by apply lookup_singleton_eq.
  split; [exact one_repo_nodup|]. split; [exact H2|].
  split; [exact plain_world_fetches|]. split; [exact H4|].
  exact (proj2 (unchanged_release_rule [(lit "repo", lit "o/r")]
                  (fun _ => plain_world) {[ lit "repo" := 7%Z ]} (lit "repo")
                  (lit "o/r") release_plain
                  one_repo_nodup H2 plain_world_fetches H4)).
Defined.

Lemma new_release_rule_witness :
  List.NoDup (map fst [(lit "repo", lit "o/r")])
  /\ In (lit "repo", lit "o/r") [(lit "repo", lit "o/r")]
  /\ fetches plain_world release_plain
  /\ (∅ : gmap (list N) Z) !! lit "repo" <> Some (rel_id release_plain)
  /\ rel_id release_plain <> 0%Z
  /\ sink_accepts plain_world
  /\ fst (main [(lit "repo", lit "o/r")] (fun _ => plain_world) ∅) !! lit "repo"
     = Some 7%Z.
Proof.
  assert (H2 : In (lit "repo", lit "o/r") [(lit "repo", lit "o/r")]) by now left.
  assert (H4 : (∅ : gmap (list N) Z) !! lit "repo" <> Some (rel_id release_plain)).
  { rewrite lookup_empty. discriminate. }
  assert (H5 : rel_id release_plain <> 0%Z) by discriminate.
  assert (H6 : sink_accepts plain_world) by (intros k; reflexivity).
  split; [exact one_repo_nodup|]. split; [exact H2|].
  split; [exact plain_world_fetches|]. split; [exact H4|].
  split; [exact H5|]. split; [exact H6|].
  exact (proj1 (new_release_rule [(lit "repo", lit "o/r")]
                  (fun _ => plain_world) ∅ (lit "repo") (lit "o/r") release_plain
                  one_repo_nodup H2 plain_world_fetches H4 H5 H6)).
Defined.

Lemma entry_changes_after_send_witness :
  List.NoDup (map fst [(lit "repo", lit "o/r")])
  /\ In (lit "repo", lit "o/r") [(lit "repo", lit "o/r")]
  /\ fetches plain_world release_plain
  /\ fst (main [(lit "repo", lit "o/r")] (fun _ => plain_world) ∅) !! lit "repo"
     <> (∅ : gmap (list N) Z) !! lit "repo"
  /\ send_outcome plain_world 0
       (announcement_chunks plain_world (lit "repo") release_plain) = Ok tt.
Proof.
  assert (H2 : In (lit "repo", lit "o/r") [(lit "repo", lit "o/r")]) by now left.
  assert (H4 : fst (main [(lit "repo", lit "o/r")] (fun _ => plain_world) ∅)
                 !! lit "repo"
               <> (∅ : gmap (list N) Z) !! lit "repo").
  { rewrite (entry_after_run [(lit "repo", lit "o/r")] (fun _ => plain_world) ∅
               (lit "repo") (lit "o/r") release_plain one_repo_nodup H2
               plain_world_fetches).
    - rewrite lookup_empty. discriminate.
    - discriminate.
    - intros k. reflexivity. }
  split; [exact one_repo_nodup|]. split; [exact H2|].
  split; [exact plain_world_fetches|]. split; [exact H4|].
  exact (entry_changes_after_send [(lit "repo", lit "o/r")]
           (fun _ => plain_world) ∅ (lit "repo") (lit "o/r") release_plain
           one_repo_nodup H2 plain_world_fetches H4).
Defined.
